(** * Allocation file-streaming core: log-segment index, tailer and log driver

    A shallow embedding of [client/fs_endpoint.go]: the log-segment index
    ([logIndexes], [findClosest]), the transport-error mapping
    ([parseFramerErr]), the file tailer ([streamFile]), the log stream driver
    ([logsImpl]) and the request prologues of the two streaming handlers
    ([stream], [logs]).

    Conventions.
    - Go's [int64] (and [int], 64 bits wide) is [Z]; every arithmetic
      operation the source performs on offsets, sizes and log indexes goes
      through [Int64.wrap].  Positions inside a slice stay plain [Z]: a slice
      has at most [MaxInt64] elements, so [idx - 1] and [idx + 1] taken
      inside [0, len) cannot wrap.
    - Go's [(value, error)] results are [res]; a run-time panic and an
      exhausted iteration budget are the two extra cases of [outcome].
    - What the handlers obtain from collaborators (directory listings, reads,
      change notifications, the framer, the ACL resolver) is an explicit
      input of the function that consumes it. *)

From Stdlib Require Import ZArith List String Ascii Bool Lia.
From Stdlib Require Import Permutation Sorted.
Import ListNotations.

Local Open Scope string_scope.
Local Open Scope list_scope.
Local Open Scope Z_scope.

Set Implicit Arguments.

(** ** 64-bit signed integers *)

Module Int64.

Definition min_int64 : Z := - 2 ^ 63.
Definition max_int64 : Z := 2 ^ 63 - 1.

(** Two's-complement reduction of a mathematical integer to [int64]. *)
Definition wrap (z : Z) : Z := (z + 2 ^ 63) mod 2 ^ 64 - 2 ^ 63.

Definition add (a b : Z) : Z := wrap (a + b).
Definition sub (a b : Z) : Z := wrap (a - b).
Definition mul (a b : Z) : Z := wrap (a * b).

Definition in_range (z : Z) : Prop := min_int64 <= z <= max_int64.

Definition in_rangeb (z : Z) : bool := (min_int64 <=? z) && (z <=? max_int64).

End Int64.

(** ** Strings: the functions of Go's [strings] package the source calls *)

Module Strings.

(** [strings.HasPrefix s prefix]. *)
Fixpoint HasPrefix (s prefix : string) {struct prefix} : bool :=
  match prefix with
  | EmptyString => true
  | String p prefix' =>
      match s with
      | EmptyString => false
      | String c s' => Ascii.eqb c p && HasPrefix s' prefix'
      end
  end.

(** [s[n:]] for [n <= len s]. *)
Fixpoint drop (n : nat) (s : string) : string :=
  match n with
  | O => s
  | S n' => match s with EmptyString => EmptyString | String _ s' => drop n' s' end
  end.

(** [strings.TrimPrefix s prefix]: [s] without the leading [prefix], or [s]
    itself when it does not start with [prefix]. *)
Definition TrimPrefix (s prefix : string) : string :=
  if HasPrefix s prefix then drop (String.length prefix) s else s.

(** [strings.Contains s substr]. *)
Fixpoint Contains (s substr : string) : bool :=
  HasPrefix s substr ||
  match s with
  | EmptyString => false
  | String _ s' => Contains s' substr
  end.

(** The double-quote and backslash characters, for [%q]. *)
Definition dquote : string := String (ascii_of_nat 34) EmptyString.

Definition backslash : string := String (ascii_of_nat 92) EmptyString.

(** The lower-case hexadecimal digit of [n < 16]. *)
Definition hexDigit (n : nat) : string :=
  match String.get n "0123456789abcdef" with
  | Some c => String c EmptyString
  | None => EmptyString
  end.

(** What [strconv.Quote] writes for one byte: the quote and the backslash
    get a backslash, printable ASCII is copied, the control characters get
    their letter or [\xNN].  Bytes from [utf8.RuneSelf] on are copied, which
    is what Go does for the bytes of a printable character in valid UTF-8;
    Go's [\x], [\u] and [\U] forms for the other ones are not modelled. *)
Definition escape (c : ascii) : string :=
  let n := nat_of_ascii c in
  if ((n =? 34) || (n =? 92))%nat then (backslash ++ String c EmptyString)%string
  else if ((32 <=? n) && (n <? 127))%nat then String c EmptyString
  else if (n =? 7)%nat then (backslash ++ "a")%string
  else if (n =? 8)%nat then (backslash ++ "b")%string
  else if (n =? 12)%nat then (backslash ++ "f")%string
  else if (n =? 10)%nat then (backslash ++ "n")%string
  else if (n =? 13)%nat then (backslash ++ "r")%string
  else if (n =? 9)%nat then (backslash ++ "t")%string
  else if (n =? 11)%nat then (backslash ++ "v")%string
  else if ((n <? 32) || (n =? 127))%nat then
    (backslash ++ "x" ++ hexDigit (n / 16) ++ hexDigit (n mod 16))%string
  else String c EmptyString.

Fixpoint escaped (s : string) : string :=
  match s with
  | EmptyString => EmptyString
  | String c s' => (escape c ++ escaped s')%string
  end.

(** [strconv.Quote s], what [%q] prints for a string. *)
Definition quote (s : string) : string := (dquote ++ escaped s ++ dquote)%string.

End Strings.

(** ** Errors

    A Go [error] is an interface value: the source compares some of them by
    identity ([err == syscall.EPIPE], [err == io.EOF]) and reads the message
    of others ([err.Error()]).  The sentinels the source names are
    constructors of their own; [Errorf] stands for any other error value,
    known by its message only. *)

Inductive error : Type :=
| EPIPE                       (* syscall.EPIPE *)
| ECONNRESET                  (* syscall.ECONNRESET *)
| ErrClosedPipe               (* io.ErrClosedPipe *)
| EOF                         (* io.EOF *)
| ErrNotExist (path : string) (* an error os.IsNotExist recognises *)
| ErrPermissionDenied         (* structs.ErrPermissionDenied *)
| allocIDNotPresentErr
| pathNotPresentErr
| taskNotPresentErr
| logTypeNotPresentErr
| invalidOrigin
| ErrSyntax (fn s : string)   (* *strconv.NumError with strconv.ErrSyntax *)
| ErrRange (fn s : string)    (* *strconv.NumError with strconv.ErrRange *)
| Errorf (msg : string).

(** [err.Error()]. *)
Definition Error (e : error) : string :=
  match e with
  | EPIPE => "broken pipe"
  | ECONNRESET => "connection reset by peer"
  | ErrClosedPipe => "io: read/write on closed pipe"
  | EOF => "EOF"
  | ErrNotExist p => "open " ++ p ++ ": no such file or directory"
  | ErrPermissionDenied => "Permission denied"
  | allocIDNotPresentErr => "must provide a valid alloc id"
  | pathNotPresentErr => "must provide a file path"
  | taskNotPresentErr => "must provide task name"
  | logTypeNotPresentErr => "must provide log type (stdout/stderr)"
  | invalidOrigin => "origin must be start or end"
  | ErrSyntax fn s =>
      "strconv." ++ fn ++ ": parsing " ++ Strings.quote s ++ ": invalid syntax"
  | ErrRange fn s =>
      "strconv." ++ fn ++ ": parsing " ++ Strings.quote s ++ ": value out of range"
  | Errorf msg => msg
  end.

Definition error_eqb (a b : error) : bool :=
  match a, b with
  | EPIPE, EPIPE | ECONNRESET, ECONNRESET | ErrClosedPipe, ErrClosedPipe
  | EOF, EOF | ErrPermissionDenied, ErrPermissionDenied
  | allocIDNotPresentErr, allocIDNotPresentErr
  | pathNotPresentErr, pathNotPresentErr
  | taskNotPresentErr, taskNotPresentErr
  | logTypeNotPresentErr, logTypeNotPresentErr
  | invalidOrigin, invalidOrigin => true
  | ErrNotExist p, ErrNotExist q => String.eqb p q
  | ErrSyntax f s, ErrSyntax g t => String.eqb f g && String.eqb s t
  | ErrRange f s, ErrRange g t => String.eqb f g && String.eqb s t
  | Errorf m, Errorf n => String.eqb m n
  | _, _ => false
  end.

(** [os.IsNotExist err]. *)
Definition IsNotExist (e : error) : bool :=
  match e with ErrNotExist _ => true | _ => false end.

(** A Go result [(value, err)]: exactly one of the two is meaningful. *)
Inductive res (A : Type) : Type :=
| ok (a : A)
| fail (e : error).

Arguments ok {A} a.
Arguments fail {A} e.

(** What a call does: return, panic (index out of range), or use up the
    iteration budget it was given. *)
Inductive outcome (A : Type) : Type :=
| Returns (a : A)
| Panics
| OutOfFuel.

Arguments Returns {A} a.
Arguments Panics {A}.
Arguments OutOfFuel {A}.

(** ** [strconv.Atoi] on a 64-bit platform

    An optional sign ([+] or [-]), then one or more ASCII digits; the value
    must fit [int].  Anything else is a [*NumError]. *)

Module Strconv.

Definition digit (c : ascii) : option Z :=
  let n := Z.of_N (N_of_ascii c) in
  if (48 <=? n) && (n <=? 57) then Some (n - 48) else None.

Fixpoint digits (s : string) (acc : Z) : option Z :=
  match s with
  | EmptyString => Some acc
  | String c s' =>
      match digit c with
      | None => None
      | Some d => digits s' (acc * 10 + d)
      end
  end.

(** [1<<64 - 1], the largest value the digit loop of [ParseUint] holds. *)
Definition maxUint64 : Z := 18446744073709551615.

(** Whether the digit loop of [ParseUint], reading [s] from the left with
    [acc] read so far, leaves with [ErrRange]: a digit takes the value past
    [maxUint64] before a character that is no digit is met. *)
Fixpoint overflows (s : string) (acc : Z) : bool :=
  match s with
  | EmptyString => false
  | String c s' =>
      match digit c with
      | None => false
      | Some d => (maxUint64 <? acc * 10 + d) || overflows s' (acc * 10 + d)
      end
  end.

(** [strconv.Atoi s] where [int] has 64 bits: an optional sign, then
    [ParseUint] on the rest, then the range check of [ParseInt]. *)
Definition Atoi (s : string) : res Z :=
  match s with
  | EmptyString => fail (ErrSyntax "Atoi" s)
  | String c rest =>
      let neg := Ascii.eqb c "-"%char in
      let body := if neg || Ascii.eqb c "+"%char then rest else s in
      match body with
      | EmptyString => fail (ErrSyntax "Atoi" s)
      | _ =>
          if overflows body 0 then fail (ErrRange "Atoi" s)
          else
            match digits body 0 with
            | None => fail (ErrSyntax "Atoi" s)
            | Some n =>
                let v := if neg then - n else n in
                if Int64.in_rangeb v then ok v else fail (ErrRange "Atoi" s)
            end
      end
  end.

End Strconv.

(** ** Slices *)

(** [a[i]]: [None] is Go's index-out-of-range panic. *)
Definition index {A : Type} (a : list A) (i : Z) : option A :=
  if (0 <=? i) && (i <? Z.of_nat (List.length a)) then nth_error a (Z.to_nat i) else None.

Definition len {A : Type} (a : list A) : Z := Z.of_nat (List.length a).

(** ** The log-segment index *)

(** [cstructs.AllocFileInfo], by the fields the streaming core reads. *)
Record AllocFileInfo : Type := {
  Name : string;
  IsDir : bool;
  Size : Z;
}.

Record indexTuple : Type := {
  idx : Z;
  entry : AllocFileInfo;
}.

(** [indexTupleArray.Less], on two elements. *)
Definition Less (a b : indexTuple) : bool := idx a <? idx b.

Module Sort.

(** [sort.Search n f]: binary search for the smallest [i] in [0, n) with
    [f i] true, [n] when there is none.  [h] is [int(uint(i+j) >> 1)]. *)
Fixpoint Search_loop (fuel : nat) (f : Z -> bool) (i j : Z) : outcome Z :=
  if i <? j then
    match fuel with
    | O => OutOfFuel
    | S fuel' =>
        let h := (i + j) / 2 in
        if negb (f h) then Search_loop fuel' f (h + 1) j
        else Search_loop fuel' f i h
    end
  else Returns i.

Definition Search (n : Z) (f : Z -> bool) : outcome Z :=
  Search_loop (Z.to_nat n) f 0 n.

(** [sort.Sort] on an [indexTupleArray].  Go leaves the order of elements
    with equal keys open and [sort.Sort] is not stable; this is a stable
    insertion sort.  When the parsed indexes are pairwise distinct there is
    one ordered arrangement only ([Sort_unique] below), so any sorting
    algorithm returns this array; with equal indexes another algorithm can
    put the tied entries in another order.  The results below use only that
    the outcome is a permutation ordered by [idx]. *)
Fixpoint insert (t : indexTuple) (a : list indexTuple) : list indexTuple :=
  match a with
  | [] => [t]
  | u :: a' => if Less u t then u :: insert t a' else t :: u :: a'
  end.

Fixpoint Sort (a : list indexTuple) : list indexTuple :=
  match a with
  | [] => []
  | t :: a' => insert t (Sort a')
  end.

End Sort.

(** [fmt.Sprintf("%s.%s.", task, logType)]. *)
Definition logPrefix (task logType : string) : string :=
  (task ++ "." ++ logType ++ ".")%string.

(** The body of the [range entries] loop of [logIndexes], with the slice
    built so far. *)
Fixpoint logIndexes_from (prefix : string) (entries : list AllocFileInfo)
    (indexes : list indexTuple) : res (list indexTuple) :=
  match entries with
  | [] => ok indexes
  | e :: rest =>
      if IsDir e then logIndexes_from prefix rest indexes
      else
        let idxStr := Strings.TrimPrefix (Name e) prefix in
        if String.eqb idxStr (Name e) then logIndexes_from prefix rest indexes
        else
          match Strconv.Atoi idxStr with
          | fail err =>
              fail (Errorf ("failed to convert " ++ Strings.quote idxStr
                            ++ " to a log index: " ++ Error err)%string)
          | ok i =>
              logIndexes_from prefix rest (indexes ++ [{| idx := i; entry := e |}])
          end
  end.

Definition logIndexes (entries : list AllocFileInfo) (task logType : string)
    : res (list indexTuple) :=
  logIndexes_from (logPrefix task logType) entries [].

(** One pass of the offset-resolution loop of [findClosest], at position
    [i] of the sorted array with [offset] still to resolve. *)
Inductive walk : Type :=
| Break (offset i : Z)
| Continue (offset i : Z)
| OutOfRange.

Definition findClosest_step (indexes : list indexTuple) (offset i : Z) : walk :=
  match index indexes i with
  | None => OutOfRange
  | Some t =>
      let s := Size (entry t) in
      if offset =? 0 then Break offset i
      else if offset <? 0 then
        let newOffset := Int64.add s offset in
        if newOffset >=? 0 then Break newOffset i
        else if i =? 0 then Break 0 i
        else Continue newOffset (i - 1)
      else
        if offset <=? s then Break offset i
        else if i =? len indexes - 1 then Break s i
        else Continue (Int64.sub offset s) (i + 1)
  end.

Fixpoint findClosest_loop (fuel : nat) (indexes : list indexTuple) (offset i : Z)
    : outcome (Z * Z) :=
  match findClosest_step indexes offset i with
  | OutOfRange => Panics
  | Break offset' i' => Returns (offset', i')
  | Continue offset' i' =>
      match fuel with
      | O => OutOfFuel
      | S fuel' => findClosest_loop fuel' indexes offset' i'
      end
  end.

(** [findClosest] after the sort: the binary search, the clamp to the last
    position, the walk, and the final two reads of [indexes[idx]]. *)
Definition closestIn (indexes : list indexTuple) (desiredIdx desiredOffset : Z)
    : outcome (AllocFileInfo * Z * Z) :=
  match Sort.Search (len indexes) (fun i =>
          match index indexes i with
          | Some t => idx t >=? desiredIdx
          | None => false
          end) with
  | Returns i =>
      let l := len indexes in
      let i := if i =? l then l - 1 else i in
      match findClosest_loop (2 * List.length indexes) indexes desiredOffset i with
      | Returns (offset, i) =>
          match index indexes i with
          | Some t => Returns (entry t, idx t, offset)
          | None => Panics
          end
      | Panics => Panics
      | OutOfFuel => OutOfFuel
      end
  | Panics => Panics
  | OutOfFuel => OutOfFuel
  end.

Definition findClosest (entries : list AllocFileInfo) (desiredIdx desiredOffset : Z)
    (task logType : string) : outcome (res (AllocFileInfo * Z * Z)) :=
  match logIndexes entries task logType with
  | fail err => Returns (fail err)
  | ok indexes =>
      if len indexes =? 0 then
        Returns (fail (Errorf ("log entry for task " ++ Strings.quote task
                               ++ " and log type " ++ Strings.quote logType
                               ++ " not found")%string))
      else
        match closestIn (Sort.Sort indexes) desiredIdx desiredOffset with
        | Returns r => Returns (ok r)
        | Panics => Panics
        | OutOfFuel => OutOfFuel
        end
  end.

(** ** Transport errors *)

Definition parseFramerErr (err : option error) : option error :=
  match err with
  | None => None
  | Some e =>
      let errMsg := Error e in
      if Strings.Contains errMsg (Error ErrClosedPipe) then Some EPIPE
      else if Strings.Contains errMsg (Error EPIPE)
              || Strings.Contains errMsg (Error ECONNRESET) then Some EPIPE
      else if Strings.Contains errMsg "forcibly closed" then Some EPIPE
      else Some e
  end.

(** ** The file tailer *)

Definition streamFrameSize : Z := 64 * 1024.
Definition deleteEvent : string := "file deleted".
Definition truncateEvent : string := "file truncated".

(** An open file, as [fs.ReadAt] hands it out. *)
Definition handle : Type := nat.

(** [fileReader]: the file itself, or the [io.LimitedReader] that
    [io.LimitReader file n] builds, with [N] bytes still allowed. *)
Inductive fileReader : Type :=
| File (h : handle)
| LimitedReader (h : handle) (N : Z).

(** [fileReader.Read(data)] for a buffer of [buflen] bytes; [file_Read]
    answers a read of the underlying file with a byte count and an error. *)
Definition Read (r : fileReader) (buflen : Z) (file_Read : Z -> Z * option error)
    : Z * option error * fileReader :=
  match r with
  | File _ => let '(n, err) := file_Read buflen in (n, err, r)
  | LimitedReader h N =>
      if N <=? 0 then (0, Some EOF, r)
      else
        let p := if buflen >? N then N else buflen in
        let '(n, err) := file_Read p in
        (n, err, LimitedReader h (Int64.sub N n))
  end.

(** A call [framer.Send(path, event, data, offset)], with the payload by
    its length. *)
Record frame : Type := {
  f_path : string;
  f_event : string;
  f_size : Z;
  f_offset : Z;
}.

(** The case of the [select] at EOF that fires, with what the calls made in
    that case answer. *)
Inductive fileChange : Type :=
| Modified
| Deleted (send : option error)
| Truncated (close : option error) (reopen : Z -> res handle)
| FramerExit
| CtxDone
| EofCancelClosed
| EofCancelValue (err : option error).

(** What the collaborators answer during one pass of the [OUTER] loop. *)
Record tailerInput : Type := {
  in_read : Z -> Z * option error;
  in_send : option error;
  in_watch : option error;
  in_select : fileChange;
}.

(** The local variables of [streamFile], and the calls made so far:
    [t_openedAt] is the offset given to the [fs.ReadAt] that produced
    [t_file], [t_closed] the handles closed by an explicit [file.Close()],
    [t_sent] the frames given to [framer.Send]. *)
Record tailer : Type := {
  t_offset : Z;
  t_file : handle;
  t_openedAt : Z;
  t_reader : fileReader;
  t_lastEvent : string;
  t_changes : bool;
  t_closed : list handle;
  t_sent : list frame;
}.

Inductive tailerPass : Type :=
| Returned (st : tailer) (err : option error)
| Looping (st : tailer).

Definition bufSize (limit : Z) : Z :=
  if (limit >? 0) && (limit <? streamFrameSize) then limit else streamFrameSize.

(** Field updates of [tailer]. *)
Definition set_read (st : tailer) (offset : Z) (r : fileReader) : tailer :=
  {| t_offset := offset; t_file := t_file st; t_openedAt := t_openedAt st;
     t_reader := r; t_lastEvent := t_lastEvent st; t_changes := t_changes st;
     t_closed := t_closed st; t_sent := t_sent st |}.

Definition set_lastEvent (st : tailer) (ev : string) : tailer :=
  {| t_offset := t_offset st; t_file := t_file st; t_openedAt := t_openedAt st;
     t_reader := t_reader st; t_lastEvent := ev; t_changes := t_changes st;
     t_closed := t_closed st; t_sent := t_sent st |}.

Definition set_changes (st : tailer) : tailer :=
  {| t_offset := t_offset st; t_file := t_file st; t_openedAt := t_openedAt st;
     t_reader := t_reader st; t_lastEvent := t_lastEvent st; t_changes := true;
     t_closed := t_closed st; t_sent := t_sent st |}.

Definition add_sent (st : tailer) (fr : frame) : tailer :=
  {| t_offset := t_offset st; t_file := t_file st; t_openedAt := t_openedAt st;
     t_reader := t_reader st; t_lastEvent := t_lastEvent st; t_changes := t_changes st;
     t_closed := t_closed st; t_sent := t_sent st ++ [fr] |}.

(** [file.Close()] on the current file, then [offset = 0]. *)
Definition close_file (st : tailer) : tailer :=
  {| t_offset := 0; t_file := t_file st; t_openedAt := t_openedAt st;
     t_reader := t_reader st; t_lastEvent := t_lastEvent st; t_changes := t_changes st;
     t_closed := t_closed st ++ [t_file st]; t_sent := t_sent st |}.

(** [file, err = fs.ReadAt(path, offset)] succeeded with [file]. *)
Definition set_file (st : tailer) (file : handle) : tailer :=
  {| t_offset := t_offset st; t_file := file; t_openedAt := t_offset st;
     t_reader := t_reader st; t_lastEvent := t_lastEvent st; t_changes := t_changes st;
     t_closed := t_closed st; t_sent := t_sent st |}.

Definition set_reader (st : tailer) (r : fileReader) : tailer :=
  set_read st (t_offset st) r.

(** The [select] of [streamFile], entered at EOF with the watcher set up. *)
Definition streamFile_select (path : string) (limit : Z) (st : tailer) (c : fileChange)
    : tailerPass :=
  match c with
  | Modified => Looping st
  | Deleted send =>
      Returned
        (add_sent st {| f_path := path; f_event := deleteEvent;
                        f_size := 0; f_offset := t_offset st |})
        (parseFramerErr send)
  | Truncated close reopen =>
      match close with
      | Some err => Returned st (Some err)
      | None =>
          let st := close_file st in
          match reopen (t_offset st) with
          | fail err => Returned st (Some err)
          | ok file =>
              let st := set_file st file in
              if limit <=? 0 then
                Looping (set_lastEvent (set_reader st (File file)) truncateEvent)
              else
                match t_reader st with
                | LimitedReader _ N =>
                    Looping (set_lastEvent (set_reader st (LimitedReader file N))
                               truncateEvent)
                | File _ =>
                    Returned st (Some (Errorf "unable to determine remaining read limit"))
                end
          end
      end
  | FramerExit => Returned st None
  | CtxDone => Returned st None
  | EofCancelClosed => Returned st None
  | EofCancelValue err => Returned st err
  end.

(** One pass of the [OUTER] loop of [streamFile]. *)
Definition streamFile_pass (path : string) (limit : Z) (st : tailer) (inp : tailerInput)
    : tailerPass :=
  let '(n, readErr, reader) := Read (t_reader st) (bufSize limit) (in_read inp) in
  let st := set_read st (Int64.add (t_offset st) n) reader in
  if match readErr with Some e => negb (error_eqb e EOF) | None => false end then
    Returned st readErr
  else
    let sends := negb (n =? 0) || negb (String.eqb (t_lastEvent st) "") in
    let st :=
      if sends then
        add_sent st {| f_path := path; f_event := t_lastEvent st;
                       f_size := n; f_offset := t_offset st |}
      else st in
    match (if sends then in_send inp else None) with
    | Some err => Returned st (parseFramerErr (Some err))
    | None =>
        let st := if negb (String.eqb (t_lastEvent st) "") then set_lastEvent st "" else st in
        match readErr with
        | None => Looping st
        | Some _ =>
            match (if t_changes st then None else in_watch inp) with
            | Some err => Returned st (Some err)
            | None => streamFile_select path limit (set_changes st) (in_select inp)
            end
        end
    end.

(** The local state of [streamFile] once [fs.ReadAt(path, offset)] has
    answered with [file]. *)
Definition streamFile_open (offset limit : Z) (file : handle) : tailer :=
  {| t_offset := offset; t_file := file; t_openedAt := offset;
     t_reader := if limit <=? 0 then File file else LimitedReader file limit;
     t_lastEvent := ""; t_changes := false; t_closed := []; t_sent := [] |}.

(** The [OUTER] loop over the answers of successive passes; [Looping] at the
    end means the tailer is still running when the answers run out. *)
Fixpoint streamFile_loop (path : string) (limit : Z) (st : tailer)
    (inputs : list tailerInput) : tailerPass :=
  match inputs with
  | [] => Looping st
  | inp :: rest =>
      match streamFile_pass path limit st inp with
      | Returned st' err => Returned st' err
      | Looping st' => streamFile_loop path limit st' rest
      end
  end.

(** [streamFile(ctx, offset, path, limit, fs, framer, eofCancelCh)]. *)
Definition streamFile (offset : Z) (path : string) (limit : Z)
    (readAt : Z -> res handle) (inputs : list tailerInput) : res tailerPass :=
  match readAt offset with
  | fail err => fail err
  | ok file => ok (streamFile_loop path limit (streamFile_open offset limit file) inputs)
  end.

(** ** The log stream driver *)

(** The [eofCancelCh] argument of [streamFile]: a channel closed before the
    call, the channel [blockUntilNextLog] returns for a log index, or nil. *)
Inductive eofCancel : Type :=
| ClosedChan
| NextLogChan (nextIndex : Z)
| NilChan.

(** A call [streamFile(ctx, offset, path, limit, fs, framer, eofCancelCh)]. *)
Record streamCall : Type := {
  c_offset : Z;
  c_path : string;
  c_limit : Z;
  c_eofCancel : eofCancel;
}.

(** [filepath.Join(allocdir.SharedAllocName, allocdir.LogDirName)]. *)
Definition logPath : string := "alloc/logs".

(** [filepath.Join(logPath, name)] for a file name. *)
Definition joinLogPath (name : string) : string := (logPath ++ "/" ++ name)%string.

(** The local variables of [logsImpl] that survive a pass of the segment
    loop. *)
Record driver : Type := {
  nextIdx : Z;
  offset : Z;
}.

(** What the collaborators answer during one pass of the segment loop:
    [fs.List(logPath)], the value [streamFile] returns, whether [ctx.Done()]
    is readable after it, and whether [framer.ExitCh()] is. *)
Record segmentEnv : Type := {
  fs_List : res (list AllocFileInfo);
  streamFile_result : option error;
  ctx_done : bool;
  framer_exited : bool;
}.

(** The three-way decision taken before a segment is tailed. *)
Inductive policy : Type :=
| Stop
| TailToEOF
| TailUntilNext (nextIndex : Z).

Definition terminalPolicy (follow : bool) (idx maxIndex : Z) : policy :=
  if negb follow && (idx >? maxIndex) then Stop
  else if negb follow && (idx =? maxIndex) then TailToEOF
  else TailUntilNext (Int64.add idx 1).

(** How a pass of the segment loop ends: [logsImpl] returns, the loop is
    re-entered with the same variables (the file was rotated away), or it is
    re-entered after the segment with index [idx] was streamed. *)
Inductive segmentPass : Type :=
| Return (err : option error) (streamed : option (Z * streamCall))
| Retry (idx : Z) (call : streamCall)
| Advance (idx : Z) (call : streamCall) (d : driver).

(** [maxIndex]: [math.MaxInt64], replaced when not following by the index
    [findClosest(entries, maxIndex, 0, task, logType)] returns. *)
Definition logsImpl_maxIndex (follow : bool) (entries : list AllocFileInfo)
    (task logType : string) : outcome (res Z) :=
  let maxIndex := Int64.max_int64 in
  if negb follow then
    match findClosest entries maxIndex 0 task logType with
    | Returns (ok (_, idx, _)) => Returns (ok idx)
    | Returns (fail err) => Returns (fail err)
    | Panics => Panics
    | OutOfFuel => OutOfFuel
    end
  else Returns (ok maxIndex).

(** The rest of a pass, once both calls of [findClosest] have returned:
    the decision on [idx] and [maxIndex], the call of [streamFile] on
    [logEntry] at [openOffset], and what is done with its result. *)
Definition logsImpl_segment (follow : bool) (env : segmentEnv)
    (logEntry : AllocFileInfo) (idx openOffset maxIndex : Z) : segmentPass :=
  match terminalPolicy follow idx maxIndex with
  | Stop => Return None None
  | pol =>
      let exitAfter := match pol with TailToEOF => true | _ => false end in
      let p := joinLogPath (Name logEntry) in
      let call :=
        {| c_offset := openOffset; c_path := p; c_limit := 0;
           c_eofCancel := match pol with
                          | TailUntilNext n => NextLogChan n
                          | _ => ClosedChan
                          end |} in
      if ctx_done env then Return None (Some (idx, call))
      else
        match streamFile_result env with
        | Some err =>
            if IsNotExist err then Retry idx call
            else if error_eqb err EPIPE then Return None (Some (idx, call))
            else
              Return
                (Some (Errorf ("failed to stream " ++ Strings.quote p
                               ++ ": " ++ Error err)%string))
                (Some (idx, call))
        | None =>
            if exitAfter then Return None (Some (idx, call))
            else if framer_exited env then Return None (Some (idx, call))
            else Advance idx call {| nextIdx := Int64.add idx 1; offset := 0 |}
        end
  end.

(** One pass of the segment loop, from [fs.List] on. *)
Definition logsImpl_pass (follow : bool) (task logType : string) (d : driver)
    (env : segmentEnv) : outcome segmentPass :=
  match fs_List env with
  | fail err =>
      Returns (Return (Some (Errorf ("failed to list entries: " ++ Error err)%string)) None)
  | ok entries =>
      match logsImpl_maxIndex follow entries task logType with
      | Panics => Panics
      | OutOfFuel => OutOfFuel
      | Returns (fail err) => Returns (Return (Some err) None)
      | Returns (ok maxIndex) =>
          match findClosest entries (nextIdx d) (offset d) task logType with
          | Panics => Panics
          | OutOfFuel => OutOfFuel
          | Returns (fail err) => Returns (Return (Some err) None)
          | Returns (ok (logEntry, idx, openOffset)) =>
              Returns (logsImpl_segment follow env logEntry idx openOffset maxIndex)
          end
      end
  end.

(** The [switch origin] that sets up [nextIdx] and the signed offset. *)
Definition logsImpl_init (offset : Z) (origin : string) : res driver :=
  if String.eqb origin "start" then ok {| nextIdx := 0; offset := offset |}
  else if String.eqb origin "end" then
    ok {| nextIdx := Int64.max_int64; offset := Int64.mul offset (-1) |}
  else fail invalidOrigin.

(** A segment the driver handed to [streamFile]: its log index, the call,
    and the [nextIdx] the pass started from. *)
Record visit : Type := {
  v_from : Z;
  v_idx : Z;
  v_call : streamCall;
}.

(** How far [logsImpl] got on a sequence of answers: it returned, or the
    segment loop is still running when the answers run out. *)
Inductive driverEnd : Type :=
| Exited (err : option error)
| Running (d : driver).

Fixpoint logsImpl_loop (follow : bool) (task logType : string) (d : driver)
    (envs : list segmentEnv) : outcome (list visit * driverEnd) :=
  match envs with
  | [] => Returns ([], Running d)
  | env :: rest =>
      match logsImpl_pass follow task logType d env with
      | Panics => Panics
      | OutOfFuel => OutOfFuel
      | Returns (Return err None) => Returns ([], Exited err)
      | Returns (Return err (Some (idx, call))) =>
          Returns ([{| v_from := nextIdx d; v_idx := idx; v_call := call |}], Exited err)
      | Returns (Retry idx call) =>
          match logsImpl_loop follow task logType d rest with
          | Returns (vs, e) =>
              Returns ({| v_from := nextIdx d; v_idx := idx; v_call := call |} :: vs, e)
          | o => o
          end
      | Returns (Advance idx call d') =>
          match logsImpl_loop follow task logType d' rest with
          | Returns (vs, e) =>
              Returns ({| v_from := nextIdx d; v_idx := idx; v_call := call |} :: vs, e)
          | o => o
          end
      end
  end.

(** [logsImpl(ctx, follow, plain, offset, origin, task, logType, fs, frames)]
    on the answers of successive passes of the segment loop. *)
Definition logsImpl (follow : bool) (offset : Z) (origin task logType : string)
    (envs : list segmentEnv) : outcome (list visit * driverEnd) :=
  match logsImpl_init offset origin with
  | fail err => Returns ([], Exited (Some err))
  | ok d => logsImpl_loop follow task logType d envs
  end.

(** ** The streaming handlers, up to the point where streaming starts *)

Inductive capability : Type :=
| NamespaceCapabilityReadFS
| NamespaceCapabilityReadLogs.

(** [*acl.ACL], by the one method the endpoints call. *)
Record ACL : Type := {
  AllowNsOp : string -> capability -> bool;
}.

(** [cstructs.FsStreamRequest], with the embedded [QueryOptions] fields the
    handler reads. *)
Record FsStreamRequest : Type := {
  sr_AllocID : string;
  sr_Path : string;
  sr_Offset : Z;
  sr_Origin : string;
  sr_Limit : Z;
  sr_Follow : bool;
  sr_PlainText : bool;
  sr_AuthToken : string;
  sr_Namespace : string;
}.

(** [cstructs.FsLogsRequest]. *)
Record FsLogsRequest : Type := {
  lr_AllocID : string;
  lr_Task : string;
  lr_LogType : string;
  lr_Offset : Z;
  lr_Origin : string;
  lr_Follow : bool;
  lr_PlainText : bool;
  lr_AuthToken : string;
  lr_Namespace : string;
}.

(** The allocation as [logs] looks at it: whether its task group is found,
    which tasks the group has, and for each task whether it has a state and
    whether that state's [StartedAt] is non-zero. *)
Record allocation : Type := {
  TaskGroup : string;
  hasTaskGroup : bool;
  LookupTask : string -> bool;
  TaskStates : string -> option bool;
}.

(** What the client answers to a handler. *)
Record client : Type := {
  ResolveToken : string -> res (option ACL);
  GetAllocFS : string -> res (string -> res AllocFileInfo);
  GetClientAlloc : string -> res allocation;
  IsErrUnknownAllocation : error -> bool;
}.

(** How a handler's prologue ends: [handleStreamResultError(err, code,
    encoder)] followed by [return], or the start of streaming. *)
Inductive prologue (A : Type) : Type :=
| Rejected (err : error) (code : option Z)
| Started (a : A).

Arguments Rejected {A} err code.
Arguments Started {A} a.

(** [handleStreamResultError] writes the error to the peer unless the
    connection is the cause. *)
Definition transmitted (err : error) : bool :=
  negb (error_eqb err EOF || Strings.Contains (Error err) "closed").

Definition allocFSCode (c : client) (err : error) : option Z :=
  if IsErrUnknownAllocation c err then Some 404 else Some 500.

(** [stream]: the call of [streamFile] it ends in. *)
Definition stream (c : client) (decoded : res FsStreamRequest) : prologue streamCall :=
  match decoded with
  | fail err => Rejected err (Some 500)
  | ok req =>
      match ResolveToken c (sr_AuthToken req) with
      | fail err => Rejected err None
      | ok aclObj =>
          if match aclObj with
             | Some a => negb (AllowNsOp a (sr_Namespace req) NamespaceCapabilityReadFS)
             | None => false
             end
          then Rejected ErrPermissionDenied None
          else if String.eqb (sr_AllocID req) "" then Rejected allocIDNotPresentErr (Some 400)
          else if String.eqb (sr_Path req) "" then Rejected pathNotPresentErr (Some 400)
          else
            match (if String.eqb (sr_Origin req) "start" || String.eqb (sr_Origin req) "end"
                   then Some (sr_Origin req)
                   else if String.eqb (sr_Origin req) "" then Some "start"
                   else None) with
            | None => Rejected invalidOrigin (Some 400)
            | Some origin =>
                match GetAllocFS c (sr_AllocID req) with
                | fail err => Rejected err (allocFSCode c err)
                | ok Stat =>
                    match Stat (sr_Path req) with
                    | fail err => Rejected err (Some 400)
                    | ok fileInfo =>
                        if IsDir fileInfo then
                          Rejected (Errorf ("file " ++ Strings.quote (sr_Path req)
                                            ++ " is a directory")%string) (Some 400)
                        else
                          let offset :=
                            if String.eqb origin "end" then
                              let o := Int64.sub (Size fileInfo) (sr_Offset req) in
                              if o <? 0 then 0 else o
                            else sr_Offset req in
                          Started
                            {| c_offset := offset; c_path := sr_Path req;
                               c_limit := sr_Limit req;
                               c_eofCancel := if negb (sr_Follow req) then ClosedChan
                                              else NilChan |}
                    end
                end
            end
      end
  end.

(** The arguments [logs] passes to [logsImpl]. *)
Record logsCall : Type := {
  lc_follow : bool;
  lc_plain : bool;
  lc_offset : Z;
  lc_origin : string;
  lc_task : string;
  lc_logType : string;
}.

(** [logs]: the call of [logsImpl] it ends in. *)
Definition logs (c : client) (decoded : res FsLogsRequest) : prologue logsCall :=
  match decoded with
  | fail err => Rejected err (Some 500)
  | ok req =>
      match ResolveToken c (lr_AuthToken req) with
      | fail err => Rejected err None
      | ok aclObj =>
          if match aclObj with
             | Some a =>
                 let readfs := AllowNsOp a (lr_Namespace req) NamespaceCapabilityReadFS in
                 let logs := AllowNsOp a (lr_Namespace req) NamespaceCapabilityReadLogs in
                 negb readfs && negb logs
             | None => false
             end
          then Rejected ErrPermissionDenied None
          else if String.eqb (lr_AllocID req) "" then Rejected allocIDNotPresentErr (Some 400)
          else if String.eqb (lr_Task req) "" then Rejected taskNotPresentErr (Some 400)
          else if negb (String.eqb (lr_LogType req) "stdout"
                        || String.eqb (lr_LogType req) "stderr")
          then Rejected logTypeNotPresentErr (Some 400)
          else
            match (if String.eqb (lr_Origin req) "start" || String.eqb (lr_Origin req) "end"
                   then Some (lr_Origin req)
                   else if String.eqb (lr_Origin req) "" then Some "start"
                   else None) with
            | None => Rejected invalidOrigin (Some 400)
            | Some origin =>
                match GetAllocFS c (lr_AllocID req) with
                | fail err => Rejected err (allocFSCode c err)
                | ok _ =>
                    match GetClientAlloc c (lr_AllocID req) with
                    | fail err => Rejected err (allocFSCode c err)
                    | ok alloc =>
                        if negb (hasTaskGroup alloc) then
                          Rejected (Errorf "Failed to lookup task group for allocation")
                                   (Some 500)
                        else if negb (LookupTask alloc (lr_Task req)) then
                          Rejected
                            (Errorf ("task group " ++ Strings.quote (TaskGroup alloc)
                                     ++ " does not have task with name "
                                     ++ Strings.quote (lr_Task req))%string)
                            (Some 400)
                        else
                          match TaskStates alloc (lr_Task req) with
                          | Some true =>
                              Started
                                {| lc_follow := lr_Follow req; lc_plain := lr_PlainText req;
                                   lc_offset := lr_Offset req; lc_origin := origin;
                                   lc_task := lr_Task req; lc_logType := lr_LogType req |}
                          | _ =>
                              Rejected
                                (Errorf ("task " ++ Strings.quote (lr_Task req)
                                         ++ " not started yet. No logs available")%string)
                                (Some 404)
                          end
                    end
                end
            end
      end
  end.

(** ** Waiting for the next log segment *)

(** The loop [for _, entry := range indexes] of [blockUntilNextLog]: is
    there an entry whose index is at least [nextIndex]? *)
Fixpoint anyAtLeast (indexes : list indexTuple) (nextIndex : Z) : bool :=
  match indexes with
  | [] => false
  | entry :: rest => if idx entry >=? nextIndex then true else anyAtLeast rest nextIndex
  end.

(** One tick of the scan of [blockUntilNextLog], given what [fs.List(logPath)]
    answers: [Some v] when [v] is sent on the channel and the worker ends,
    [None] when the worker waits for the next tick. *)
Definition blockUntilNextLog_scan (listing : res (list AllocFileInfo))
    (task logType : string) (nextIndex : Z) : option (option error) :=
  match listing with
  | fail err => Some (Some (Errorf ("failed to list entries: " ++ Error err)%string))
  | ok entries =>
      match logIndexes entries task logType with
      | fail err => Some (Some err)
      | ok indexes => if anyAtLeast indexes nextIndex then Some None else None
      end
  end.

(** ** The non-streaming file-system endpoints *)

Module FS.

(** [allocdir.AllocDirFS], by the two methods [List] and [Stat] call. *)
Record AllocDirFS : Type := {
  fs_List : string -> res (list AllocFileInfo);
  fs_Stat : string -> res AllocFileInfo;
}.

(** What the client answers to [List] and [Stat]. *)
Record node : Type := {
  ResolveToken : string -> res (option ACL);
  GetAllocFS : string -> res AllocDirFS;
}.

(** [cstructs.FsListRequest] and [cstructs.FsStatRequest] have the same
    fields. *)
Record request : Type := {
  AllocID : string;
  Path : string;
  AuthToken : string;
  Namespace : string;
}.

(** [FileSystem.List]: the error returned, or [reply.Files]. *)
Definition List (c : node) (args : request) : res (list AllocFileInfo) :=
  match ResolveToken c (AuthToken args) with
  | fail err => fail err
  | ok aclObj =>
      if match aclObj with
         | Some a => negb (AllowNsOp a (Namespace args) NamespaceCapabilityReadFS)
         | None => false
         end
      then fail ErrPermissionDenied
      else
        match GetAllocFS c (AllocID args) with
        | fail err => fail err
        | ok fs =>
            match fs_List fs (Path args) with
            | fail err => fail err
            | ok files => ok files
            end
        end
  end.

(** [FileSystem.Stat]: the error returned, or [reply.Info]. *)
Definition Stat (c : node) (args : request) : res AllocFileInfo :=
  match ResolveToken c (AuthToken args) with
  | fail err => fail err
  | ok aclObj =>
      if match aclObj with
         | Some a => negb (AllowNsOp a (Namespace args) NamespaceCapabilityReadFS)
         | None => false
         end
      then fail ErrPermissionDenied
      else
        match GetAllocFS c (AllocID args) with
        | fail err => fail err
        | ok fs =>
            match fs_Stat fs (Path args) with
            | fail err => fail err
            | ok info => ok info
            end
        end
  end.

End FS.

(** ** The resources endpoint ([nomad/resources_endpoint.go]) *)

Module Resources.

(** What a [memdb.ResultIterator] yields: one of the four structs
    [getMatches] knows, by its [ID], or a value of another type. *)
Inductive object : Type :=
| Job (ID : string)
| Evaluation (ID : string)
| Allocation (ID : string)
| Node (ID : string)
| Other.

(** The closure [getID] of [getMatches]. *)
Definition getID (i : object) : string :=
  match i with
  | Job ID => ID
  | Evaluation ID => ID
  | Allocation ID => ID
  | Node ID => ID
  | Other => ""
  end.

(** A [memdb.ResultIterator] is the list of objects it has still to yield;
    [Next] hands out the first, or nil at the end, and stays at the end. *)
Definition Next (iter : list object) : option object * list object :=
  match iter with
  | [] => (None, [])
  | raw :: rest => (Some raw, rest)
  end.

(** The loop [for i := 0; i < 20; i++] of [getMatches], with [n] passes
    still to run. *)
Fixpoint getMatches_loop (n : nat) (iter : list object) (matches : list string)
    : list string * list object :=
  match n with
  | O => (matches, iter)
  | S n' =>
      match Next iter with
      | (None, iter') => (matches, iter')
      | (Some raw, iter') =>
          let id := getID raw in
          if String.eqb id "" then getMatches_loop n' iter' matches
          else getMatches_loop n' iter' (matches ++ [id])
      end
  end.

Definition getMatches (iter : list object) (context prefix : string) : list string * bool :=
  let '(matches, iter') := getMatches_loop 20 iter [] in
  let isTruncated := match fst (Next iter') with Some _ => true | None => false end in
  (matches, isTruncated).

(** [state.StateStore], by the lookups the endpoint makes. *)
Record StateStore : Type := {
  JobsByIDPrefix : string -> res (list object);
  EvalsByIDPrefix : string -> res (list object);
  AllocsByIDPrefix : string -> res (list object);
  NodesByIDPrefix : string -> res (list object);
  Index : string -> res Z;
}.

(** [structs.ResourcesRequest]. *)
Record ResourcesRequest : Type := {
  Context : string;
  Prefix : string;
}.

(** [structs.ResourcesResponse]: the two maps, as lookups, and the index of
    the embedded [QueryMeta]. *)
Record ResourcesResponse : Type := {
  Matches : string -> option (list string);
  Truncations : string -> option bool;
  ReplyIndex : Z;
}.

(** [m[k] = v] on a Go map. *)
Definition put {V : Type} (m : string -> option V) (k : string) (v : V)
    : string -> option V :=
  fun k' => if String.eqb k' k then Some v else m k'.

(** The closure [run] of [Resources.List], on the reply [List] has just
    set up with two empty maps: the reply it leaves and the error it
    returns. *)
Definition List_run (args : ResourcesRequest) (state : StateStore)
    : ResourcesResponse * option error :=
  let reply := {| Matches := fun _ => None; Truncations := fun _ => None; ReplyIndex := 0 |} in
  match (if String.eqb (Context args) "job" then Some (JobsByIDPrefix state (Prefix args))
         else if String.eqb (Context args) "eval" then Some (EvalsByIDPrefix state (Prefix args))
         else if String.eqb (Context args) "alloc" then Some (AllocsByIDPrefix state (Prefix args))
         else if String.eqb (Context args) "node" then Some (NodesByIDPrefix state (Prefix args))
         else None) with
  | None => (reply, Some (Errorf "invalid context"))
  | Some (fail err) => (reply, Some err)
  | Some (ok iter) =>
      let '(res, isTrunc) := getMatches iter (Context args) (Prefix args) in
      let reply :=
        {| Matches := put (Matches reply) (Context args) res;
           Truncations := put (Truncations reply) (Context args) isTrunc;
           ReplyIndex := ReplyIndex reply |} in
      match Index state (Context args) with
      | fail err => (reply, Some err)
      | ok index =>
          ({| Matches := Matches reply; Truncations := Truncations reply;
              ReplyIndex := index |}, None)
      end
  end.

End Resources.

(** * Vocabulary of the statements *)

(** [s] is a decimal integer with an optional sign and value [v]: what
    [strconv.Atoi] accepts, before its range check. *)
Definition signedDecimal (s : string) (v : Z) : Prop :=
  exists body n,
    body <> EmptyString /\ Strconv.digits body 0 = Some n /\ 0 <= n /\
    ((s = body /\ v = n) \/
     (s = String "+"%char body /\ v = n) \/
     (s = String "-"%char body /\ v = - n)).

(** Every segment has a size a file can have. *)
Definition wellSized (a : list indexTuple) : Prop :=
  Forall (fun t => 0 <= Size (entry t) <= Int64.max_int64) a.

(** The bytes held by all segments together. *)
Definition totalSize (a : list indexTuple) : Z :=
  fold_right (fun t acc => Size (entry t) + acc) 0 a.

(** The bytes held by the first [k] segments. *)
Definition prefixSize (a : list indexTuple) (k : Z) : Z :=
  totalSize (firstn (Z.to_nat k) a).

(** A slice in the order [sort.Sort] leaves it in. *)
Definition ordered (a : list indexTuple) : Prop :=
  forall i j ti tj,
    index a i = Some ti -> index a j = Some tj -> i <= j -> idx ti <= idx tj.

(** The position the walk of [findClosest] starts from in a sorted slice:
    the first one whose index is at least [d], or the last one when no
    index is. *)
Definition startsAt (a : list indexTuple) (d p : Z) : Prop :=
  0 <= p < len a /\
  (forall q t, index a q = Some t -> q < p -> idx t < d) /\
  ((exists t, index a p = Some t /\ d <= idx t) \/
   (p = len a - 1 /\ forall t, In t a -> idx t < d)).

(** The walk of a pass of the segment loop does not go backward: the
    signed offset is zero, as after every completed pass, or positive over
    segments with sizes a file can have. *)
Definition walksForward (d : driver) (indexes : list indexTuple) : Prop :=
  offset d = 0 \/ (0 < offset d /\ Int64.in_range (offset d) /\ wellSized indexes).

(** The payload bytes given to the framer so far. *)
Definition delivered (st : tailer) : Z :=
  fold_right (fun fr acc => f_size fr + acc) 0 (t_sent st).

(** The contract of [io.Reader] for the underlying file: a read into a
    buffer of [k] bytes returns between 0 and [k] bytes. *)
Definition readsWithin (inp : tailerInput) : Prop :=
  forall k, 0 <= k -> 0 <= fst (in_read inp k) <= k.

(** With a positive limit the reader is an [io.LimitedReader] that still
    allows what the limit leaves after the bytes delivered. *)
Definition limited (limit : Z) (st : tailer) : Prop :=
  exists h N, t_reader st = LimitedReader h N /\ 0 <= N <= limit /\ N + delivered st = limit.

(** The variables of [streamFile] when a pass that read [n] bytes up to EOF
    enters the [select]: frame sent if due, event cleared, watcher set up. *)
Definition atSelect (path : string) (st : tailer) (n : Z) (reader : fileReader) : tailer :=
  {| t_offset := Int64.add (t_offset st) n; t_file := t_file st;
     t_openedAt := t_openedAt st; t_reader := reader; t_lastEvent := "";
     t_changes := true; t_closed := t_closed st;
     t_sent := if negb (n =? 0) || negb (String.eqb (t_lastEvent st) "")
               then t_sent st ++ [{| f_path := path; f_event := t_lastEvent st;
                                     f_size := n;
                                     f_offset := Int64.add (t_offset st) n |}]
               else t_sent st |}.

(** [t] comes from a non-directory entry of the listing named
    [<task>.<logType>.<suffix>] whose suffix [strconv.Atoi] reads as [idx t]. *)
Definition parsedFrom (entries : list AllocFileInfo) (task logType : string)
    (t : indexTuple) : Prop :=
  In (entry t) entries /\ IsDir (entry t) = false /\
  exists suffix,
    Name (entry t) = (logPrefix task logType ++ suffix)%string /\
    Strconv.Atoi suffix = ok (idx t) /\
    signedDecimal suffix (idx t) /\ Int64.in_range (idx t).

(** A log segment of the listing: a regular file with a name and a size. *)
Definition segment (name : string) (size : Z) : AllocFileInfo :=
  {| Name := name; IsDir := false; Size := size |}.

(** The entries [logIndexes] keeps: regular files named with the prefix. *)
Definition matchesLog (prefix : string) (e : AllocFileInfo) : bool :=
  negb (IsDir e) && Strings.HasPrefix (Name e) prefix.

(** The error [findClosest] returns when no entry matches. *)
Definition notFoundErr (task logType : string) : error :=
  Errorf ("log entry for task " ++ Strings.quote task ++ " and log type "
          ++ Strings.quote logType ++ " not found")%string.

(** The call of [streamFile] a pass of the segment loop made, if any, with
    the index of the segment. *)
Definition passCall (p : segmentPass) : option (Z * streamCall) :=
  match p with
  | Return _ streamed => streamed
  | Retry i call => Some (i, call)
  | Advance i call _ => Some (i, call)
  end.

(** [call] reads, without limit, a regular file of [entries] that is a log
    segment of [(task, logType)] with index [i]. *)
Definition readsSegment (entries : list AllocFileInfo) (task logType : string)
    (i : Z) (call : streamCall) : Prop :=
  exists e suffix,
    In e entries /\ IsDir e = false /\
    Name e = (logPrefix task logType ++ suffix)%string /\
    Strconv.Atoi suffix = ok i /\
    c_path call = joinLogPath (Name e) /\ c_limit call = 0.

(** The visit [v] is the call of [streamFile] made by a pass of the segment
    loop that was answered [env], and the file handed over is a log segment
    of the listing in [env]. *)
Definition onListing (follow : bool) (task logType : string) (v : visit)
    (env : segmentEnv) : Prop :=
  (exists d p,
      nextIdx d = v_from v /\
      logsImpl_pass follow task logType d env = Returns p /\
      passCall p = Some (v_idx v, v_call v)) /\
  exists entries,
    fs_List env = ok entries /\
    readsSegment entries task logType (v_idx v) (v_call v).

(** The IDs [getMatches] keeps of the objects it looks at: the non-empty
    ones. *)
Definition keptIDs (objects : list Resources.object) : list string :=
  filter (fun id => negb (String.eqb id "")) (map Resources.getID objects).

(** A client for [List] and [Stat] that resolves every token to [aclObj]
    and serves one empty directory. *)
Definition fsNode (aclObj : option ACL) : FS.node :=
  {| FS.ResolveToken := fun _ => ok aclObj;
     FS.GetAllocFS := fun _ =>
       ok {| FS.fs_List := fun _ => ok [];
             FS.fs_Stat := fun path => ok {| Name := path; IsDir := true; Size := 0 |} |} |}.

(** A state store with three jobs whose IDs start with any prefix, and
    nothing else. *)
Definition threeJobs : Resources.StateStore :=
  {| Resources.JobsByIDPrefix := fun _ =>
       ok [Resources.Job "web"; Resources.Job ""; Resources.Job "web-2"];
     Resources.EvalsByIDPrefix := fun _ => ok [];
     Resources.AllocsByIDPrefix := fun _ => ok [];
     Resources.NodesByIDPrefix := fun _ => ok [];
     Resources.Index := fun _ => ok 7 |}.

(** The offsets of successive frames follow one another: each frame's
    offset is the offset before it plus its payload, the count restarting
    from zero at a frame tagged "file truncated". *)
Fixpoint chained (prev : Z) (frames : list frame) : Prop :=
  match frames with
  | [] => True
  | fr :: rest =>
      f_offset fr
      = Int64.add (if String.eqb (f_event fr) truncateEvent then 0 else prev) (f_size fr) /\
      chained (f_offset fr) rest
  end.

(** The offset of the last frame, or [prev] when there is none. *)
Fixpoint endOffset (prev : Z) (frames : list frame) : Z :=
  match frames with
  | [] => prev
  | fr :: rest => endOffset (f_offset fr) rest
  end.

(** The tailer's offset agrees with the frames it has sent: it is the
    offset of the last frame, or zero while a truncation is pending. *)
Definition inStep (start : Z) (st : tailer) : Prop :=
  chained start (t_sent st) /\ Int64.in_range (t_offset st) /\
  ((t_lastEvent st = "" /\ t_offset st = endOffset start (t_sent st)) \/
   (t_lastEvent st = truncateEvent /\ t_offset st = 0)).

(** A pass of the segment loop over a directory that lists [entries], in
    which [streamFile] runs to the end of the segment and returns nil. *)
Definition quiet (entries : list AllocFileInfo) : segmentEnv :=
  {| fs_List := ok entries; streamFile_result := None; ctx_done := false;
     framer_exited := false |}.

(** Each number is below the next. *)
Fixpoint ascending (l : list Z) : Prop :=
  match l with
  | [] => True
  | x :: rest =>
      match rest with
      | [] => True
      | y :: _ => x < y /\ ascending rest
      end
  end.

(** How many segments have an index of at least [k]. *)
Definition countAtLeast (a : list indexTuple) (k : Z) : nat :=
  List.length (filter (fun u => idx u >=? k) a).

(** ** Scenarios *)

(** A pass of the tailer in which the file yields up to four bytes and no
    error. *)
Definition readsFour : tailerInput :=
  {| in_read := fun k => (Z.min 4 k, None); in_send := None; in_watch := None;
     in_select := Modified |}.

(** A pass of the tailer that reads nothing, is at EOF, and sees the file
    truncated; closing succeeds and the file reopens as handle 2. *)
Definition seesTruncation : tailerInput :=
  {| in_read := fun _ => (0, Some EOF); in_send := None; in_watch := None;
     in_select := Truncated None (fun _ => ok 2%nat) |}.

(** An ACL that grants [read-logs] and nothing else. *)
Definition logsOnly : ACL :=
  {| AllowNsOp := fun _ c =>
                    match c with
                    | NamespaceCapabilityReadLogs => true
                    | NamespaceCapabilityReadFS => false
                    end |}.

(** A client that resolves every token to [aclObj], knows every allocation,
    stats every path as a regular file of [size] bytes, and runs one task
    group whose tasks have all started. *)
Definition openClient (aclObj : option ACL) (size : Z) : client :=
  {| ResolveToken := fun _ => ok aclObj;
     GetAllocFS := fun _ => ok (fun path => ok (segment path size));
     GetClientAlloc := fun _ =>
       ok {| TaskGroup := "web"; hasTaskGroup := true; LookupTask := fun _ => true;
             TaskStates := fun _ => Some true |};
     IsErrUnknownAllocation := fun _ => false |}.

Definition streamRequest (offset : Z) (origin : string) : FsStreamRequest :=
  {| sr_AllocID := "a1"; sr_Path := "alloc/logs/web.stdout.0"; sr_Offset := offset;
     sr_Origin := origin; sr_Limit := 0; sr_Follow := false; sr_PlainText := true;
     sr_AuthToken := "token"; sr_Namespace := "default" |}.

Definition logsRequest : FsLogsRequest :=
  {| lr_AllocID := "a1"; lr_Task := "web"; lr_LogType := "stdout"; lr_Offset := 0;
     lr_Origin := "start"; lr_Follow := false; lr_PlainText := true;
     lr_AuthToken := "token"; lr_Namespace := "default" |}.

(** * Properties *)

Unset Implicit Arguments.

(** ** Arithmetic on [int64] *)

Lemma wrap_in_range (z : Z) : Int64.in_range z -> Int64.wrap z = z.
Proof.
  unfold Int64.in_range, Int64.wrap, Int64.min_int64, Int64.max_int64.
  change (2 ^ 63) with 9223372036854775808.
  change (2 ^ 64) with 18446744073709551616.
  intros H. rewrite Z.mod_small; lia.
Qed.

Lemma wrap_range (z : Z) : Int64.in_range (Int64.wrap z).
Proof.
  unfold Int64.in_range, Int64.wrap, Int64.min_int64, Int64.max_int64.
  change (2 ^ 63) with 9223372036854775808.
  change (2 ^ 64) with 18446744073709551616.
  pose proof (Z.mod_pos_bound (z + 9223372036854775808) 18446744073709551616).
  lia.
Qed.

Lemma in_rangeb_spec (z : Z) : Int64.in_rangeb z = true <-> Int64.in_range z.
Proof.
  unfold Int64.in_rangeb, Int64.in_range.
  rewrite andb_true_iff, !Z.leb_le. tauto.
Qed.

Lemma max_int64_value : Int64.max_int64 = 9223372036854775807.
Proof. reflexivity. Qed.

Lemma min_int64_value : Int64.min_int64 = -9223372036854775808.
Proof. reflexivity. Qed.

(** ** Strings *)

Lemma HasPrefix_app (p s : string) : Strings.HasPrefix (p ++ s) p = true.
Proof.
  induction p as [|c p IH]; simpl; [reflexivity|].
  now rewrite Ascii.eqb_refl, IH.
Qed.

Lemma drop_app (p s : string) : Strings.drop (String.length p) (p ++ s) = s.
Proof. induction p as [|c p IH]; simpl; auto. Qed.

Lemma HasPrefix_split (p s : string) :
  Strings.HasPrefix s p = true -> s = (p ++ Strings.drop (String.length p) s)%string.
Proof.
  revert s. induction p as [|c p IH]; intros s H; simpl in *; [reflexivity|].
  destruct s as [|d s]; [discriminate|].
  apply andb_true_iff in H as [Hc Hp].
  apply Ascii.eqb_eq in Hc. subst d. f_equal. now apply IH.
Qed.

Lemma length_app (p s : string) :
  String.length (p ++ s) = (String.length p + String.length s)%nat.
Proof. induction p as [|c p IH]; simpl; auto. Qed.

Lemma app_neq_suffix (p s : string) : p <> EmptyString -> (p ++ s)%string <> s.
Proof.
  intros Hp H. apply (f_equal String.length) in H. rewrite length_app in H.
  destruct p; [congruence | simpl in H; lia].
Qed.

Lemma TrimPrefix_app (p s : string) : Strings.TrimPrefix (p ++ s) p = s.
Proof. unfold Strings.TrimPrefix. now rewrite HasPrefix_app, drop_app. Qed.

Lemma TrimPrefix_changed (p s : string) :
  Strings.TrimPrefix s p <> s ->
  s = (p ++ Strings.TrimPrefix s p)%string.
Proof.
  unfold Strings.TrimPrefix. destruct (Strings.HasPrefix s p) eqn:H; [|congruence].
  intros _. now apply HasPrefix_split.
Qed.

Lemma logPrefix_nonempty (task logType : string) : logPrefix task logType <> EmptyString.
Proof.
  unfold logPrefix. intros H. apply (f_equal String.length) in H.
  rewrite !length_app in H. simpl in H. lia.
Qed.

(** ** [strconv.Atoi] *)

Lemma digits_lower (s : string) :
  forall acc n, 0 <= acc -> Strconv.digits s acc = Some n -> acc <= n.
Proof.
  induction s as [|c s IH]; simpl; intros acc n Hacc H.
  - injection H as <-. lia.
  - unfold Strconv.digit in H.
    destruct ((48 <=? Z.of_N (N_of_ascii c)) && (Z.of_N (N_of_ascii c) <=? 57)) eqn:Hd;
      [|discriminate].
    apply andb_true_iff in Hd as [H1 H2]. apply Z.leb_le in H1, H2.
    apply IH in H; lia.
Qed.

Lemma digit_not_sign (c : ascii) (d : Z) :
  Strconv.digit c = Some d -> Ascii.eqb c "-"%char = false /\ Ascii.eqb c "+"%char = false.
Proof.
  intros H. split.
  - destruct (Ascii.eqb c "-"%char) eqn:E; [|reflexivity].
    apply Ascii.eqb_eq in E. subst c. discriminate.
  - destruct (Ascii.eqb c "+"%char) eqn:E; [|reflexivity].
    apply Ascii.eqb_eq in E. subst c. discriminate.
Qed.

Lemma Atoi_ok (s : string) (v : Z) :
  Strconv.Atoi s = ok v -> signedDecimal s v /\ Int64.in_range v.
Proof.
  unfold Strconv.Atoi. destruct s as [|c rest]; [discriminate|].
  destruct (Ascii.eqb c "-"%char) eqn:Hneg; simpl.
  - apply Ascii.eqb_eq in Hneg. subst c.
    destruct rest as [|c' rest']; [discriminate|].
    destruct (Strconv.overflows (String c' rest') 0); [discriminate|].
    destruct (Strconv.digits (String c' rest') 0) as [n|] eqn:Hd; [|discriminate].
    destruct (Int64.in_rangeb (- n)) eqn:Hr; [|discriminate].
    intros H. injection H as <-. split; [|now apply in_rangeb_spec].
    exists (String c' rest'), n. repeat split; try congruence.
    + apply digits_lower in Hd; lia.
    + right. right. split; reflexivity.
  - destruct (Ascii.eqb c "+"%char) eqn:Hpos.
    + apply Ascii.eqb_eq in Hpos. subst c.
      destruct rest as [|c' rest']; [discriminate|].
      destruct (Strconv.overflows (String c' rest') 0); [discriminate|].
    destruct (Strconv.digits (String c' rest') 0) as [n|] eqn:Hd; [|discriminate].
      destruct (Int64.in_rangeb n) eqn:Hr; [|discriminate].
      intros H. injection H as <-. split; [|now apply in_rangeb_spec].
      exists (String c' rest'), n. repeat split; try congruence.
      * apply digits_lower in Hd; lia.
      * right. left. split; reflexivity.
    + destruct (Strconv.overflows (String c rest) 0); [discriminate|].
      destruct (Strconv.digits (String c rest) 0) as [n|] eqn:Hd; [|discriminate].
      destruct (Int64.in_rangeb n) eqn:Hr; [|discriminate].
      intros H. injection H as <-. split; [|now apply in_rangeb_spec].
      exists (String c rest), n. repeat split; try congruence.
      * apply digits_lower in Hd; lia.
      * left. split; reflexivity.
Qed.

(** An unsigned run of digits is read as a non-negative index. *)
Lemma Atoi_unsigned_nonneg (s : string) (n v : Z) :
  Strconv.digits s 0 = Some n -> Strconv.Atoi s = ok v -> v = n /\ 0 <= v.
Proof.
  intros Hd. unfold Strconv.Atoi. destruct s as [|c rest]; [discriminate|].
  assert (Hs : Ascii.eqb c "-"%char = false /\ Ascii.eqb c "+"%char = false).
  { simpl in Hd. destruct (Strconv.digit c) eqn:E; [|discriminate].
    eapply digit_not_sign; eauto. }
  destruct Hs as [-> ->]. simpl orb. cbv iota.
  destruct (Strconv.overflows (String c rest) 0); [discriminate|]. rewrite Hd.
  destruct (Int64.in_rangeb n); [|discriminate].
  intros H. injection H as <-. split; [reflexivity|].
  apply digits_lower in Hd; lia.
Qed.

(** ** [logIndexes] *)

Lemma logIndexes_from_ok (task logType : string) (entries : list AllocFileInfo) :
  forall acc r,
    logIndexes_from (logPrefix task logType) entries acc = ok r ->
    exists r', r = acc ++ r' /\ Forall (parsedFrom entries task logType) r'.
Proof.
  induction entries as [|e rest IH]; simpl; intros acc r H.
  - injection H as <-. exists []. split; [now rewrite app_nil_r | constructor].
  - assert (Hweak : forall r', Forall (parsedFrom rest task logType) r' ->
                               Forall (parsedFrom (e :: rest) task logType) r').
    { intros r'. apply Forall_impl. intros t (Hin & Hd & Hs).
      split; [now right | split; assumption]. }
    destruct (IsDir e) eqn:Hdir.
    { apply IH in H as (r' & -> & Hr'). exists r'. split; auto. }
    destruct (String.eqb (Strings.TrimPrefix (Name e) (logPrefix task logType)) (Name e))
      eqn:Hsame.
    { apply IH in H as (r' & -> & Hr'). exists r'. split; auto. }
    apply String.eqb_neq in Hsame.
    destruct (Strconv.Atoi (Strings.TrimPrefix (Name e) (logPrefix task logType)))
      as [i|err] eqn:Hatoi; [|discriminate].
    apply IH in H as (r' & -> & Hr').
    exists ({| idx := i; entry := e |} :: r'). split.
    + now rewrite <- app_assoc.
    + constructor; [|auto].
      split; [now left | split; [exact Hdir|]].
      exists (Strings.TrimPrefix (Name e) (logPrefix task logType)). simpl.
      split; [now apply TrimPrefix_changed|].
      split; [exact Hatoi|]. now apply Atoi_ok.
Qed.

Lemma logIndexes_ok (entries : list AllocFileInfo) (task logType : string)
    (indexes : list indexTuple) :
  logIndexes entries task logType = ok indexes ->
  Forall (parsedFrom entries task logType) indexes.
Proof.
  intros H. apply logIndexes_from_ok in H as (r' & -> & Hr'). exact Hr'.
Qed.

Lemma logIndexes_from_rejects (task logType : string) (entries : list AllocFileInfo) :
  forall acc e suffix err,
    In e entries -> IsDir e = false ->
    Name e = (logPrefix task logType ++ suffix)%string ->
    Strconv.Atoi suffix = fail err ->
    exists err', logIndexes_from (logPrefix task logType) entries acc = fail err'.
Proof.
  induction entries as [|e0 rest IH]; simpl; intros acc e suffix err Hin Hdir Hname Hatoi;
    [contradiction|].
  destruct Hin as [-> | Hin].
  - rewrite Hdir, Hname, TrimPrefix_app.
    destruct (String.eqb suffix (logPrefix task logType ++ suffix)) eqn:Hsame.
    + apply String.eqb_eq in Hsame. symmetry in Hsame.
      now apply app_neq_suffix in Hsame; [|apply logPrefix_nonempty].
    + rewrite Hatoi. eauto.
  - destruct (IsDir e0); [eapply IH; eauto|].
    destruct (String.eqb _ _); [eapply IH; eauto|].
    destruct (Strconv.Atoi (Strings.TrimPrefix (Name e0) (logPrefix task logType)));
      [eapply IH; eauto | eauto].
Qed.

(** ** Slices *)

Lemma index_Some {A : Type} (a : list A) (i : Z) (x : A) :
  index a i = Some x <-> 0 <= i < len a /\ nth_error a (Z.to_nat i) = Some x.
Proof.
  unfold index, len.
  destruct ((0 <=? i) && (i <? Z.of_nat (List.length a))) eqn:H.
  - apply andb_true_iff in H as [H1 H2]. apply Z.leb_le in H1. apply Z.ltb_lt in H2.
    tauto.
  - split; [discriminate|]. intros [[H1 H2] _].
    apply Z.leb_le in H1. apply Z.ltb_lt in H2. rewrite H1, H2 in H. discriminate.
Qed.

Lemma index_in_range {A : Type} (a : list A) (i : Z) :
  0 <= i < len a -> exists x, index a i = Some x.
Proof.
  intros H. destruct (nth_error a (Z.to_nat i)) as [x|] eqn:E.
  - exists x. apply index_Some. auto.
  - apply nth_error_None in E. unfold len in H. lia.
Qed.

Lemma index_range {A : Type} (a : list A) (i : Z) (x : A) :
  index a i = Some x -> 0 <= i < len a.
Proof. intros H. now apply index_Some in H. Qed.

Lemma index_In {A : Type} (a : list A) (i : Z) (x : A) : index a i = Some x -> In x a.
Proof. intros H. apply index_Some in H as [_ H]. eapply nth_error_In; eauto. Qed.

Lemma In_index {A : Type} (a : list A) (x : A) : In x a -> exists i, index a i = Some x.
Proof.
  intros H. apply In_nth_error in H as [n Hn]. exists (Z.of_nat n).
  apply index_Some. rewrite Nat2Z.id. split; [|exact Hn].
  assert (n < List.length a)%nat by (apply nth_error_Some; congruence).
  unfold len. lia.
Qed.

Lemma index_head {A : Type} (x : A) (a : list A) : index (x :: a) 0 = Some x.
Proof. apply index_Some. unfold len. simpl List.length. split; [lia | reflexivity]. Qed.

Lemma index_tail {A : Type} (x : A) (a : list A) (i : Z) :
  0 <= i -> index (x :: a) (i + 1) = index a i.
Proof.
  intros Hi. unfold index. simpl List.length.
  replace (Z.to_nat (i + 1)) with (S (Z.to_nat i)) by lia. simpl nth_error.
  destruct (i <? Z.of_nat (List.length a)) eqn:E.
  - apply Z.ltb_lt in E.
    replace (0 <=? i + 1) with true by (symmetry; apply Z.leb_le; lia).
    replace (0 <=? i) with true by (symmetry; apply Z.leb_le; lia).
    replace (i + 1 <? Z.of_nat (S (List.length a))) with true
      by (symmetry; apply Z.ltb_lt; lia).
    reflexivity.
  - apply Z.ltb_ge in E.
    replace (i + 1 <? Z.of_nat (S (List.length a))) with false
      by (symmetry; apply Z.ltb_ge; lia).
    now rewrite !andb_false_r.
Qed.

Lemma len_cons {A : Type} (x : A) (a : list A) : len (x :: a) = len a + 1.
Proof. unfold len. simpl List.length. lia. Qed.

Lemma len_nonneg {A : Type} (a : list A) : 0 <= len a.
Proof. unfold len. lia. Qed.

Lemma len_pos {A : Type} (a : list A) : a <> [] -> 0 < len a.
Proof.
  destruct a as [|x a]; [congruence|]. intros _.
  rewrite len_cons. pose proof (len_nonneg a). lia.
Qed.

(** ** [sort.Sort] *)

Lemma ordered_cons (t : indexTuple) (a : list indexTuple) :
  ordered (t :: a) <-> (forall u, In u a -> idx t <= idx u) /\ ordered a.
Proof.
  split.
  - intros H. split.
    + intros u Hu. apply In_index in Hu as [i Hi].
      pose proof (index_range _ _ _ Hi) as Hr.
      apply (H 0 (i + 1) t u); [apply index_head | now rewrite index_tail | lia].
    + intros i j ti tj Hi Hj Hij.
      pose proof (index_range _ _ _ Hi). pose proof (index_range _ _ _ Hj).
      apply (H (i + 1) (j + 1) ti tj); [rewrite index_tail | rewrite index_tail |]; auto; lia.
  - intros [Hmin Hord] i j ti tj Hi Hj Hij.
    pose proof (index_range _ _ _ Hi) as Hri. pose proof (index_range _ _ _ Hj) as Hrj.
    destruct (Z.eq_dec i 0) as [-> | Hi0].
    + rewrite index_head in Hi. injection Hi as <-.
      destruct (Z.eq_dec j 0) as [-> | Hj0].
      * rewrite index_head in Hj. injection Hj as <-. lia.
      * replace j with ((j - 1) + 1) in Hj by lia. rewrite index_tail in Hj by lia.
        apply Hmin. eapply index_In; eauto.
    + replace i with ((i - 1) + 1) in Hi by lia. rewrite index_tail in Hi by lia.
      replace j with ((j - 1) + 1) in Hj by lia. rewrite index_tail in Hj by lia.
      apply (Hord (i - 1) (j - 1)); auto; lia.
Qed.

Lemma ordered_nil : ordered [].
Proof. intros i j ti tj Hi. apply index_range in Hi. unfold len in Hi. simpl in Hi. lia. Qed.

Lemma insert_Permutation (t : indexTuple) (a : list indexTuple) :
  Permutation (Sort.insert t a) (t :: a).
Proof.
  induction a as [|u a IH]; simpl; [reflexivity|].
  destruct (Less u t); [|reflexivity].
  rewrite IH. apply perm_swap.
Qed.

Lemma insert_ordered (t : indexTuple) (a : list indexTuple) :
  ordered a -> ordered (Sort.insert t a).
Proof.
  induction a as [|u a IH]; simpl; intros H.
  - apply ordered_cons. split; [contradiction | apply ordered_nil].
  - apply ordered_cons in H as [Hmin Hord].
    unfold Less. destruct (idx u <? idx t) eqn:E.
    + apply Z.ltb_lt in E. apply ordered_cons. split; [|auto].
      intros v Hv. apply (Permutation_in _ (insert_Permutation t a)) in Hv.
      destruct Hv as [<- | Hv]; [lia | auto].
    + apply Z.ltb_ge in E. apply ordered_cons. split.
      * intros v [<- | Hv]; [lia|]. specialize (Hmin v Hv). lia.
      * apply ordered_cons. auto.
Qed.

Lemma Sort_Permutation (a : list indexTuple) : Permutation (Sort.Sort a) a.
Proof.
  induction a as [|t a IH]; simpl; [reflexivity|].
  rewrite insert_Permutation. now constructor.
Qed.

Lemma Sort_ordered (a : list indexTuple) : ordered (Sort.Sort a).
Proof.
  induction a as [|t a IH]; simpl; [apply ordered_nil | now apply insert_ordered].
Qed.

Lemma Sort_len (a : list indexTuple) : len (Sort.Sort a) = len a.
Proof. unfold len. now rewrite (Permutation_length (Sort_Permutation a)). Qed.

Lemma Sort_In (a : list indexTuple) (t : indexTuple) : In t (Sort.Sort a) <-> In t a.
Proof.
  split; apply Permutation_in; [apply Sort_Permutation | symmetry; apply Sort_Permutation].
Qed.

(** Over pairwise distinct indexes, an ordered permutation is the array
    [Sort.Sort] returns, whatever algorithm produced it. *)
Lemma ordered_unique (a : list indexTuple) :
  forall b, NoDup (map idx a) -> Permutation a b -> ordered a -> ordered b -> a = b.
Proof.
  induction a as [|t a IH]; intros b Hnd Hperm Ha Hb.
  - apply Permutation_nil in Hperm. now subst.
  - destruct b as [|u b].
    + symmetry in Hperm. apply Permutation_nil in Hperm. discriminate.
    + apply ordered_cons in Ha as [Hta Ha]. apply ordered_cons in Hb as [Hub Hb].
      inversion Hnd as [|x l Hnotin Hnd']; subst.
      assert (Htu : t = u).
      { assert (Hin : In t (u :: b)) by (eapply Permutation_in; [exact Hperm | now left]).
        destruct Hin as [Heq | Hin]; [now symmetry|].
        assert (Hin' : In u (t :: a))
          by (eapply Permutation_in; [symmetry; exact Hperm | now left]).
        destruct Hin' as [Heq | Hin']; [exact Heq|].
        exfalso. apply Hnotin.
        pose proof (Hta u Hin') as H1. pose proof (Hub t Hin) as H2.
        replace (idx t) with (idx u) by lia. now apply in_map. }
      subst u. f_equal. apply IH; auto.
      eapply Permutation_cons_inv; exact Hperm.
Qed.

Lemma Sort_unique (a b : list indexTuple) :
  NoDup (map idx a) -> Permutation b a -> ordered b -> b = Sort.Sort a.
Proof.
  intros Hnd Hperm Hb. symmetry. apply ordered_unique.
  - eapply Permutation_NoDup; [|exact Hnd].
    apply Permutation_map. symmetry. apply Sort_Permutation.
  - rewrite Sort_Permutation. now symmetry.
  - apply Sort_ordered.
  - exact Hb.
Qed.

(** ** [sort.Search] *)

Lemma Search_loop_range (f : Z -> bool) :
  forall fuel i j,
    i <= j -> j - i <= Z.of_nat fuel ->
    exists k, Sort.Search_loop fuel f i j = Returns k /\ i <= k <= j.
Proof.
  induction fuel as [|fuel IH]; intros i j Hij Hfuel.
  - simpl. replace (i <? j) with false by (symmetry; apply Z.ltb_ge; lia).
    exists i. split; [reflexivity | lia].
  - simpl. destruct (i <? j) eqn:E.
    + apply Z.ltb_lt in E.
      assert (Hh : i <= (i + j) / 2 < j).
      { split; [apply Z.div_le_lower_bound | apply Z.div_lt_upper_bound]; lia. }
      destruct (f ((i + j) / 2)); simpl.
      * destruct (IH i ((i + j) / 2)) as (k & Hk & Hr); [lia | lia |].
        exists k. split; [exact Hk | lia].
      * destruct (IH ((i + j) / 2 + 1) j) as (k & Hk & Hr); [lia | lia |].
        exists k. split; [exact Hk | lia].
    + exists i. split; [reflexivity | lia].
Qed.

Lemma Search_loop_spec (f : Z -> bool) :
  forall fuel i j,
    i <= j -> j - i <= Z.of_nat fuel ->
    (forall a b, i <= a -> a <= b -> b < j -> f a = true -> f b = true) ->
    exists k, Sort.Search_loop fuel f i j = Returns k /\ i <= k <= j /\
              (forall a, i <= a < k -> f a = false) /\
              (forall a, k <= a < j -> f a = true).
Proof.
  induction fuel as [|fuel IH]; intros i j Hij Hfuel Hmono.
  - simpl. replace (i <? j) with false by (symmetry; apply Z.ltb_ge; lia).
    exists i. repeat split; try lia; intros; lia.
  - simpl. destruct (i <? j) eqn:E.
    + apply Z.ltb_lt in E.
      assert (Hh : i <= (i + j) / 2 < j).
      { split; [apply Z.div_le_lower_bound | apply Z.div_lt_upper_bound]; lia. }
      destruct (f ((i + j) / 2)) eqn:Hf; simpl.
      * destruct (IH i ((i + j) / 2)) as (k & Hk & Hr & Hlo & Hhi); [lia | lia | |].
        { intros a b Ha Hab Hb. apply Hmono; lia. }
        exists k. repeat split; try lia; auto.
        intros a Ha. destruct (Z_lt_le_dec a ((i + j) / 2)); [apply Hhi; lia|].
        apply (Hmono ((i + j) / 2) a); auto; lia.
      * destruct (IH ((i + j) / 2 + 1) j) as (k & Hk & Hr & Hlo & Hhi); [lia | lia | |].
        { intros a b Ha Hab Hb. apply Hmono; lia. }
        exists k. repeat split; try lia; auto.
        intros a Ha. destruct (Z_lt_le_dec a ((i + j) / 2 + 1)); [|apply Hlo; lia].
        destruct (f a) eqn:Hfa; [|reflexivity].
        rewrite (Hmono a ((i + j) / 2)) in Hf; [discriminate | lia | lia | lia | exact Hfa].
    + exists i. apply Z.ltb_ge in E. repeat split; try lia; intros; lia.
Qed.

(** ** The offset-resolution walk of [findClosest] *)

Section Walk.

Variable indexes : list indexTuple.

(** What one pass of the loop does to the position. *)
Lemma findClosest_step_progress (offset i : Z) :
  0 <= i < len indexes ->
  match findClosest_step indexes offset i with
  | Break _ i' => i' = i
  | Continue offset' i' =>
      (offset < 0 /\ offset' < 0 /\ i' = i - 1 /\ 0 <= i') \/
      (0 < offset /\ i' = i + 1 /\ i' <= len indexes - 1)
  | OutOfRange => False
  end.
Proof.
  intros Hi. unfold findClosest_step.
  destruct (index_in_range indexes i Hi) as [t Ht]. rewrite Ht.
  destruct (offset =? 0) eqn:E0; [reflexivity|]. apply Z.eqb_neq in E0.
  destruct (offset <? 0) eqn:Eneg.
  - apply Z.ltb_lt in Eneg.
    destruct (Int64.add (Size (entry t)) offset >=? 0) eqn:Enew; [reflexivity|].
    destruct (i =? 0) eqn:Ei; [reflexivity|]. apply Z.eqb_neq in Ei.
    left. rewrite Z.geb_leb in Enew. apply Z.leb_gt in Enew. lia.
  - apply Z.ltb_ge in Eneg.
    destruct (offset <=? Size (entry t)); [reflexivity|].
    destruct (i =? len indexes - 1) eqn:Ei; [reflexivity|]. apply Z.eqb_neq in Ei.
    right. lia.
Qed.

(** Walking backward ends within [i] further passes. *)
Lemma findClosest_loop_backward :
  forall fuel offset i,
    offset < 0 -> 0 <= i < len indexes -> i <= Z.of_nat fuel ->
    exists offset' i',
      findClosest_loop fuel indexes offset i = Returns (offset', i') /\ 0 <= i' <= i.
Proof.
  induction fuel as [|fuel IH]; intros offset i Hneg Hi Hfuel;
    pose proof (findClosest_step_progress offset i Hi) as Hstep;
    simpl; destruct (findClosest_step indexes offset i) as [o' i'|o' i'|];
    try contradiction.
  - subst i'. exists o', i. split; [reflexivity | lia].
  - destruct Hstep as [(_ & _ & -> & Hge) | (Hpos & _)]; lia.
  - subst i'. exists o', i. split; [reflexivity | lia].
  - destruct Hstep as [(_ & Hneg' & -> & Hge) | (Hpos & _)]; [|lia].
    destruct (IH o' (i - 1)) as (o'' & i'' & Hloop & Hr); [lia | lia | lia |].
    exists o'', i''. split; [exact Hloop | lia].
Qed.

(** The walk ends: a forward run of at most [len - 1 - i] passes, then at
    most one backward run. *)
Lemma findClosest_loop_total :
  forall fuel offset i,
    0 <= i < len indexes ->
    (len indexes - 1 - i) + len indexes <= Z.of_nat fuel ->
    exists offset' i',
      findClosest_loop fuel indexes offset i = Returns (offset', i') /\
      0 <= i' < len indexes.
Proof.
  induction fuel as [|fuel IH]; intros offset i Hi Hfuel; [lia|].
  destruct (Z_lt_le_dec offset 0) as [Hneg | Hnonneg].
  - destruct (findClosest_loop_backward (S fuel) offset i) as (o' & i' & Hloop & Hr);
      [lia | lia | lia |].
    exists o', i'. split; [exact Hloop | lia].
  - pose proof (findClosest_step_progress offset i Hi) as Hstep. simpl.
    destruct (findClosest_step indexes offset i) as [o' i'|o' i'|]; try contradiction.
    + subst i'. exists o', i. split; [reflexivity | lia].
    + destruct Hstep as [(Hneg & _) | (Hpos & -> & Hle)]; [lia|].
      apply IH; lia.
Qed.

(** With sizes a file can have, a backward walk stays backward and a forward
    walk stays forward, and the offset it ends on lies inside the segment it
    ends on. *)
Lemma findClosest_loop_bounds :
  wellSized indexes ->
  forall fuel offset i offset' i',
    Int64.in_range offset -> 0 <= i < len indexes ->
    findClosest_loop fuel indexes offset i = Returns (offset', i') ->
    (exists t, index indexes i' = Some t /\ 0 <= offset' <= Size (entry t)) /\
    (0 <= offset -> i <= i') /\ (offset <= 0 -> i' <= i).
Proof.
  intros Hsized. unfold wellSized in Hsized. rewrite Forall_forall in Hsized.
  induction fuel as [|fuel IH]; intros offset i offset' i' Hrange Hi;
    destruct (index_in_range indexes i Hi) as [t Ht];
    pose proof (Hsized t (index_In _ _ _ Ht)) as Hs;
    simpl; unfold findClosest_step; rewrite Ht;
    unfold Int64.in_range, Int64.min_int64, Int64.max_int64 in *;
    (destruct (offset =? 0) eqn:E0;
     [ apply Z.eqb_eq in E0; intros H; injection H as <- <-;
       split; [exists t; split; [exact Ht | lia] | lia]
     | apply Z.eqb_neq in E0 ]);
    (destruct (offset <? 0) eqn:Eneg;
     [ apply Z.ltb_lt in Eneg;
       assert (Hadd : Int64.add (Size (entry t)) offset = Size (entry t) + offset)
         by (apply wrap_in_range;
             unfold Int64.in_range, Int64.min_int64, Int64.max_int64; lia);
       rewrite Hadd;
       destruct (Size (entry t) + offset >=? 0) eqn:Enew;
       [ rewrite Z.geb_leb in Enew; apply Z.leb_le in Enew;
         intros H; injection H as <- <-;
         split; [exists t; split; [exact Ht | lia] | lia]
       | rewrite Z.geb_leb in Enew; apply Z.leb_gt in Enew;
         destruct (i =? 0) eqn:Ei;
         [ intros H; injection H as <- <-;
           split; [exists t; split; [exact Ht | lia] | lia]
         | apply Z.eqb_neq in Ei ] ]
     | apply Z.ltb_ge in Eneg;
       assert (Hsub : offset <= Size (entry t) \/
                      Int64.sub offset (Size (entry t)) = offset - Size (entry t))
         by (destruct (Z_le_gt_dec offset (Size (entry t))); [now left | right];
             apply wrap_in_range;
             unfold Int64.in_range, Int64.min_int64, Int64.max_int64; lia);
       destruct (offset <=? Size (entry t)) eqn:Ele;
       [ apply Z.leb_le in Ele; intros H; injection H as <- <-;
         split; [exists t; split; [exact Ht | lia] | lia]
       | apply Z.leb_gt in Ele;
         destruct Hsub as [Hsub | Hsub]; [lia|]; rewrite Hsub;
         destruct (i =? len indexes - 1) eqn:Ei;
         [ intros H; injection H as <- <-;
           split; [exists t; split; [exact Ht | lia] | lia]
         | apply Z.eqb_neq in Ei ] ] ]);
    try discriminate.
  - intros H. apply IH in H; [| lia | lia].
    destruct H as (Hb & Hf & Hbk). split; [exact Hb|]. split; [lia|].
    intros _. assert (i' <= i - 1) by (apply Hbk; lia). lia.
  - intros H. apply IH in H; [| lia | lia].
    destruct H as (Hb & Hf & Hbk). split; [exact Hb|]. split; [|lia].
    intros _. assert (i + 1 <= i') by (apply Hf; lia). lia.
Qed.

End Walk.

(** ** Sizes of runs of segments *)

Lemma totalSize_app (a b : list indexTuple) : totalSize (a ++ b) = totalSize a + totalSize b.
Proof. induction a as [|t a IH]; simpl; [reflexivity | rewrite IH; lia]. Qed.

Lemma totalSize_nonneg (a : list indexTuple) : wellSized a -> 0 <= totalSize a.
Proof.
  induction 1 as [|t a Ht _ IH]; simpl; lia.
Qed.

Lemma totalSize_Permutation (a b : list indexTuple) :
  Permutation a b -> totalSize a = totalSize b.
Proof. induction 1; simpl; lia. Qed.

Lemma wellSized_Permutation (a b : list indexTuple) :
  Permutation a b -> wellSized a -> wellSized b.
Proof. intros H. unfold wellSized. now apply Permutation_Forall. Qed.

Lemma prefixSize_succ (a : list indexTuple) (i : Z) (t : indexTuple) :
  index a i = Some t -> prefixSize a (i + 1) = prefixSize a i + Size (entry t).
Proof.
  intros H. apply index_Some in H as [Hi Hn]. unfold prefixSize.
  replace (Z.to_nat (i + 1)) with (S (Z.to_nat i)) by lia.
  revert Hn. generalize (Z.to_nat i) as n. clear Hi.
  induction a as [|u a IH]; intros [|n] Hn; simpl in *; try discriminate.
  - injection Hn as ->. lia.
  - rewrite (IH n Hn). lia.
Qed.

Lemma prefixSize_bounds (a : list indexTuple) (k : Z) :
  wellSized a -> 0 <= prefixSize a k <= totalSize a.
Proof.
  intros H. unfold prefixSize.
  rewrite <- (firstn_skipn (Z.to_nat k) a) at 3. rewrite totalSize_app.
  assert (H12 : wellSized (firstn (Z.to_nat k) a) /\ wellSized (skipn (Z.to_nat k) a)).
  { unfold wellSized in *. apply Forall_app. now rewrite firstn_skipn. }
  destruct H12 as [H1 H2].
  apply totalSize_nonneg in H1, H2. lia.
Qed.

Lemma prefixSize_first (a : list indexTuple) (k : Z) (t0 : indexTuple) :
  wellSized a -> index a 0 = Some t0 -> 1 <= k -> Size (entry t0) <= prefixSize a k.
Proof.
  intros H H0 Hk. destruct a as [|u a]; [apply index_range in H0; unfold len in H0; simpl in H0; lia|].
  rewrite index_head in H0. injection H0 as <-. unfold prefixSize.
  replace (Z.to_nat k) with (S (Z.to_nat (k - 1))) by lia. simpl.
  inversion H as [|? ? Hu Ha]; subst.
  pose proof (prefixSize_bounds a (k - 1) Ha) as Hb. unfold prefixSize in Hb. lia.
Qed.

Lemma prefixSize_zero (a : list indexTuple) : prefixSize a 0 = 0.
Proof. reflexivity. Qed.

Section Clamp.

Variable indexes : list indexTuple.
Hypothesis sized : wellSized indexes.

(** A backward walk that asks for more than the segments up to the start
    hold ends at the very beginning of the first one; so does one that asks
    for exactly that much, when the first segment is not empty. *)
Lemma findClosest_loop_clamp :
  forall fuel offset i,
    Int64.in_range offset -> offset < 0 -> 0 <= i < len indexes ->
    i <= Z.of_nat fuel ->
    offset + prefixSize indexes (i + 1) <= 0 ->
    (offset + prefixSize indexes (i + 1) < 0 \/
     exists t0, index indexes 0 = Some t0 /\ 0 < Size (entry t0)) ->
    findClosest_loop fuel indexes offset i = Returns (0, 0).
Proof.
  pose proof sized as Hsized. unfold wellSized in Hsized. rewrite Forall_forall in Hsized.
  induction fuel as [|fuel IH]; intros offset i Hrange Hneg Hi Hfuel Hsum Hstrict;
    destruct (index_in_range indexes i Hi) as [t Ht];
    pose proof (Hsized t (index_In _ _ _ Ht)) as Hs;
    pose proof (prefixSize_succ _ _ _ Ht) as Hsucc;
    pose proof (prefixSize_bounds indexes i sized) as Hpre;
    assert (Hadd : Int64.add (Size (entry t)) offset = Size (entry t) + offset)
      by (apply wrap_in_range;
          unfold Int64.in_range, Int64.min_int64, Int64.max_int64 in *; lia);
    simpl; unfold findClosest_step; rewrite Ht, Hadd;
    replace (offset =? 0) with false by (symmetry; apply Z.eqb_neq; lia);
    replace (offset <? 0) with true by (symmetry; apply Z.ltb_lt; lia);
    rewrite Z.geb_leb.
  - assert (i = 0) by lia. subst i. rewrite prefixSize_zero in *. simpl Z.add in *.
    destruct (0 <=? Size (entry t) + offset) eqn:E.
    + apply Z.leb_le in E. repeat f_equal. lia.
    + reflexivity.
  - destruct (0 <=? Size (entry t) + offset) eqn:E.
    + apply Z.leb_le in E.
      destruct (Z.eq_dec i 0) as [-> | Hi0].
      * rewrite prefixSize_zero in *. repeat f_equal. lia.
      * exfalso. destruct Hstrict as [Hlt | (t0 & Ht0 & Hpos)]; [lia|].
        pose proof (prefixSize_first indexes i t0 sized Ht0). lia.
    + apply Z.leb_gt in E.
      destruct (i =? 0) eqn:Ei; [apply Z.eqb_eq in Ei; now subst i|].
      apply Z.eqb_neq in Ei.
      apply IH.
      * unfold Int64.in_range, Int64.min_int64, Int64.max_int64 in *. lia.
      * lia.
      * lia.
      * lia.
      * replace (i - 1 + 1) with i by lia. lia.
      * replace (i - 1 + 1) with i by lia.
        destruct Hstrict as [Hlt | Hex]; [left; lia | right; exact Hex].
Qed.

(** From the last position, an offset that reaches no further back than the
    last segment's own size is resolved there. *)
Lemma findClosest_loop_last (fuel : nat) (offset : Z) (t : indexTuple) :
  Int64.in_range offset ->
  index indexes (len indexes - 1) = Some t ->
  - Size (entry t) <= offset ->
  exists offset',
    findClosest_loop fuel indexes offset (len indexes - 1) = Returns (offset', len indexes - 1).
Proof.
  pose proof sized as Hsized. unfold wellSized in Hsized. rewrite Forall_forall in Hsized.
  intros Hrange Ht Hoff. pose proof (Hsized t (index_In _ _ _ Ht)) as Hs.
  assert (Hstep : exists offset',
             findClosest_step indexes offset (len indexes - 1)
             = Break offset' (len indexes - 1)).
  { unfold findClosest_step. rewrite Ht.
    destruct (offset =? 0); [eauto|].
    destruct (offset <? 0) eqn:Eneg.
    - apply Z.ltb_lt in Eneg.
      unfold Int64.add. rewrite (wrap_in_range (Size (entry t) + offset))
        by (unfold Int64.in_range, Int64.min_int64, Int64.max_int64 in *; lia).
      replace (Size (entry t) + offset >=? 0) with true
        by (symmetry; rewrite Z.geb_leb; apply Z.leb_le; lia).
      eauto.
    - destruct (offset <=? Size (entry t)); [eauto|].
      rewrite Z.eqb_refl. eauto. }
  destruct Hstep as [offset' Hstep]. exists offset'.
  destruct fuel; simpl; now rewrite Hstep.
Qed.

End Clamp.

(** ** [findClosest], pass by pass *)

Lemma closestIn_unfold (a : list indexTuple) (d off : Z) :
  ordered a -> a <> [] ->
  exists p off' i' t,
    startsAt a d p /\
    findClosest_loop (2 * List.length a) a off p = Returns (off', i') /\
    index a i' = Some t /\
    closestIn a d off = Returns (entry t, idx t, off').
Proof.
  intros Hord Hne. pose proof (len_pos a Hne) as Hlen.
  set (f := fun i : Z => match index a i with
                         | Some t => idx t >=? d
                         | None => false
                         end).
  destruct (Search_loop_spec f (Z.to_nat (len a)) 0 (len a)) as (k & Hk & Hr & Hlo & Hhi).
  { lia. }
  { lia. }
  { intros x y Hx Hxy Hy. unfold f.
    destruct (index_in_range a x ltac:(lia)) as [tx Htx].
    destruct (index_in_range a y ltac:(lia)) as [ty Hty].
    rewrite Htx, Hty, !Z.geb_leb, !Z.leb_le.
    pose proof (Hord x y tx ty Htx Hty Hxy). lia. }
  set (p := if k =? len a then len a - 1 else k).
  assert (Hp : 0 <= p < len a).
  { unfold p. destruct (k =? len a) eqn:E; [lia|]. apply Z.eqb_neq in E. lia. }
  assert (Hpk : p <= k).
  { unfold p. destruct (k =? len a) eqn:E; [apply Z.eqb_eq in E|]; lia. }
  destruct (findClosest_loop_total a (2 * List.length a) off p Hp) as (off' & i' & Hloop & Hi');
    [unfold len in *; lia|].
  destruct (index_in_range a i' Hi') as [t Ht].
  exists p, off', i', t. split; [|split; [exact Hloop | split; [exact Ht|]]].
  - split; [exact Hp|]. split.
    + intros q t' Hq Hqp. pose proof (index_range _ _ _ Hq).
      specialize (Hlo q ltac:(lia)). unfold f in Hlo. rewrite Hq in Hlo.
      rewrite Z.geb_leb in Hlo. apply Z.leb_gt in Hlo. exact Hlo.
    + unfold p. destruct (k =? len a) eqn:E.
      * apply Z.eqb_eq in E. right. split; [reflexivity|].
        intros t' Hin. apply In_index in Hin as [q Hq].
        pose proof (index_range _ _ _ Hq).
        specialize (Hlo q ltac:(lia)). unfold f in Hlo. rewrite Hq in Hlo.
        rewrite Z.geb_leb in Hlo. apply Z.leb_gt in Hlo. exact Hlo.
      * apply Z.eqb_neq in E. left.
        destruct (index_in_range a k ltac:(lia)) as [tk Htk]. exists tk.
        split; [exact Htk|].
        specialize (Hhi k ltac:(lia)). unfold f in Hhi. rewrite Htk in Hhi.
        rewrite Z.geb_leb in Hhi. apply Z.leb_le in Hhi. exact Hhi.
  - unfold closestIn, Sort.Search. fold f. rewrite Hk. cbv zeta. fold p.
    rewrite Hloop, Ht. reflexivity.
Qed.

Lemma findClosest_unfold (entries : list AllocFileInfo) (task logType : string)
    (indexes : list indexTuple) (d off : Z) :
  logIndexes entries task logType = ok indexes -> indexes <> [] ->
  exists p off' i' t,
    startsAt (Sort.Sort indexes) d p /\
    findClosest_loop (2 * List.length (Sort.Sort indexes)) (Sort.Sort indexes) off p
    = Returns (off', i') /\
    index (Sort.Sort indexes) i' = Some t /\
    findClosest entries d off task logType = Returns (ok (entry t, idx t, off')).
Proof.
  intros Hidx Hne.
  assert (Hne' : Sort.Sort indexes <> []).
  { intros E. apply (f_equal (@List.length _)) in E.
    rewrite (Permutation_length (Sort_Permutation indexes)) in E.
    destruct indexes; [congruence | discriminate]. }
  destruct (closestIn_unfold (Sort.Sort indexes) d off (Sort_ordered indexes) Hne')
    as (p & off' & i' & t & Hstart & Hloop & Ht & Hc).
  exists p, off', i', t. repeat split; try assumption; try apply Hstart.
  unfold findClosest. rewrite Hidx.
  replace (len indexes =? 0) with false.
  - now rewrite Hc.
  - symmetry. apply Z.eqb_neq. pose proof (len_pos indexes Hne). lia.
Qed.

(** [findClosest] returns on every input: it neither indexes out of range
    nor walks forever. *)
Lemma findClosest_returns (entries : list AllocFileInfo) (d off : Z) (task logType : string) :
  exists r, findClosest entries d off task logType = Returns r.
Proof.
  destruct (logIndexes entries task logType) as [indexes|err] eqn:Hidx.
  - destruct indexes as [|t0 rest] eqn:E.
    + unfold findClosest. rewrite Hidx. simpl. eauto.
    + destruct (findClosest_unfold entries task logType (t0 :: rest) d off Hidx)
        as (p & off' & i' & t & _ & _ & _ & H); [discriminate|].
      rewrite H. eauto.
  - unfold findClosest. rewrite Hidx. eauto.
Qed.

Lemma findClosest_loop_more_fuel (indexes : list indexTuple) :
  forall fuel offset i r,
    findClosest_loop fuel indexes offset i = Returns r ->
    forall fuel', (fuel <= fuel')%nat -> findClosest_loop fuel' indexes offset i = Returns r.
Proof.
  induction fuel as [|fuel IH]; intros offset i r H fuel' Hle.
  - simpl in H. destruct fuel'; simpl;
      destruct (findClosest_step indexes offset i); congruence.
  - destruct fuel' as [|fuel']; [lia|]. simpl in *.
    destruct (findClosest_step indexes offset i); try congruence.
    apply IH with (fuel' := fuel') in H; [exact H | lia].
Qed.

Lemma findClosest_loop_zero (indexes : list indexTuple) (fuel : nat) (p : Z) :
  0 <= p < len indexes -> findClosest_loop fuel indexes 0 p = Returns (0, p).
Proof.
  intros Hp. destruct (index_in_range indexes p Hp) as [t Ht].
  destruct fuel; simpl; unfold findClosest_step; now rewrite Ht.
Qed.

Lemma findClosest_ok_inv (entries : list AllocFileInfo) (d off : Z) (task logType : string)
    (r : AllocFileInfo * Z * Z) :
  findClosest entries d off task logType = Returns (ok r) ->
  exists indexes, logIndexes entries task logType = ok indexes /\ indexes <> [].
Proof.
  unfold findClosest. destruct (logIndexes entries task logType) as [indexes|err];
    [|discriminate].
  intros H. exists indexes. split; [reflexivity|].
  intros ->. discriminate.
Qed.

(** What a forward (or still) walk returns, relative to the index asked
    for. *)
Lemma findClosest_forward (entries : list AllocFileInfo) (d off : Z) (task logType : string)
    (indexes : list indexTuple) (e : AllocFileInfo) (i o : Z) :
  logIndexes entries task logType = ok indexes ->
  off = 0 \/ (0 < off /\ Int64.in_range off /\ wellSized indexes) ->
  findClosest entries d off task logType = Returns (ok (e, i, o)) ->
  In {| idx := i; entry := e |} indexes /\
  ((exists u, In u indexes /\ d <= idx u) -> d <= i) /\
  ((forall u, In u indexes -> idx u < d) -> forall u, In u indexes -> idx u <= i).
Proof.
  intros Hidx Hfwd Hfc.
  destruct (findClosest_ok_inv _ _ _ _ _ _ Hfc) as (indexes' & Hidx' & Hne).
  rewrite Hidx in Hidx'. injection Hidx' as <-.
  destruct (findClosest_unfold entries task logType indexes d off Hidx Hne)
    as (p & off' & i' & t & (Hp & Hbelow & Hat) & Hloop & Ht & Hfc').
  rewrite Hfc in Hfc'. injection Hfc' as -> -> ->.
  assert (Hpi : p <= i').
  { destruct Hfwd as [-> | (Hpos & Hrange & Hsized)].
    - rewrite findClosest_loop_zero in Hloop by exact Hp. injection Hloop as _ <-. lia.
    - assert (Hsized' : wellSized (Sort.Sort indexes)).
      { apply (wellSized_Permutation indexes);
          [symmetry; apply Sort_Permutation | exact Hsized]. }
      destruct (findClosest_loop_bounds _ Hsized' _ _ _ _ _ Hrange Hp Hloop)
        as (_ & Hf & _). apply Hf. lia. }
  pose proof (index_range _ _ _ Ht) as Hi'.
  split; [|split].
  - apply Sort_In. apply index_In in Ht. now destruct t.
  - intros (u & Hu & Hdu).
    destruct Hat as [(tp & Htp & Hge) | (_ & Hall)].
    + pose proof (Sort_ordered indexes p i' tp t Htp Ht Hpi). lia.
    + specialize (Hall u (proj2 (Sort_In indexes u) Hu)). lia.
  - intros Hall u Hu.
    destruct Hat as [(tp & Htp & Hge) | (Hplast & _)].
    + apply index_In in Htp. apply (proj1 (Sort_In indexes tp)) in Htp.
      specialize (Hall tp Htp). lia.
    + apply (proj2 (Sort_In indexes u)) in Hu. apply In_index in Hu as [q Hq].
      pose proof (index_range _ _ _ Hq).
      apply (Sort_ordered indexes q i' u t Hq Ht). lia.
Qed.

(** ** The segment loop of [logsImpl], pass by pass *)

(** [maxIndex], when not following, is the largest index of the listing. *)
Lemma logsImpl_maxIndex_largest (entries : list AllocFileInfo) (task logType : string)
    (indexes : list indexTuple) (m : Z) :
  logIndexes entries task logType = ok indexes ->
  logsImpl_maxIndex false entries task logType = Returns (ok m) ->
  (forall u, In u indexes -> idx u <= m) /\ (exists u, In u indexes /\ idx u = m).
Proof.
  intros Hidx. unfold logsImpl_maxIndex. simpl negb. cbv iota zeta.
  destruct (findClosest entries Int64.max_int64 0 task logType) as [[[[e i] o]|err]| |] eqn:Hfc;
    try discriminate.
  intros H. injection H as <-.
  destruct (findClosest_forward entries Int64.max_int64 0 task logType indexes e i o
              Hidx (or_introl eq_refl) Hfc) as (Hin & Hsome & Hnone).
  split; [|exists {| idx := i; entry := e |}; auto].
  intros u Hu.
  destruct (Z_lt_le_dec i Int64.max_int64) as [Hlt | Hge].
  - apply Hnone; [|exact Hu].
    intros v Hv. destruct (Z_lt_le_dec (idx v) Int64.max_int64) as [|Hv']; [assumption|].
    assert (Int64.max_int64 <= i) by (apply Hsome; eauto). lia.
  - pose proof (logIndexes_ok _ _ _ _ Hidx) as Hall. rewrite Forall_forall in Hall.
    destruct (Hall u Hu) as (_ & _ & sfx & _ & _ & _ & Hr).
    unfold Int64.in_range in Hr. lia.
Qed.

(** The shape of a pass that re-enters the loop after a streamed segment. *)
Lemma logsImpl_pass_Advance (follow : bool) (task logType : string) (d : driver)
    (env : segmentEnv) (i : Z) (call : streamCall) (d' : driver) :
  logsImpl_pass follow task logType d env = Returns (Advance i call d') ->
  exists entries maxIndex logEntry openOffset,
    fs_List env = ok entries /\
    logsImpl_maxIndex follow entries task logType = Returns (ok maxIndex) /\
    findClosest entries (nextIdx d) (offset d) task logType
    = Returns (ok (logEntry, i, openOffset)) /\
    terminalPolicy follow i maxIndex = TailUntilNext (Int64.add i 1) /\
    call = {| c_offset := openOffset; c_path := joinLogPath (Name logEntry);
              c_limit := 0; c_eofCancel := NextLogChan (Int64.add i 1) |} /\
    d' = {| nextIdx := Int64.add i 1; offset := 0 |}.
Proof.
  unfold logsImpl_pass, logsImpl_segment.
  destruct (fs_List env) as [entries|err]; [|discriminate].
  destruct (logsImpl_maxIndex follow entries task logType) as [[m|err]| |] eqn:Hmax;
    try discriminate.
  destruct (findClosest entries (nextIdx d) (offset d) task logType)
    as [[[[e j] o]|err]| |] eqn:Hfc; try discriminate.
  destruct (terminalPolicy follow j m) as [| |n] eqn:Hpol; try discriminate.
  - destruct (ctx_done env); [discriminate|].
    destruct (streamFile_result env) as [err|]; [|discriminate].
    destruct (IsNotExist err); [discriminate|].
    destruct (error_eqb err EPIPE); discriminate.
  - assert (n = Int64.add j 1).
    { unfold terminalPolicy in Hpol.
      destruct (negb follow && (j >? m)); [discriminate|].
      destruct (negb follow && (j =? m)); [discriminate|]. now injection Hpol. }
    subst n.
    destruct (ctx_done env); [discriminate|].
    destruct (streamFile_result env) as [err|].
    + destruct (IsNotExist err); [discriminate|].
      destruct (error_eqb err EPIPE); discriminate.
    + destruct (framer_exited env); [discriminate|].
      intros H. injection H as <- <- <-.
      exists entries, m, e, o. repeat split; auto.
Qed.

(** ** The tailer, pass by pass *)

Lemma delivered_add_sent (st : tailer) (fr : frame) :
  delivered (add_sent st fr) = delivered st + f_size fr.
Proof.
  unfold delivered, add_sent. simpl t_sent.
  induction (t_sent st) as [|x l IH]; simpl; lia.
Qed.

(** A pass whose read ends at EOF and whose calls succeed reaches the
    [select]. *)
Lemma streamFile_pass_at_EOF (path : string) (limit : Z) (st : tailer) (inp : tailerInput)
    (n : Z) (reader : fileReader) :
  Read (t_reader st) (bufSize limit) (in_read inp) = (n, Some EOF, reader) ->
  in_send inp = None -> in_watch inp = None ->
  streamFile_pass path limit st inp
  = streamFile_select path limit (atSelect path st n reader) (in_select inp).
Proof.
  intros HR Hsend Hwatch. unfold streamFile_pass. rewrite HR.
  unfold atSelect, set_changes, set_lastEvent, add_sent, set_read.
  simpl error_eqb. simpl negb. cbv iota zeta. simpl t_lastEvent. simpl t_offset.
  rewrite Hsend, Hwatch.
  destruct (String.eqb (t_lastEvent st) "") eqn:Hev; destruct (n =? 0) eqn:Hn;
    simpl negb; simpl orb; cbv iota; simpl t_lastEvent; rewrite ?Hev; simpl negb;
    cbv iota; simpl t_changes; destruct (t_changes st); simpl;
    try reflexivity;
    apply String.eqb_eq in Hev; rewrite Hev; reflexivity.
Qed.

(** The limit invariant holds when the file is opened and after every pass
    that loops. *)
Lemma streamFile_open_limited (offset limit : Z) (file : handle) :
  0 < limit -> limited limit (streamFile_open offset limit file).
Proof.
  intros Hl. exists file, limit. unfold streamFile_open, delivered. simpl.
  replace (limit <=? 0) with false by (symmetry; apply Z.leb_gt; lia).
  repeat split; lia.
Qed.

Lemma Read_limited (limit : Z) (st : tailer) (inp : tailerInput) (buflen n : Z)
    (readErr : option error) (reader : fileReader) :
  Int64.in_range limit -> readsWithin inp -> 0 < buflen ->
  limited limit st ->
  Read (t_reader st) buflen (in_read inp) = (n, readErr, reader) ->
  exists h N, reader = LimitedReader h N /\ 0 <= N <= limit /\ 0 <= n /\
              N + n + delivered st = limit.
Proof.
  intros Hrange Hread Hbuf (h & N & Hr & HN & Hsum) HR. rewrite Hr in HR. simpl in HR.
  destruct (N <=? 0) eqn:E.
  - injection HR as <- _ <-. apply Z.leb_le in E. exists h, N. repeat split; lia.
  - apply Z.leb_gt in E.
    set (p := if buflen >? N then N else buflen) in HR.
    assert (Hp : 0 < p <= N).
    { unfold p. destruct (buflen >? N) eqn:Eb; [lia|].
      rewrite Z.gtb_ltb in Eb. apply Z.ltb_ge in Eb. lia. }
    pose proof (Hread p ltac:(lia)) as Hn.
    destruct (in_read inp p) as [n' err']. simpl in Hn. injection HR as <- _ <-.
    exists h, (Int64.sub N n'). unfold Int64.sub.
    rewrite wrap_in_range
      by (unfold Int64.in_range, Int64.min_int64, Int64.max_int64 in *;
          lia).
    repeat split; lia.
Qed.

Lemma bufSize_pos (limit : Z) : 0 < bufSize limit.
Proof.
  unfold bufSize, streamFrameSize.
  destruct (limit >? 0) eqn:E; cbn [andb]; [|lia].
  rewrite Z.gtb_ltb in E. apply Z.ltb_lt in E.
  destruct (limit <? 64 * 1024); lia.
Qed.

Lemma delivered_sent (st : tailer) (l : list frame) (fr : frame) :
  t_sent st = l ++ [fr] ->
  delivered st = fold_right (fun fr acc => f_size fr + acc) 0 l + f_size fr.
Proof.
  unfold delivered. intros ->. induction l as [|x l IH]; simpl; lia.
Qed.

Lemma streamFile_pass_limited (path : string) (limit : Z) (st st' : tailer)
    (inp : tailerInput) :
  0 < limit -> Int64.in_range limit -> readsWithin inp ->
  limited limit st ->
  streamFile_pass path limit st inp = Looping st' ->
  limited limit st'.
Proof.
  intros Hpos Hrange Hread Hlim Hpass.
  pose proof (bufSize_pos limit) as Hbuf.
  unfold streamFile_pass in Hpass.
  destruct (Read (t_reader st) (bufSize limit) (in_read inp)) as [[n readErr] reader] eqn:HR.
  destruct (Read_limited limit st inp _ _ _ _ Hrange Hread Hbuf Hlim HR)
    as (h & N & -> & HN & Hn & Hsum).
  replace (limit <=? 0) with false in * by (symmetry; apply Z.leb_gt; lia).
  assert (Hmid : forall st1,
             t_reader st1 = LimitedReader h N ->
             (t_sent st1 = t_sent st /\ n = 0 \/
              exists fr, t_sent st1 = t_sent st ++ [fr] /\ f_size fr = n) ->
             limited limit st1).
  { intros st1 Hr Hs. exists h, N. split; [exact Hr|]. split; [exact HN|].
    destruct Hs as [[Hs ->] | (fr & Hs & Hfr)].
    - unfold delivered in *. rewrite Hs. lia.
    - rewrite (delivered_sent st1 _ _ Hs). unfold delivered in Hsum. lia. }
  assert (Hsel : forall st1,
             limited limit st1 ->
             streamFile_select path limit (set_changes st1) (in_select inp) = Looping st' ->
             limited limit st').
  { intros st1 (h1 & N1 & Hr1 & HN1 & Hs1). unfold streamFile_select.
    destruct (in_select inp) as [|send|close reopen| | | |err]; try discriminate.
    - intros H. injection H as <-. exists h1, N1. auto.
    - destruct close; [discriminate|]. simpl t_offset.
      destruct (reopen 0) as [file|err]; [|discriminate].
      replace (limit <=? 0) with false by (symmetry; apply Z.leb_gt; lia).
      simpl t_reader. rewrite Hr1. intros H. injection H as <-.
      exists file, N1. auto. }
  simpl t_lastEvent in Hpass. simpl t_offset in Hpass.
  set (sends := negb (n =? 0) || negb (String.eqb (t_lastEvent st) "")) in *.
  assert (Hsent : forall ev,
             limited limit
               (if negb (String.eqb ev "")
                then set_lastEvent
                       (if sends
                        then add_sent (set_read st (Int64.add (t_offset st) n)
                                         (LimitedReader h N))
                               {| f_path := path; f_event := t_lastEvent st; f_size := n;
                                  f_offset := Int64.add (t_offset st) n |}
                        else set_read st (Int64.add (t_offset st) n) (LimitedReader h N)) ""
                else
                  if sends
                  then add_sent (set_read st (Int64.add (t_offset st) n)
                                   (LimitedReader h N))
                         {| f_path := path; f_event := t_lastEvent st; f_size := n;
                            f_offset := Int64.add (t_offset st) n |}
                  else set_read st (Int64.add (t_offset st) n) (LimitedReader h N))).
  { intros ev. apply Hmid.
    - destruct (negb (String.eqb ev "")), sends; reflexivity.
    - unfold sends. destruct (n =? 0) eqn:En.
      + apply Z.eqb_eq in En.
        destruct (negb (String.eqb ev "")), (negb (String.eqb (t_lastEvent st) ""));
          simpl; eauto.
      + destruct (negb (String.eqb ev "")); simpl; eauto. }
  destruct readErr as [e|].
  - destruct (error_eqb e EOF); simpl negb in Hpass; cbv iota in Hpass; [|discriminate].
    destruct (if sends then in_send inp else None); [discriminate|].
    match type of Hpass with
    | context [if t_changes ?x then _ else _] =>
        destruct (if t_changes x then None else in_watch inp); [discriminate|]
    end.
    eapply Hsel; [|exact Hpass].
    destruct sends; apply Hsent.
  - cbv iota in Hpass.
    destruct (if sends then in_send inp else None); [discriminate|].
    injection Hpass as <-. destruct sends; apply Hsent.
Qed.

Lemma streamFile_loop_limited (path : string) (limit : Z) (inputs : list tailerInput) :
  0 < limit -> Int64.in_range limit -> Forall readsWithin inputs ->
  forall st st',
    limited limit st ->
    streamFile_loop path limit st inputs = Looping st' ->
    limited limit st'.
Proof.
  intros Hpos Hrange Hreads. induction Hreads as [|inp rest Hinp _ IH]; intros st st' Hlim.
  - simpl. intros H. now injection H as <-.
  - simpl. destruct (streamFile_pass path limit st inp) as [s e|s] eqn:Hp; [discriminate|].
    apply IH. eapply streamFile_pass_limited; eauto.
Qed.

(** * The claims *)

(** C1, amended.  For a listing whose filtered index set is non-empty
    and whose segments have sizes a file can have, [findClosest] returns a
    tuple [(entry, idx, openOffset)] of the set with
    [0 <= openOffset <= size(entry)]; when [desiredIdx] exceeds every
    present index and [desiredOffset] reaches no further back than the last
    segment's size, the last (highest-index) segment is returned; and when
    [desiredOffset < 0] with [|desiredOffset|] strictly above the total
    size, or equal to it with a non-empty first segment, the result is the
    first segment, its index and [openOffset = 0]. *)
Theorem findClosest_resolves (entries : list AllocFileInfo) (desiredIdx desiredOffset : Z)
    (task logType : string) (indexes : list indexTuple) :
  logIndexes entries task logType = ok indexes ->
  indexes <> [] ->
  wellSized indexes ->
  Int64.in_range desiredOffset ->
  exists t openOffset first last,
    findClosest entries desiredIdx desiredOffset task logType
    = Returns (ok (entry t, idx t, openOffset)) /\
    In t indexes /\
    0 <= openOffset <= Size (entry t) /\
    index (Sort.Sort indexes) 0 = Some first /\
    index (Sort.Sort indexes) (len indexes - 1) = Some last /\
    (forall u, In u indexes -> idx first <= idx u <= idx last) /\
    ((forall u, In u indexes -> idx u < desiredIdx) ->
     - Size (entry last) <= desiredOffset -> t = last) /\
    (desiredOffset < 0 -> totalSize indexes <= - desiredOffset ->
     totalSize indexes < - desiredOffset \/ 0 < Size (entry first) ->
     t = first /\ openOffset = 0).
Proof.
  intros Hidx Hne Hsized Hrange.
  set (a := Sort.Sort indexes).
  assert (Hsized' : wellSized a).
  { apply (wellSized_Permutation indexes); [symmetry; apply Sort_Permutation | exact Hsized]. }
  assert (Hlen : len a = len indexes) by apply Sort_len.
  pose proof (len_pos indexes Hne) as Hpos.
  destruct (findClosest_unfold entries task logType indexes desiredIdx desiredOffset Hidx Hne)
    as (p & off' & i' & t & Hstart & Hloop & Ht & Hfc).
  fold a in Hstart, Hloop, Ht.
  destruct Hstart as (Hp & Hbelow & Hat).
  destruct (findClosest_loop_bounds a Hsized' _ _ _ _ _ Hrange Hp Hloop)
    as ((t' & Ht' & Hoff) & _).
  rewrite Ht in Ht'. injection Ht' as <-.
  destruct (index_in_range a 0 ltac:(lia)) as [first Hfirst].
  destruct (index_in_range a (len indexes - 1) ltac:(lia)) as [last Hlast].
  exists t, off', first, last.
  split; [exact Hfc|]. split; [apply Sort_In; eapply index_In; exact Ht|].
  split; [exact Hoff|]. split; [exact Hfirst|]. split; [exact Hlast|].
  split; [|split].
  - intros u Hu. apply Sort_In in Hu. apply In_index in Hu as [q Hq].
    pose proof (index_range _ _ _ Hq) as Hq'. rewrite Sort_len in Hq'.
    pose proof (Sort_ordered indexes 0 q first u Hfirst Hq ltac:(lia)).
    pose proof (Sort_ordered indexes q (len indexes - 1) u last Hq Hlast ltac:(lia)).
    lia.
  - intros Hall Hback.
    destruct Hat as [(tp & Htp & Hge) | (Hplast & _)].
    { apply index_In in Htp. apply (proj1 (Sort_In indexes tp)) in Htp.
      specialize (Hall tp Htp). lia. }
    rewrite Hlen in Hplast. subst p.
    rewrite <- Hlen in Hlast, Hloop.
    destruct (findClosest_loop_last a Hsized' (2 * List.length a) desiredOffset last
                Hrange Hlast Hback) as [off'' Hl].
    rewrite Hl in Hloop. injection Hloop as <- <-.
    rewrite Hlast in Ht. now injection Ht.
  - intros Hneg Htotal Hstrict.
    assert (Hclamp : findClosest_loop (2 * List.length a) a desiredOffset p = Returns (0, 0)).
    { pose proof (prefixSize_bounds a (p + 1) Hsized') as Hpre.
      assert (Htot : totalSize a = totalSize indexes)
        by apply totalSize_Permutation, Sort_Permutation.
      apply (findClosest_loop_clamp a Hsized'); try assumption.
      - unfold len in Hp. lia.
      - lia.
      - destruct Hstrict as [Hlt | Hpos1]; [left; lia | right; eauto]. }
    rewrite Hclamp in Hloop. injection Hloop as <- <-.
    rewrite Hfirst in Ht. injection Ht as <-. auto.
Qed.

(** C1, a run of the theorem: two segments, the walk back of 80 bytes. *)
Lemma findClosest_resolves_witness :
  exists t openOffset first last,
    findClosest [segment "web.stdout.0" 100; segment "web.stdout.2" 50]
      Int64.max_int64 (-80) "web" "stdout"
    = Returns (ok (entry t, idx t, openOffset)) /\
    In t [{| idx := 0; entry := segment "web.stdout.0" 100 |};
          {| idx := 2; entry := segment "web.stdout.2" 50 |}] /\
    0 <= openOffset <= Size (entry t) /\
    index (Sort.Sort [{| idx := 0; entry := segment "web.stdout.0" 100 |};
                      {| idx := 2; entry := segment "web.stdout.2" 50 |}]) 0 = Some first /\
    index (Sort.Sort [{| idx := 0; entry := segment "web.stdout.0" 100 |};
                      {| idx := 2; entry := segment "web.stdout.2" 50 |}])
      (len [{| idx := 0; entry := segment "web.stdout.0" 100 |};
            {| idx := 2; entry := segment "web.stdout.2" 50 |}] - 1) = Some last /\
    (forall u, In u [{| idx := 0; entry := segment "web.stdout.0" 100 |};
                     {| idx := 2; entry := segment "web.stdout.2" 50 |}] ->
               idx first <= idx u <= idx last) /\
    ((forall u, In u [{| idx := 0; entry := segment "web.stdout.0" 100 |};
                      {| idx := 2; entry := segment "web.stdout.2" 50 |}] ->
                idx u < Int64.max_int64) ->
     - Size (entry last) <= -80 -> t = last) /\
    (-80 < 0 ->
     totalSize [{| idx := 0; entry := segment "web.stdout.0" 100 |};
                {| idx := 2; entry := segment "web.stdout.2" 50 |}] <= - -80 ->
     totalSize [{| idx := 0; entry := segment "web.stdout.0" 100 |};
                {| idx := 2; entry := segment "web.stdout.2" 50 |}] < - -80 \/
     0 < Size (entry first) ->
     t = first /\ openOffset = 0).
Proof.
  apply (findClosest_resolves
           [segment "web.stdout.0" 100; segment "web.stdout.2" 50]
           Int64.max_int64 (-80) "web" "stdout"
           [{| idx := 0; entry := segment "web.stdout.0" 100 |};
            {| idx := 2; entry := segment "web.stdout.2" 50 |}]).
  - reflexivity.
  - discriminate.
  - unfold wellSized. repeat apply Forall_cons; [| | apply Forall_nil];
      simpl; rewrite max_int64_value; lia.
  - unfold Int64.in_range. rewrite max_int64_value, min_int64_value. lia.
Defined.

(** C1 as stated fails twice.  With [desiredIdx] above every present index
    and a walk back of 80 bytes over segments 0 (100 bytes) and 2 (50
    bytes), the segment returned is the first one, not the last.  With
    [|desiredOffset|] equal to the total size over an empty segment 0 and a
    10-byte segment 1, the segment returned is the last one, not the
    first. *)
Lemma findClosest_last_and_first_counterexample :
  (findClosest [segment "web.stdout.0" 100; segment "web.stdout.2" 50]
     Int64.max_int64 (-80) "web" "stdout"
   = Returns (ok (segment "web.stdout.0" 100, 0, 70)) /\
   segment "web.stdout.0" 100 <> segment "web.stdout.2" 50) /\
  (findClosest [segment "web.stdout.0" 0; segment "web.stdout.1" 10]
     Int64.max_int64 (-10) "web" "stdout"
   = Returns (ok (segment "web.stdout.1" 10, 1, 0)) /\
   totalSize [{| idx := 0; entry := segment "web.stdout.0" 0 |};
              {| idx := 1; entry := segment "web.stdout.1" 10 |}] <= - -10 /\
   segment "web.stdout.1" 10 <> segment "web.stdout.0" 0).
Proof.
  repeat split; try reflexivity; discriminate.
Qed.

(** C10.  The offset-resolution loop of [findClosest] terminates for every
    non-empty index array, every starting position inside it and every
    [desiredOffset], whatever the sizes are: within [2 * len] passes it
    returns a position of the array, and a larger budget changes nothing.
    Each pass either breaks, or (negative offset) moves one position back,
    never below the first, and stays negative, or (positive offset) moves
    one position forward, never past the last. *)
Theorem findClosest_loop_terminates (indexes : list indexTuple) (desiredOffset i : Z) :
  indexes <> [] ->
  0 <= i < len indexes ->
  (exists offset' i',
      0 <= i' < len indexes /\
      forall fuel, (2 * List.length indexes <= fuel)%nat ->
                   findClosest_loop fuel indexes desiredOffset i = Returns (offset', i')) /\
  (forall offset j,
      0 <= j < len indexes ->
      match findClosest_step indexes offset j with
      | Break _ j' => j' = j
      | Continue offset' j' =>
          (offset < 0 /\ offset' < 0 /\ j' = j - 1 /\ 0 <= j') \/
          (0 < offset /\ j' = j + 1 /\ j' <= len indexes - 1)
      | OutOfRange => False
      end).
Proof.
  intros _ Hi. split.
  - destruct (findClosest_loop_total indexes (2 * List.length indexes) desiredOffset i Hi)
      as (offset' & i' & Hloop & Hi'); [unfold len in *; lia|].
    exists offset', i'. split; [exact Hi'|].
    intros fuel Hfuel. eapply findClosest_loop_more_fuel; eauto.
  - intros offset j Hj. apply findClosest_step_progress. exact Hj.
Qed.

(** C10, a run of the theorem: a forward walk over three segments. *)
Lemma findClosest_loop_terminates_witness :
  (exists offset' i',
      0 <= i' < len [{| idx := 0; entry := segment "web.stdout.0" 10 |};
                     {| idx := 1; entry := segment "web.stdout.1" 10 |};
                     {| idx := 4; entry := segment "web.stdout.4" 10 |}] /\
      forall fuel,
        (2 * List.length [{| idx := 0; entry := segment "web.stdout.0" 10 |};
                          {| idx := 1; entry := segment "web.stdout.1" 10 |};
                          {| idx := 4; entry := segment "web.stdout.4" 10 |}] <= fuel)%nat ->
        findClosest_loop fuel
          [{| idx := 0; entry := segment "web.stdout.0" 10 |};
           {| idx := 1; entry := segment "web.stdout.1" 10 |};
           {| idx := 4; entry := segment "web.stdout.4" 10 |}] 25 0
        = Returns (offset', i')) /\
  (forall offset j,
      0 <= j < len [{| idx := 0; entry := segment "web.stdout.0" 10 |};
                    {| idx := 1; entry := segment "web.stdout.1" 10 |};
                    {| idx := 4; entry := segment "web.stdout.4" 10 |}] ->
      match findClosest_step
              [{| idx := 0; entry := segment "web.stdout.0" 10 |};
               {| idx := 1; entry := segment "web.stdout.1" 10 |};
               {| idx := 4; entry := segment "web.stdout.4" 10 |}] offset j with
      | Break _ j' => j' = j
      | Continue offset' j' =>
          (offset < 0 /\ offset' < 0 /\ j' = j - 1 /\ 0 <= j') \/
          (0 < offset /\ j' = j + 1 /\
           j' <= len [{| idx := 0; entry := segment "web.stdout.0" 10 |};
                      {| idx := 1; entry := segment "web.stdout.1" 10 |};
                      {| idx := 4; entry := segment "web.stdout.4" 10 |}] - 1)
      | OutOfRange => False
      end).
Proof.
  apply (findClosest_loop_terminates
           [{| idx := 0; entry := segment "web.stdout.0" 10 |};
            {| idx := 1; entry := segment "web.stdout.1" 10 |};
            {| idx := 4; entry := segment "web.stdout.4" 10 |}] 25 0).
  - discriminate.
  - unfold len. simpl. lia.
Defined.

(** C5, amended.  Every tuple [(idx, fileInfo)] returned by [logIndexes]
    comes from a non-directory entry named [<task>.<logType>.<suffix>]
    whose suffix is a decimal integer with an optional sign, of value [idx]
    within [int64]: non-negative when the suffix carries no sign, possibly
    negative otherwise.  A non-directory entry with the prefix whose suffix
    [strconv.Atoi] rejects makes [logIndexes] fail as a whole, so such a
    suffix is never accepted as an index. *)
Theorem logIndexes_parses (entries : list AllocFileInfo) (task logType : string) :
  (forall indexes,
      logIndexes entries task logType = ok indexes ->
      Forall (fun t =>
                parsedFrom entries task logType t /\
                forall suffix n,
                  Name (entry t) = (logPrefix task logType ++ suffix)%string ->
                  Strconv.digits suffix 0 = Some n ->
                  idx t = n /\ 0 <= idx t) indexes) /\
  (forall e suffix err,
      In e entries -> IsDir e = false ->
      Name e = (logPrefix task logType ++ suffix)%string ->
      Strconv.Atoi suffix = fail err ->
      exists err', logIndexes entries task logType = fail err').
Proof.
  split.
  - intros indexes H. apply logIndexes_ok in H.
    eapply Forall_impl; [|exact H].
    intros t Ht. split; [exact Ht|].
    destruct Ht as (_ & _ & sfx & Hname & Hatoi & _).
    intros suffix n Hname' Hd.
    assert (suffix = sfx).
    { rewrite Hname in Hname'. clear - Hname'.
      induction (logPrefix task logType) as [|c p IH]; simpl in Hname'; [congruence|].
      injection Hname' as H. auto. }
    subst sfx. eapply Atoi_unsigned_nonneg; eauto.
  - intros e suffix err Hin Hdir Hname Hatoi.
    eapply logIndexes_from_rejects; eauto.
Qed.

(** C5 as stated fails: the file [web.stdout.-1] is accepted with the
    negative index [-1]. *)
Lemma logIndexes_negative_counterexample :
  logIndexes [segment "web.stdout.-1" 7] "web" "stdout"
  = ok [{| idx := -1; entry := segment "web.stdout.-1" 7 |}] /\
  -1 < 0.
Proof. split; [reflexivity | lia]. Qed.

(** ** The scenario of two segments with a gap between their indexes *)

Lemma eqb_suffix_prefixed (p s : string) :
  p <> EmptyString -> String.eqb s (p ++ s) = false.
Proof.
  intros Hp. apply String.eqb_neq. intros H. symmetry in H.
  now apply app_neq_suffix in H.
Qed.

Lemma logIndexes_from_segment (task logType suffix : string) (i size : Z)
    (rest : list AllocFileInfo) (acc : list indexTuple) :
  Strconv.Atoi suffix = ok i ->
  logIndexes_from (logPrefix task logType)
    (segment (logPrefix task logType ++ suffix) size :: rest) acc
  = logIndexes_from (logPrefix task logType) rest
      (acc ++ [{| idx := i; entry := segment (logPrefix task logType ++ suffix) size |}]).
Proof.
  intros Hatoi.
  change (logIndexes_from (logPrefix task logType)
            (segment (logPrefix task logType ++ suffix) size :: rest) acc)
    with (let idxStr := Strings.TrimPrefix (logPrefix task logType ++ suffix)
                          (logPrefix task logType) in
          if String.eqb idxStr (logPrefix task logType ++ suffix)
          then logIndexes_from (logPrefix task logType) rest acc
          else
            match Strconv.Atoi idxStr with
            | fail err =>
                fail (Errorf ("failed to convert " ++ Strings.quote idxStr
                              ++ " to a log index: " ++ Error err)%string)
            | ok i =>
                logIndexes_from (logPrefix task logType) rest
                  (acc ++ [{| idx := i;
                              entry := segment (logPrefix task logType ++ suffix) size |}])
            end).
  cbv zeta.
  rewrite TrimPrefix_app, eqb_suffix_prefixed by apply logPrefix_nonempty.
  now rewrite Hatoi.
Qed.

Lemma logIndexes_gap (task logType : string) (s0 s2 : Z) :
  logIndexes [segment (logPrefix task logType ++ "0") s0;
              segment (logPrefix task logType ++ "2") s2] task logType
  = ok [{| idx := 0; entry := segment (logPrefix task logType ++ "0") s0 |};
        {| idx := 2; entry := segment (logPrefix task logType ++ "2") s2 |}].
Proof.
  unfold logIndexes.
  rewrite (logIndexes_from_segment task logType "0" 0) by reflexivity.
  rewrite (logIndexes_from_segment task logType "2" 2) by reflexivity.
  reflexivity.
Qed.

Lemma findClosest_gap_end (task logType : string) :
  findClosest [segment (logPrefix task logType ++ "0") 100;
               segment (logPrefix task logType ++ "2") 50]
    Int64.max_int64 (-80) task logType
  = Returns (ok (segment (logPrefix task logType ++ "0") 100, 0, 70)).
Proof. unfold findClosest. rewrite logIndexes_gap. reflexivity. Qed.

Lemma findClosest_gap_max (task logType : string) :
  findClosest [segment (logPrefix task logType ++ "0") 100;
               segment (logPrefix task logType ++ "2") 50]
    Int64.max_int64 0 task logType
  = Returns (ok (segment (logPrefix task logType ++ "2") 50, 2, 0)).
Proof. unfold findClosest. rewrite logIndexes_gap. reflexivity. Qed.

(** C4, amended.  For a log directory holding exactly segment 0 (100 bytes)
    and segment 2 (50 bytes) of [(task, logType)], a log stream with
    [origin = end] and [offset = 80] resolves, through
    [findClosest(entries, MaxInt64, -80)], to byte 70 of segment 0: the walk
    back takes the 50 bytes of segment 2, then 30 of the 100 bytes of
    segment 0, the two present segments being neighbours in the sorted
    array; the absent index 1 is no step of it.  The first call of
    [streamFile] is on segment 0 at offset 70. *)
Theorem logsImpl_end_offset_across_gap (follow : bool) (task logType : string)
    (result : option error) (done exited : bool) :
  findClosest [segment (logPrefix task logType ++ "0") 100;
               segment (logPrefix task logType ++ "2") 50]
    Int64.max_int64 (-80) task logType
  = Returns (ok (segment (logPrefix task logType ++ "0") 100, 0, 70)) /\
  findClosest_step
    [{| idx := 0; entry := segment (logPrefix task logType ++ "0") 100 |};
     {| idx := 2; entry := segment (logPrefix task logType ++ "2") 50 |}] (-80) 1
  = Continue (-30) 0 /\
  findClosest_step
    [{| idx := 0; entry := segment (logPrefix task logType ++ "0") 100 |};
     {| idx := 2; entry := segment (logPrefix task logType ++ "2") 50 |}] (-30) 0
  = Break 70 0 /\
  exists fin,
    logsImpl follow 80 "end" task logType
      [{| fs_List := ok [segment (logPrefix task logType ++ "0") 100;
                         segment (logPrefix task logType ++ "2") 50];
          streamFile_result := result; ctx_done := done; framer_exited := exited |}]
    = Returns
        ([{| v_from := Int64.max_int64; v_idx := 0;
             v_call := {| c_offset := 70;
                          c_path := joinLogPath (logPrefix task logType ++ "0");
                          c_limit := 0; c_eofCancel := NextLogChan 1 |} |}],
         fin).
Proof.
  split; [apply findClosest_gap_end|]. split; [reflexivity|]. split; [reflexivity|].
  unfold logsImpl, logsImpl_init. simpl String.eqb. cbv iota.
  change (Int64.mul 80 (-1)) with (-80).
  unfold logsImpl_loop, logsImpl_pass, logsImpl_segment, logsImpl_maxIndex.
  simpl fs_List. simpl nextIdx. simpl offset. cbv beta iota.
  rewrite findClosest_gap_end.
  destruct follow; simpl negb; cbv iota; rewrite ?findClosest_gap_max;
    (destruct done; simpl ctx_done; cbv iota;
     [ eexists; reflexivity
     | destruct result as [err|]; simpl streamFile_result; cbv iota;
       [ destruct (IsNotExist err); [eexists; reflexivity|];
         destruct (error_eqb err EPIPE); eexists; reflexivity
       | destruct exited; eexists; reflexivity ] ]).
Qed.

(** C4 as stated fails: the stream starts in segment 0, at its byte 70;
    segment 2 has no byte 70. *)
Lemma logsImpl_gap_counterexample :
  logsImpl true 80 "end" "web" "stdout"
    [{| fs_List := ok [segment "web.stdout.0" 100; segment "web.stdout.2" 50];
        streamFile_result := None; ctx_done := false; framer_exited := false |}]
  = Returns
      ([{| v_from := Int64.max_int64; v_idx := 0;
           v_call := {| c_offset := 70; c_path := "alloc/logs/web.stdout.0";
                        c_limit := 0; c_eofCancel := NextLogChan 1 |} |}],
       Running {| nextIdx := 1; offset := 0 |}) /\
  "alloc/logs/web.stdout.0" <> joinLogPath "web.stdout.2" /\
  Size (segment "web.stdout.2" 50) < 70.
Proof. repeat split; try reflexivity; discriminate. Qed.

(** C2, amended.  A pass of the segment loop that completes a segment sets
    [nextIdx] to [idx + 1], [idx] being the index just streamed, and the
    signed offset to 0.  When the pass did not walk backward (its signed
    offset was zero, as after every completed pass, or positive), [nextIdx]
    strictly increases if the listing holds an index at least [nextIdx] and
    [idx] is below [MaxInt64], and always when not following.  Nothing is
    promised for a pass that starts from [origin = end] or finds no index
    at least [nextIdx]. *)
Theorem logsImpl_nextIdx_advances (follow : bool) (task logType : string) (d : driver)
    (env : segmentEnv) (i : Z) (call : streamCall) (d' : driver) :
  logsImpl_pass follow task logType d env = Returns (Advance i call d') ->
  nextIdx d' = Int64.add i 1 /\ offset d' = 0 /\
  exists entries indexes,
    fs_List env = ok entries /\
    logIndexes entries task logType = ok indexes /\
    (exists t, In t indexes /\ idx t = i) /\
    (walksForward d indexes ->
     ((exists u, In u indexes /\ nextIdx d <= idx u) -> i < Int64.max_int64 ->
      nextIdx d <= i /\ nextIdx d < nextIdx d') /\
     (follow = false -> nextIdx d <= i /\ nextIdx d < nextIdx d')).
Proof.
  intros Hpass.
  destruct (logsImpl_pass_Advance _ _ _ _ _ _ _ _ Hpass)
    as (entries & m & e & o & Hlist & Hmax & Hfc & Hpol & _ & ->).
  split; [reflexivity|]. split; [reflexivity|].
  destruct (findClosest_ok_inv _ _ _ _ _ _ Hfc) as (indexes & Hidx & Hne).
  exists entries, indexes. split; [exact Hlist|]. split; [exact Hidx|].
  pose proof (logIndexes_ok _ _ _ _ Hidx) as Hall. rewrite Forall_forall in Hall.
  assert (Hinc : forall j, Int64.in_range j -> j < Int64.max_int64 -> Int64.add j 1 = j + 1).
  { intros j Hj Hlt. apply wrap_in_range. unfold Int64.in_range in *. lia. }
  split.
  - unfold findClosest in Hfc. rewrite Hidx in Hfc.
    destruct (len indexes =? 0); [discriminate|].
    destruct (closestIn (Sort.Sort indexes) (nextIdx d) (offset d))
      as [[[e' j] o']| |] eqn:Hc; try discriminate.
    injection Hfc as -> -> ->.
    unfold closestIn in Hc.
    destruct (Sort.Search _ _) as [k| |]; try discriminate.
    cbv zeta in Hc.
    destruct (findClosest_loop _ _ _ _) as [[o'' i']| |]; try discriminate.
    destruct (index (Sort.Sort indexes) i') as [t|] eqn:Ht; [|discriminate].
    injection Hc as <- <- <-.
    exists t. split; [|reflexivity]. apply Sort_In. eapply index_In; eauto.
  - intros Hfwd.
    destruct (findClosest_forward entries (nextIdx d) (offset d) task logType indexes e i o
                Hidx Hfwd Hfc) as (Hin & Hsome & Hnone).
    destruct (Hall _ Hin) as (_ & _ & sfx & _ & _ & _ & Hri). simpl in Hri.
    split.
    + intros Hex Hlt. specialize (Hsome Hex). simpl nextIdx.
      rewrite Hinc by assumption. lia.
    + intros ->.
      assert (Hlt : i < m).
      { unfold terminalPolicy in Hpol. simpl negb in Hpol. simpl andb in Hpol.
        destruct (i >? m) eqn:E1; [discriminate|].
        destruct (i =? m) eqn:E2; [discriminate|].
        rewrite Z.gtb_ltb in E1. apply Z.ltb_ge in E1. apply Z.eqb_neq in E2. lia. }
      destruct (logsImpl_maxIndex_largest entries task logType indexes m Hidx Hmax)
        as (Hle & um & Hum & Humm).
      destruct (Hall _ Hum) as (_ & _ & sfx' & _ & _ & _ & Hrm).
      assert (Hex : exists u, In u indexes /\ nextIdx d <= idx u).
      { destruct (Z_lt_le_dec (idx um) (nextIdx d)) as [Hbelow | Hok]; [|eauto].
        exfalso.
        assert (idx um <= i); [|lia].
        apply Hnone; [|exact Hum].
        intros u Hu. specialize (Hle u Hu). lia. }
      specialize (Hsome Hex). simpl nextIdx.
      rewrite Hinc; [lia | assumption | unfold Int64.in_range in Hrm; lia].
Qed.

(** C2, a run of the theorem: following from the start, segment 0 of two is
    completed and [nextIdx] goes from 0 to 1. *)
Lemma logsImpl_nextIdx_advances_witness :
  nextIdx {| nextIdx := 1; offset := 0 |} = Int64.add 0 1 /\
  offset {| nextIdx := 1; offset := 0 |} = 0 /\
  exists entries indexes,
    fs_List {| fs_List := ok [segment "web.stdout.0" 100; segment "web.stdout.1" 50];
               streamFile_result := None; ctx_done := false; framer_exited := false |}
    = ok entries /\
    logIndexes entries "web" "stdout" = ok indexes /\
    (exists t, In t indexes /\ idx t = 0) /\
    (walksForward {| nextIdx := 0; offset := 0 |} indexes ->
     ((exists u, In u indexes /\ nextIdx {| nextIdx := 0; offset := 0 |} <= idx u) ->
      0 < Int64.max_int64 ->
      nextIdx {| nextIdx := 0; offset := 0 |} <= 0 /\
      nextIdx {| nextIdx := 0; offset := 0 |} < nextIdx {| nextIdx := 1; offset := 0 |}) /\
     (true = false ->
      nextIdx {| nextIdx := 0; offset := 0 |} <= 0 /\
      nextIdx {| nextIdx := 0; offset := 0 |} < nextIdx {| nextIdx := 1; offset := 0 |})).
Proof.
  apply (logsImpl_nextIdx_advances true "web" "stdout" {| nextIdx := 0; offset := 0 |}
           {| fs_List := ok [segment "web.stdout.0" 100; segment "web.stdout.1" 50];
              streamFile_result := None; ctx_done := false; framer_exited := false |}
           0
           {| c_offset := 0; c_path := "alloc/logs/web.stdout.0"; c_limit := 0;
              c_eofCancel := NextLogChan 1 |}
           {| nextIdx := 1; offset := 0 |}).
  reflexivity.
Defined.

(** C2 as stated fails on two sequences of listings.  Following from
    [origin = end], the first completed pass lowers [nextIdx] from
    [MaxInt64] to 2.  Following from the start over the listings
    [0, 1], [0, 1], [0], the third pass starts from [nextIdx = 2], finds no
    index that high, streams segment 0 again from its start, and leaves
    [nextIdx] at 1. *)
Lemma logsImpl_revisits_counterexample :
  (exists call,
      logsImpl_pass true "web" "stdout" {| nextIdx := Int64.max_int64; offset := 0 |}
        {| fs_List := ok [segment "web.stdout.0" 100; segment "web.stdout.1" 50];
           streamFile_result := None; ctx_done := false; framer_exited := false |}
      = Returns (Advance 1 call {| nextIdx := 2; offset := 0 |}) /\
      2 < Int64.max_int64) /\
  (exists c0 c1 c2,
      logsImpl true 0 "start" "web" "stdout"
        [{| fs_List := ok [segment "web.stdout.0" 100; segment "web.stdout.1" 50];
            streamFile_result := None; ctx_done := false; framer_exited := false |};
         {| fs_List := ok [segment "web.stdout.0" 100; segment "web.stdout.1" 50];
            streamFile_result := None; ctx_done := false; framer_exited := false |};
         {| fs_List := ok [segment "web.stdout.0" 100];
            streamFile_result := None; ctx_done := false; framer_exited := false |}]
      = Returns ([{| v_from := 0; v_idx := 0; v_call := c0 |};
                  {| v_from := 1; v_idx := 1; v_call := c1 |};
                  {| v_from := 2; v_idx := 0; v_call := c2 |}],
                 Running {| nextIdx := 1; offset := 0 |}) /\
      c_path c2 = c_path c0 /\ c_offset c2 = 0).
Proof.
  split.
  - eexists. split; [reflexivity | reflexivity].
  - do 3 eexists. split; [reflexivity|]. split; reflexivity.
Qed.

(** C3.  In a pass of the segment loop with [follow = false], [maxIndex] is
    computed from that pass's own listing, by [findClosest] with
    [desiredIdx = MaxInt64] and [desiredOffset = 0], and is the largest
    index the listing holds; the pass then runs the rest of the loop body on
    that [maxIndex] and on the [idx] the second [findClosest] selected.
    There, for every [idx] and [maxIndex]: when [idx] is above [maxIndex]
    the driver returns nil at once, with no call of [streamFile]; when [idx]
    equals [maxIndex] the one call of [streamFile] made is on that segment
    with an already-closed [eofCancelCh], the loop is not re-entered with an
    advanced index, and the driver returns nil once that call has returned
    nil. *)
Theorem logsImpl_not_following (task logType : string) (d : driver) (env : segmentEnv)
    (entries : list AllocFileInfo) :
  fs_List env = ok entries ->
  (forall m,
      logsImpl_maxIndex false entries task logType = Returns (ok m) ->
      (exists e o,
          findClosest entries Int64.max_int64 0 task logType = Returns (ok (e, m, o))) /\
      (forall indexes,
          logIndexes entries task logType = ok indexes ->
          (forall u, In u indexes -> idx u <= m) /\
          (exists u, In u indexes /\ idx u = m))) /\
  (forall m logEntry i openOffset,
      logsImpl_maxIndex false entries task logType = Returns (ok m) ->
      findClosest entries (nextIdx d) (offset d) task logType
      = Returns (ok (logEntry, i, openOffset)) ->
      logsImpl_pass false task logType d env
      = Returns (logsImpl_segment false env logEntry i openOffset m)) /\
  (forall logEntry i openOffset m,
      i > m ->
      terminalPolicy false i m = Stop /\
      logsImpl_segment false env logEntry i openOffset m = Return None None) /\
  (forall logEntry i openOffset m,
      i = m ->
      terminalPolicy false i m = TailToEOF /\
      (streamFile_result env = None ->
       logsImpl_segment false env logEntry i openOffset m
       = Return None
           (Some (i, {| c_offset := openOffset; c_path := joinLogPath (Name logEntry);
                        c_limit := 0; c_eofCancel := ClosedChan |}))) /\
      match logsImpl_segment false env logEntry i openOffset m with
      | Return _ (Some (j, call)) | Retry j call =>
          j = i /\
          call = {| c_offset := openOffset; c_path := joinLogPath (Name logEntry);
                    c_limit := 0; c_eofCancel := ClosedChan |}
      | Return _ None | Advance _ _ _ => False
      end).
Proof.
  intros Hlist.
  split; [|split; [|split]].
  - intros m Hmax. split.
    + unfold logsImpl_maxIndex in Hmax. simpl negb in Hmax. cbv iota zeta in Hmax.
      destruct (findClosest entries Int64.max_int64 0 task logType) as [[[[e j] o]|err]| |];
        try discriminate.
      injection Hmax as ->. eauto.
    + intros indexes Hidx. eapply logsImpl_maxIndex_largest; eauto.
  - intros m logEntry i openOffset Hmax Hfc.
    unfold logsImpl_pass. now rewrite Hlist, Hmax, Hfc.
  - intros logEntry i openOffset m Hgt.
    assert (Hpol : terminalPolicy false i m = Stop).
    { unfold terminalPolicy. simpl negb. simpl andb.
      now replace (i >? m) with true by (symmetry; rewrite Z.gtb_ltb; apply Z.ltb_lt; lia). }
    split; [exact Hpol|].
    unfold logsImpl_segment. now rewrite Hpol.
  - intros logEntry i openOffset m Heq. subst m.
    assert (Hpol : terminalPolicy false i i = TailToEOF).
    { unfold terminalPolicy. simpl negb. simpl andb.
      replace (i >? i) with false by (symmetry; rewrite Z.gtb_ltb; apply Z.ltb_ge; lia).
      now rewrite Z.eqb_refl. }
    split; [exact Hpol|]. split.
    + intros Hnil. unfold logsImpl_segment. rewrite Hpol, Hnil.
      destruct (ctx_done env); reflexivity.
    + unfold logsImpl_segment. rewrite Hpol.
      destruct (ctx_done env); [auto|].
      destruct (streamFile_result env) as [err|]; [|auto].
      destruct (IsNotExist err); [auto|].
      destruct (error_eqb err EPIPE); auto.
Qed.

(** C3, a run of the theorem: not following, the pass that starts from
    [nextIdx = 1] over segments 0 and 1 finds [maxIndex = 1], selects
    segment 1 and tails it to EOF; handed an index 2 above that [maxIndex],
    the rest of the loop body returns without a call. *)
Lemma logsImpl_not_following_witness :
  (exists e o,
      findClosest [segment "web.stdout.0" 100; segment "web.stdout.1" 50]
        Int64.max_int64 0 "web" "stdout" = Returns (ok (e, 1, o))) /\
  logsImpl_pass false "web" "stdout" {| nextIdx := 1; offset := 0 |}
    {| fs_List := ok [segment "web.stdout.0" 100; segment "web.stdout.1" 50];
       streamFile_result := None; ctx_done := false; framer_exited := false |}
  = Returns (Return None
               (Some (1, {| c_offset := 0;
                            c_path := joinLogPath (Name (segment "web.stdout.1" 50));
                            c_limit := 0; c_eofCancel := ClosedChan |}))) /\
  logsImpl_segment false
    {| fs_List := ok [segment "web.stdout.0" 100; segment "web.stdout.1" 50];
       streamFile_result := None; ctx_done := false; framer_exited := false |}
    (segment "web.stdout.1" 50) 2 0 1
  = Return None None.
Proof.
  destruct (logsImpl_not_following "web" "stdout" {| nextIdx := 1; offset := 0 |}
              {| fs_List := ok [segment "web.stdout.0" 100; segment "web.stdout.1" 50];
                 streamFile_result := None; ctx_done := false; framer_exited := false |}
              [segment "web.stdout.0" 100; segment "web.stdout.1" 50] eq_refl)
    as (Hmax & Hpass & Hgt & Heq).
  split; [|split].
  - apply (Hmax 1). reflexivity.
  - rewrite (Hpass 1 (segment "web.stdout.1" 50) 1 0); [|reflexivity|reflexivity].
    rewrite (proj1 (proj2 (Heq (segment "web.stdout.1" 50) 1 0 1 eq_refl)) eq_refl).
    reflexivity.
  - apply (Hgt (segment "web.stdout.1" 50) 2 0 1). reflexivity.
Defined.

(** C6.  When [streamFile], waiting at EOF, receives a [Truncated] change
    event and both [file.Close()] and the reopening succeed, it closes the
    current file, reopens the file at offset 0 and continues from offset 0,
    records ["file truncated"] as pending event, and the next frame it sends
    carries that event.  With a positive limit the new reader is an
    [io.LimitedReader] capped at the limit minus the payload bytes delivered
    so far, whatever passes came before; without one it is the file
    itself. *)
Theorem streamFile_truncated (path : string) (limit offset : Z) (file0 : handle)
    (inputs : list tailerInput) (st : tailer) (inp : tailerInput) (n : Z)
    (reader : fileReader) (reopen : Z -> res handle) (file : handle) :
  Int64.in_range limit ->
  Forall readsWithin inputs -> readsWithin inp ->
  streamFile_loop path limit (streamFile_open offset limit file0) inputs = Looping st ->
  Read (t_reader st) (bufSize limit) (in_read inp) = (n, Some EOF, reader) ->
  in_send inp = None -> in_watch inp = None ->
  in_select inp = Truncated None reopen ->
  reopen 0 = ok file ->
  exists st',
    streamFile_pass path limit st inp = Looping st' /\
    t_closed st' = t_closed st ++ [t_file st] /\
    t_file st' = file /\ t_openedAt st' = 0 /\ t_offset st' = 0 /\
    t_lastEvent st' = truncateEvent /\
    (limit <= 0 -> t_reader st' = File file) /\
    (0 < limit ->
     t_reader st' = LimitedReader file (limit - delivered st') /\
     0 <= limit - delivered st' <= limit) /\
    (forall inp' n' readErr' reader',
        Read (t_reader st') (bufSize limit) (in_read inp') = (n', readErr', reader') ->
        readErr' = None \/ readErr' = Some EOF ->
        exists rest,
          t_sent (match streamFile_pass path limit st' inp' with
                  | Returned s _ | Looping s => s
                  end)
          = t_sent st' ++ {| f_path := path; f_event := truncateEvent; f_size := n';
                             f_offset := Int64.add 0 n' |} :: rest).
Proof.
  intros Hrange Hreads Hread Hloop HR Hsend Hwatch Hsel Hreopen.
  rewrite (streamFile_pass_at_EOF path limit st inp n reader HR Hsend Hwatch), Hsel.
  pose proof (bufSize_pos limit) as Hbuf.
  assert (Hnext : forall st',
             t_lastEvent st' = truncateEvent -> t_offset st' = 0 -> t_changes st' = true ->
             forall inp' n' readErr' reader',
               Read (t_reader st') (bufSize limit) (in_read inp') = (n', readErr', reader') ->
               readErr' = None \/ readErr' = Some EOF ->
               exists rest,
                 t_sent (match streamFile_pass path limit st' inp' with
                         | Returned s _ | Looping s => s
                         end)
                 = t_sent st' ++ {| f_path := path; f_event := truncateEvent; f_size := n';
                                    f_offset := Int64.add 0 n' |} :: rest).
  { intros st' Hev Hoff Hch inp' n' readErr' reader' HR' Herr.
    unfold streamFile_pass. rewrite HR'. simpl t_lastEvent. simpl t_offset.
    rewrite Hev, Hoff. simpl String.eqb. simpl negb. rewrite orb_true_r. cbv iota zeta.
    simpl t_lastEvent. rewrite Hev. simpl String.eqb. simpl negb. cbv iota.
    destruct Herr as [-> | ->]; simpl error_eqb; cbv iota;
      (destruct (in_send inp') as [err|]; [exists []; reflexivity|]).
    - exists []. reflexivity.
    - simpl t_changes. rewrite Hch. cbv iota. unfold streamFile_select.
      destruct (in_select inp') as [|send|close reopen'| | | |err]; simpl;
        try (exists []; reflexivity).
      + eexists. rewrite <- app_assoc. reflexivity.
      + destruct close; [exists []; reflexivity|].
        destruct (reopen' 0) as [f|err]; [|exists []; reflexivity].
        destruct (limit <=? 0); [exists []; reflexivity|].
        destruct reader'; exists []; reflexivity. }
  unfold streamFile_select. simpl t_offset. rewrite Hreopen.
  destruct (limit <=? 0) eqn:Hl.
  - apply Z.leb_le in Hl. eexists. split; [reflexivity|].
    do 4 (split; [reflexivity|]). split; [reflexivity|].
    split; [intros _; reflexivity|]. split; [intros Hpos; lia|].
    apply Hnext; reflexivity.
  - apply Z.leb_gt in Hl.
    assert (Hlim : limited limit st).
    { eapply streamFile_loop_limited; [| | exact Hreads | | exact Hloop]; try assumption.
      now apply streamFile_open_limited. }
    destruct (Read_limited limit st inp _ _ _ _ Hrange Hread Hbuf Hlim HR)
      as (h & N & Hrd & HN & Hn & Hsum).
    subst reader. simpl t_reader. eexists. split; [reflexivity|].
    do 4 (split; [reflexivity|]). split; [reflexivity|].
    split; [intros Hneg; lia|]. split; [|apply Hnext; reflexivity].
    intros _.
    assert (Hd : delivered (atSelect path st n (LimitedReader h N)) = delivered st + n).
    { unfold delivered, atSelect. simpl t_sent.
      destruct (negb (n =? 0) || negb (String.eqb (t_lastEvent st) "")) eqn:Hs.
      - clear. induction (t_sent st) as [|x l IH]; simpl; lia.
      - apply orb_false_iff in Hs as [Hz _]. apply negb_false_iff, Z.eqb_eq in Hz. lia. }
    match goal with
    | |- t_reader ?s = _ /\ _ =>
        change (delivered s) with (delivered (atSelect path st n (LimitedReader h N)))
    end.
    rewrite Hd. split; [simpl t_reader; f_equal; lia | lia].
Qed.

(** C6, a run of the theorem: limit 10, four bytes delivered, then the
    truncation; the reopened reader allows the six bytes left. *)
Lemma streamFile_truncated_witness :
  exists st',
    streamFile_pass "alloc/logs/web.stdout.0" 10
      {| t_offset := 4; t_file := 1%nat; t_openedAt := 0;
         t_reader := LimitedReader 1%nat 6; t_lastEvent := ""; t_changes := false;
         t_closed := [];
         t_sent := [{| f_path := "alloc/logs/web.stdout.0"; f_event := "";
                       f_size := 4; f_offset := 4 |}] |}
      seesTruncation
    = Looping st' /\
    t_reader st' = LimitedReader 2%nat 6 /\
    t_lastEvent st' = truncateEvent /\ t_offset st' = 0 /\ t_closed st' = [1%nat].
Proof.
  destruct (streamFile_truncated "alloc/logs/web.stdout.0" 10 0 1%nat [readsFour]
              {| t_offset := 4; t_file := 1%nat; t_openedAt := 0;
                 t_reader := LimitedReader 1%nat 6; t_lastEvent := ""; t_changes := false;
                 t_closed := [];
                 t_sent := [{| f_path := "alloc/logs/web.stdout.0"; f_event := "";
                               f_size := 4; f_offset := 4 |}] |}
              seesTruncation 0 (LimitedReader 1%nat 6) (fun _ => ok 2%nat) 2%nat)
    as (st' & Hpass & Hclosed & Hfile & Hopened & Hoff & Hev & _ & Hlim & _).
  - unfold Int64.in_range. rewrite min_int64_value, max_int64_value. lia.
  - constructor; [|constructor]. intros k Hk. simpl. lia.
  - intros k Hk. simpl. lia.
  - reflexivity.
  - reflexivity.
  - reflexivity.
  - reflexivity.
  - reflexivity.
  - reflexivity.
  - exists st'. split; [exact Hpass|].
    assert (Hst : Looping st'
                  = streamFile_pass "alloc/logs/web.stdout.0" 10
                      {| t_offset := 4; t_file := 1%nat; t_openedAt := 0;
                         t_reader := LimitedReader 1%nat 6; t_lastEvent := "";
                         t_changes := false; t_closed := [];
                         t_sent := [{| f_path := "alloc/logs/web.stdout.0"; f_event := "";
                                       f_size := 4; f_offset := 4 |}] |}
                      seesTruncation) by (symmetry; exact Hpass).
    vm_compute in Hst. injection Hst as ->. repeat split.
Defined.

(** C7, amended.  [parseFramerErr] returns nil for nil, maps every non-nil
    error whose message contains the closed-pipe text, the broken-pipe text,
    the connection-reset text or the text "forcibly closed" to the single
    sentinel [EPIPE], and returns every other non-nil error unchanged; and
    a pass of [logsImpl] whose call of [streamFile] returns that sentinel
    makes [logsImpl] return nil. *)
Theorem parseFramerErr_maps_disconnects :
  parseFramerErr None = None /\
  (forall e,
      Strings.Contains (Error e) (Error ErrClosedPipe)
      || Strings.Contains (Error e) (Error EPIPE)
      || Strings.Contains (Error e) (Error ECONNRESET)
      || Strings.Contains (Error e) "forcibly closed" = true ->
      parseFramerErr (Some e) = Some EPIPE) /\
  (forall e,
      Strings.Contains (Error e) (Error ErrClosedPipe)
      || Strings.Contains (Error e) (Error EPIPE)
      || Strings.Contains (Error e) (Error ECONNRESET)
      || Strings.Contains (Error e) "forcibly closed" = false ->
      parseFramerErr (Some e) = Some e) /\
  (forall follow task logType d env p,
      streamFile_result env = Some EPIPE ->
      logsImpl_pass follow task logType d env = Returns p ->
      match p with
      | Return err (Some _) => err = None
      | Return _ None => True
      | Retry _ _ | Advance _ _ _ => False
      end).
Proof.
  split; [reflexivity|]. split; [|split].
  - intros e H. unfold parseFramerErr. cbv zeta.
    destruct (Strings.Contains (Error e) (Error ErrClosedPipe)); [reflexivity|].
    destruct (Strings.Contains (Error e) (Error EPIPE)); [reflexivity|].
    destruct (Strings.Contains (Error e) (Error ECONNRESET)); [reflexivity|].
    simpl orb in *. now rewrite H.
  - intros e H. unfold parseFramerErr. cbv zeta.
    apply orb_false_iff in H as [H H4]. apply orb_false_iff in H as [H H3].
    apply orb_false_iff in H as [H1 H2]. now rewrite H1, H2, H3, H4.
  - intros follow task logType d env p Hres. unfold logsImpl_pass, logsImpl_segment. rewrite Hres.
    destruct (fs_List env) as [entries|err]; [|intros H; injection H as <-; exact I].
    destruct (logsImpl_maxIndex follow entries task logType) as [[m|err]| |];
      try discriminate; [|intros H; injection H as <-; exact I].
    destruct (findClosest entries (nextIdx d) (offset d) task logType)
      as [[[[e j] o]|err]| |]; try discriminate; [|intros H; injection H as <-; exact I].
    destruct (terminalPolicy follow j m);
      [intros H; injection H as <-; exact I | |];
      (destruct (ctx_done env); [intros H; injection H as <-; reflexivity|]);
      simpl IsNotExist; simpl error_eqb; cbv iota; intros H; injection H as <-; reflexivity.
Qed.

(** C7 as stated fails: an error that says "broken pipe", and none of the
    three texts the claim lists, is not returned unchanged but mapped to
    [EPIPE]. *)
Lemma parseFramerErr_broken_pipe_counterexample :
  parseFramerErr (Some (Errorf "write tcp 10.0.0.1:4646: write: broken pipe")) = Some EPIPE /\
  Errorf "write tcp 10.0.0.1:4646: write: broken pipe" <> EPIPE /\
  Strings.Contains "write tcp 10.0.0.1:4646: write: broken pipe" "closed pipe" = false /\
  Strings.Contains "write tcp 10.0.0.1:4646: write: broken pipe" "connection reset" = false /\
  Strings.Contains "write tcp 10.0.0.1:4646: write: broken pipe" "forcibly closed" = false.
Proof. repeat split; try reflexivity; discriminate. Qed.

(** ** The handlers' prologues *)

(** What a [stream] request that starts streaming went through. *)
Lemma stream_Started (c : client) (req : FsStreamRequest) (call : streamCall) :
  stream c (ok req) = Started call ->
  exists Stat fileInfo,
    GetAllocFS c (sr_AllocID req) = ok Stat /\
    Stat (sr_Path req) = ok fileInfo /\
    IsDir fileInfo = false /\
    (sr_Origin req = "start" \/ sr_Origin req = "end" \/ sr_Origin req = "") /\
    call = {| c_offset :=
                if String.eqb (sr_Origin req) "end" then
                  if Int64.sub (Size fileInfo) (sr_Offset req) <? 0 then 0
                  else Int64.sub (Size fileInfo) (sr_Offset req)
                else sr_Offset req;
              c_path := sr_Path req; c_limit := sr_Limit req;
              c_eofCancel := if negb (sr_Follow req) then ClosedChan else NilChan |}.
Proof.
  unfold stream.
  destruct (ResolveToken c (sr_AuthToken req)) as [aclObj|err]; [|discriminate].
  destruct (match aclObj with
            | Some a => negb (AllowNsOp a (sr_Namespace req) NamespaceCapabilityReadFS)
            | None => false
            end); [discriminate|].
  destruct (String.eqb (sr_AllocID req) ""); [discriminate|].
  destruct (String.eqb (sr_Path req) ""); [discriminate|].
  destruct (String.eqb (sr_Origin req) "start") eqn:Es.
  - apply String.eqb_eq in Es. simpl orb. cbv iota.
    destruct (GetAllocFS c (sr_AllocID req)) as [Stat|err]; [|discriminate].
    destruct (Stat (sr_Path req)) as [fileInfo|err] eqn:Hstat; [|discriminate].
    destruct (IsDir fileInfo) eqn:Hdir; [discriminate|].
    intros H. injection H as <-. exists Stat, fileInfo.
    repeat split; auto; try (rewrite Es; reflexivity).
  - simpl orb. destruct (String.eqb (sr_Origin req) "end") eqn:Ee.
    + apply String.eqb_eq in Ee.
      destruct (GetAllocFS c (sr_AllocID req)) as [Stat|err]; [|discriminate].
      destruct (Stat (sr_Path req)) as [fileInfo|err] eqn:Hstat; [|discriminate].
      destruct (IsDir fileInfo) eqn:Hdir; [discriminate|].
      intros H. injection H as <-. exists Stat, fileInfo.
      repeat split; auto; try (rewrite Ee; reflexivity).
    + destruct (String.eqb (sr_Origin req) "") eqn:E0; [|discriminate].
      apply String.eqb_eq in E0.
      destruct (GetAllocFS c (sr_AllocID req)) as [Stat|err]; [|discriminate].
      destruct (Stat (sr_Path req)) as [fileInfo|err] eqn:Hstat; [|discriminate].
      destruct (IsDir fileInfo) eqn:Hdir; [discriminate|].
      intros H. injection H as <-. exists Stat, fileInfo.
      repeat split; auto; try (rewrite E0; reflexivity).
Qed.

(** C8, amended.  In the file-stream handler, when the request origin is
    "end", the starting offset passed to the tailer is
    [max(0, fileSize - requestedOffset)] with the subtraction taken in
    [int64]; it equals the mathematical [max(0, fileSize - requestedOffset)]
    whenever that difference fits [int64], as it does for every
    non-negative size and offset.  When the origin is "start" or empty the
    requested offset is used unchanged. *)
Theorem stream_offset_from_end (c : client) (req : FsStreamRequest) (call : streamCall) :
  stream c (ok req) = Started call ->
  exists Stat fileInfo,
    GetAllocFS c (sr_AllocID req) = ok Stat /\
    Stat (sr_Path req) = ok fileInfo /\
    (sr_Origin req = "end" ->
     c_offset call = Z.max 0 (Int64.sub (Size fileInfo) (sr_Offset req)) /\
     (Int64.in_range (Size fileInfo - sr_Offset req) ->
      c_offset call = Z.max 0 (Size fileInfo - sr_Offset req)) /\
     (0 <= Size fileInfo <= Int64.max_int64 -> 0 <= sr_Offset req <= Int64.max_int64 ->
      c_offset call = Z.max 0 (Size fileInfo - sr_Offset req))) /\
    (sr_Origin req = "start" \/ sr_Origin req = "" -> c_offset call = sr_Offset req).
Proof.
  intros H. destruct (stream_Started c req call H)
    as (Stat & fileInfo & Hfs & Hstat & _ & _ & ->).
  exists Stat, fileInfo. split; [exact Hfs|]. split; [exact Hstat|]. split.
  - intros ->. simpl c_offset. simpl String.eqb. cbv iota.
    assert (Hmax : (if Int64.sub (Size fileInfo) (sr_Offset req) <? 0 then 0
                    else Int64.sub (Size fileInfo) (sr_Offset req))
                   = Z.max 0 (Int64.sub (Size fileInfo) (sr_Offset req))).
    { destruct (Int64.sub (Size fileInfo) (sr_Offset req) <? 0) eqn:E.
      - apply Z.ltb_lt in E. lia.
      - apply Z.ltb_ge in E. lia. }
    rewrite Hmax. split; [reflexivity|]. split.
    + intros Hr. unfold Int64.sub. now rewrite wrap_in_range.
    + intros Hs Ho. unfold Int64.sub. rewrite wrap_in_range; [reflexivity|].
      unfold Int64.in_range. rewrite min_int64_value, max_int64_value in *. lia.
  - intros [-> | ->]; reflexivity.
Qed.

(** C8, a run of the theorem: 30 bytes back from the end of a 100-byte
    file. *)
Lemma stream_offset_from_end_witness :
  exists Stat fileInfo,
    GetAllocFS (openClient None 100) (sr_AllocID (streamRequest 30 "end")) = ok Stat /\
    Stat (sr_Path (streamRequest 30 "end")) = ok fileInfo /\
    (sr_Origin (streamRequest 30 "end") = "end" ->
     c_offset {| c_offset := 70; c_path := "alloc/logs/web.stdout.0"; c_limit := 0;
                 c_eofCancel := ClosedChan |}
     = Z.max 0 (Int64.sub (Size fileInfo) (sr_Offset (streamRequest 30 "end"))) /\
     (Int64.in_range (Size fileInfo - sr_Offset (streamRequest 30 "end")) ->
      c_offset {| c_offset := 70; c_path := "alloc/logs/web.stdout.0"; c_limit := 0;
                  c_eofCancel := ClosedChan |}
      = Z.max 0 (Size fileInfo - sr_Offset (streamRequest 30 "end"))) /\
     (0 <= Size fileInfo <= Int64.max_int64 ->
      0 <= sr_Offset (streamRequest 30 "end") <= Int64.max_int64 ->
      c_offset {| c_offset := 70; c_path := "alloc/logs/web.stdout.0"; c_limit := 0;
                  c_eofCancel := ClosedChan |}
      = Z.max 0 (Size fileInfo - sr_Offset (streamRequest 30 "end")))) /\
    (sr_Origin (streamRequest 30 "end") = "start" \/ sr_Origin (streamRequest 30 "end") = "" ->
     c_offset {| c_offset := 70; c_path := "alloc/logs/web.stdout.0"; c_limit := 0;
                 c_eofCancel := ClosedChan |}
     = sr_Offset (streamRequest 30 "end")).
Proof.
  apply (stream_offset_from_end (openClient None 100) (streamRequest 30 "end")
           {| c_offset := 70; c_path := "alloc/logs/web.stdout.0"; c_limit := 0;
              c_eofCancel := ClosedChan |}).
  reflexivity.
Defined.

(** C8 as stated fails for a requested offset so far below zero that
    [fileSize - requestedOffset] leaves [int64]: for a 100-byte file and
    offset -9223372036854775800 the tailer starts at 0, not at
    [max(0, 100 + 9223372036854775800)]. *)
Lemma stream_offset_overflow_counterexample :
  stream (openClient None 100) (ok (streamRequest (-9223372036854775800) "end"))
  = Started {| c_offset := 0; c_path := "alloc/logs/web.stdout.0"; c_limit := 0;
               c_eofCancel := ClosedChan |} /\
  Int64.in_range (-9223372036854775800) /\
  Z.max 0 (100 - -9223372036854775800) = 9223372036854775900 /\
  0 <> 9223372036854775900.
Proof.
  split; [reflexivity|]. split; [|split; [reflexivity | discriminate]].
  unfold Int64.in_range. rewrite min_int64_value, max_int64_value. lia.
Qed.

(** C9.  When an ACL object is resolved for the request token, [logs]
    rejects the request with the permission-denied error exactly when the
    namespace grants neither [read-fs] nor [read-logs], so [read-logs] alone
    lets a logs request through the check; [stream] rejects it exactly when
    the namespace does not grant [read-fs], whatever it grants besides.  The
    rejection is written to the peer. *)
Theorem logs_permission (c : client) (req : FsLogsRequest) (sreq : FsStreamRequest)
    (a : ACL) :
  ResolveToken c (lr_AuthToken req) = ok (Some a) ->
  ResolveToken c (sr_AuthToken sreq) = ok (Some a) ->
  (logs c (ok req) = Rejected ErrPermissionDenied None <->
   AllowNsOp a (lr_Namespace req) NamespaceCapabilityReadFS = false /\
   AllowNsOp a (lr_Namespace req) NamespaceCapabilityReadLogs = false) /\
  (AllowNsOp a (lr_Namespace req) NamespaceCapabilityReadLogs = true ->
   logs c (ok req) <> Rejected ErrPermissionDenied None) /\
  (stream c (ok sreq) = Rejected ErrPermissionDenied None <->
   AllowNsOp a (sr_Namespace sreq) NamespaceCapabilityReadFS = false) /\
  transmitted ErrPermissionDenied = true.
Proof.
  intros Hl Hs.
  assert (Hcode : forall err, allocFSCode c err <> None).
  { intros err. unfold allocFSCode. destruct (IsErrUnknownAllocation c err); discriminate. }
  assert (Hlogs : logs c (ok req) = Rejected ErrPermissionDenied None <->
                  AllowNsOp a (lr_Namespace req) NamespaceCapabilityReadFS = false /\
                  AllowNsOp a (lr_Namespace req) NamespaceCapabilityReadLogs = false).
  { unfold logs. rewrite Hl. cbv zeta.
    destruct (AllowNsOp a (lr_Namespace req) NamespaceCapabilityReadFS),
             (AllowNsOp a (lr_Namespace req) NamespaceCapabilityReadLogs);
      simpl negb; simpl andb; cbv iota;
      try (split; [|intros _; reflexivity]; auto);
      (split; [|intros [? ?]; discriminate]);
      (destruct (String.eqb (lr_AllocID req) ""); [discriminate|]);
      (destruct (String.eqb (lr_Task req) ""); [discriminate|]);
      (destruct (negb (String.eqb (lr_LogType req) "stdout"
                       || String.eqb (lr_LogType req) "stderr")); [discriminate|]);
      (destruct (if String.eqb (lr_Origin req) "start" || String.eqb (lr_Origin req) "end"
                 then Some (lr_Origin req)
                 else if String.eqb (lr_Origin req) "" then Some "start" else None);
       [|discriminate]);
      (destruct (GetAllocFS c (lr_AllocID req)) as [fs|err];
       [|intros H; injection H as _ H; now apply Hcode in H]);
      (destruct (GetClientAlloc c (lr_AllocID req)) as [alloc|err];
       [|intros H; injection H as _ H; now apply Hcode in H]);
      (destruct (negb (hasTaskGroup alloc)); [discriminate|]);
      (destruct (negb (LookupTask alloc (lr_Task req))); [discriminate|]);
      destruct (TaskStates alloc (lr_Task req)) as [[|]|]; discriminate. }
  split; [exact Hlogs|]. split; [|split; [|reflexivity]].
  - intros Hcap Hrej. apply Hlogs in Hrej as [_ Hrej]. congruence.
  - unfold stream. rewrite Hs.
    destruct (AllowNsOp a (sr_Namespace sreq) NamespaceCapabilityReadFS);
      simpl negb; cbv iota; [|split; reflexivity].
    split; [|discriminate].
    destruct (String.eqb (sr_AllocID sreq) ""); [discriminate|].
    destruct (String.eqb (sr_Path sreq) ""); [discriminate|].
    destruct (if String.eqb (sr_Origin sreq) "start" || String.eqb (sr_Origin sreq) "end"
              then Some (sr_Origin sreq)
              else if String.eqb (sr_Origin sreq) "" then Some "start" else None);
      [|discriminate].
    destruct (GetAllocFS c (sr_AllocID sreq)) as [Stat|err];
      [|intros H; injection H as _ H; now apply Hcode in H].
    destruct (Stat (sr_Path sreq)) as [fileInfo|err]; [|discriminate].
    destruct (IsDir fileInfo); discriminate.
Qed.

(** C9, a run of the theorem: a token whose ACL grants [read-logs] only. *)
Lemma logs_permission_witness :
  logs (openClient (Some logsOnly) 100) (ok logsRequest)
  = Started {| lc_follow := false; lc_plain := true; lc_offset := 0; lc_origin := "start";
               lc_task := "web"; lc_logType := "stdout" |} /\
  stream (openClient (Some logsOnly) 100) (ok (streamRequest 0 "start"))
  = Rejected ErrPermissionDenied None.
Proof.
  destruct (logs_permission (openClient (Some logsOnly) 100) logsRequest
              (streamRequest 0 "start") logsOnly eq_refl eq_refl)
    as (_ & _ & Hstream & _).
  split; [reflexivity|]. apply Hstream. reflexivity.
Defined.

(** * Further properties of the code *)

(** ** The log-segment index *)

Lemma HasPrefix_TrimPrefix (name prefix : string) :
  prefix <> EmptyString ->
  (Strings.HasPrefix name prefix = true <-> Strings.TrimPrefix name prefix <> name).
Proof.
  intros Hp. split.
  - intros H Heq. unfold Strings.TrimPrefix in Heq. rewrite H in Heq.
    pose proof (HasPrefix_split prefix name H) as Hs. rewrite Heq in Hs.
    symmetry in Hs. now apply app_neq_suffix in Hs.
  - intros H. unfold Strings.TrimPrefix in H.
    destruct (Strings.HasPrefix name prefix); [reflexivity | congruence].
Qed.

Lemma logIndexes_from_entries (prefix : string) (entries : list AllocFileInfo) :
  prefix <> EmptyString ->
  forall acc r,
    logIndexes_from prefix entries acc = ok r ->
    map entry r = map entry acc ++ filter (matchesLog prefix) entries.
Proof.
  intros Hp. induction entries as [|e rest IH]; simpl; intros acc r H.
  - injection H as <-. now rewrite app_nil_r.
  - unfold matchesLog at 1. destruct (IsDir e); simpl negb; simpl andb; cbv iota.
    { now apply IH. }
    destruct (String.eqb (Strings.TrimPrefix (Name e) prefix) (Name e)) eqn:Hsame.
    + apply String.eqb_eq in Hsame.
      destruct (Strings.HasPrefix (Name e) prefix) eqn:Hh; [|now apply IH].
      apply HasPrefix_TrimPrefix in Hh; [contradiction | exact Hp].
    + apply String.eqb_neq in Hsame.
      apply HasPrefix_TrimPrefix in Hsame; [|exact Hp]. rewrite Hsame.
      destruct (Strconv.Atoi (Strings.TrimPrefix (Name e) prefix)) as [i|err];
        [|discriminate].
      apply IH in H. rewrite H, map_app, <- app_assoc. reflexivity.
Qed.

(** X4.  When [logIndexes] succeeds it keeps every regular file of the
    listing whose name starts with [<task>.<logType>.] and nothing else, in
    the order of the listing: directories and other names are skipped. *)
Theorem logIndexes_keeps_matching (entries : list AllocFileInfo) (task logType : string)
    (indexes : list indexTuple) :
  logIndexes entries task logType = ok indexes ->
  map entry indexes = filter (matchesLog (logPrefix task logType)) entries /\
  len indexes = len (filter (matchesLog (logPrefix task logType)) entries).
Proof.
  intros H. apply logIndexes_from_entries in H; [|apply logPrefix_nonempty].
  simpl in H. split; [exact H|].
  unfold len. now rewrite <- H, length_map.
Qed.

(** X4, a run of the theorem: a directory and a file of another task are
    skipped. *)
Lemma logIndexes_keeps_matching_witness :
  map entry [{| idx := 3; entry := segment "web.stdout.3" 5 |};
             {| idx := 1; entry := segment "web.stdout.1" 7 |}]
  = filter (matchesLog (logPrefix "web" "stdout"))
      [segment "web.stdout.3" 5; {| Name := "web.stdout.9"; IsDir := true; Size := 0 |};
       segment "db.stdout.0" 1; segment "web.stdout.1" 7] /\
  len [{| idx := 3; entry := segment "web.stdout.3" 5 |};
       {| idx := 1; entry := segment "web.stdout.1" 7 |}]
  = len (filter (matchesLog (logPrefix "web" "stdout"))
           [segment "web.stdout.3" 5; {| Name := "web.stdout.9"; IsDir := true; Size := 0 |};
            segment "db.stdout.0" 1; segment "web.stdout.1" 7]).
Proof.
  apply (logIndexes_keeps_matching
           [segment "web.stdout.3" 5; {| Name := "web.stdout.9"; IsDir := true; Size := 0 |};
            segment "db.stdout.0" 1; segment "web.stdout.1" 7] "web" "stdout").
  reflexivity.
Defined.

(** X1.  [findClosest] returns on every input, without indexing out of
    range and without looping forever.  It returns the error of
    [logIndexes] when that fails, the not-found error when no entry
    matches, and otherwise a regular file of the listing whose name is the
    prefix followed by the index it returns. *)
Theorem findClosest_errors (entries : list AllocFileInfo) (desiredIdx desiredOffset : Z)
    (task logType : string) :
  (forall err,
      logIndexes entries task logType = fail err ->
      findClosest entries desiredIdx desiredOffset task logType = Returns (fail err)) /\
  (logIndexes entries task logType = ok [] ->
   findClosest entries desiredIdx desiredOffset task logType
   = Returns (fail (notFoundErr task logType))) /\
  (forall indexes,
      logIndexes entries task logType = ok indexes -> indexes <> [] ->
      exists e i o suffix,
        findClosest entries desiredIdx desiredOffset task logType = Returns (ok (e, i, o)) /\
        In e entries /\ IsDir e = false /\
        Name e = (logPrefix task logType ++ suffix)%string /\
        Strconv.Atoi suffix = ok i).
Proof.
  split; [|split].
  - intros err H. unfold findClosest. now rewrite H.
  - intros H. unfold findClosest. now rewrite H.
  - intros indexes Hidx Hne.
    destruct (findClosest_unfold entries task logType indexes desiredIdx desiredOffset
                Hidx Hne) as (p & o & i' & t & _ & _ & Ht & Hfc).
    apply index_In in Ht. apply (proj1 (Sort_In indexes t)) in Ht.
    pose proof (logIndexes_ok _ _ _ _ Hidx) as Hall. rewrite Forall_forall in Hall.
    destruct (Hall t Ht) as (Hin & Hdir & suffix & Hname & Hatoi & _).
    exists (entry t), (idx t), o, suffix. auto.
Qed.

(** X2.  With [desiredOffset = 0], [findClosest] returns at offset 0 the
    segment with the smallest index that is at least [desiredIdx]; when
    every index is below [desiredIdx] it returns the segment with the
    largest index. *)
Theorem findClosest_smallest_index_at_least (entries : list AllocFileInfo)
    (desiredIdx : Z) (task logType : string) (indexes : list indexTuple) :
  logIndexes entries task logType = ok indexes ->
  indexes <> [] ->
  exists e i,
    findClosest entries desiredIdx 0 task logType = Returns (ok (e, i, 0)) /\
    In {| idx := i; entry := e |} indexes /\
    ((exists u, In u indexes /\ desiredIdx <= idx u) ->
     desiredIdx <= i /\ forall u, In u indexes -> desiredIdx <= idx u -> i <= idx u) /\
    ((forall u, In u indexes -> idx u < desiredIdx) ->
     forall u, In u indexes -> idx u <= i).
Proof.
  intros Hidx Hne.
  destruct (findClosest_unfold entries task logType indexes desiredIdx 0 Hidx Hne)
    as (p & o & i' & t & (Hp & Hbelow & Hat) & Hloop & Ht & Hfc).
  rewrite findClosest_loop_zero in Hloop by exact Hp. injection Hloop as <- <-.
  exists (entry t), (idx t). split; [exact Hfc|]. split; [|split].
  - apply Sort_In. apply index_In in Ht. now destruct t.
  - intros (u & Hu & Hdu).
    destruct Hat as [(tp & Htp & Hge) | (_ & Hall)].
    + rewrite Ht in Htp. injection Htp as <-. split; [exact Hge|].
      intros v Hv Hdv. apply (proj2 (Sort_In indexes v)) in Hv.
      apply In_index in Hv as [q Hq].
      destruct (Z_lt_le_dec q p) as [Hlt | Hle].
      * specialize (Hbelow q v Hq Hlt). lia.
      * apply (Sort_ordered indexes p q t v Ht Hq Hle).
    + specialize (Hall u (proj2 (Sort_In indexes u) Hu)). lia.
  - intros Hall u Hu.
    destruct Hat as [(tp & Htp & Hge) | (Hplast & _)].
    + apply index_In in Htp. apply (proj1 (Sort_In indexes tp)) in Htp.
      specialize (Hall tp Htp). lia.
    + apply (proj2 (Sort_In indexes u)) in Hu. apply In_index in Hu as [q Hq].
      pose proof (index_range _ _ _ Hq).
      apply (Sort_ordered indexes q p u t Hq Ht). lia.
Qed.

(** X2, a run of the theorem: asked for index 1 of the segments 0, 2 and 5,
    [findClosest] returns segment 2. *)
Lemma findClosest_smallest_index_at_least_witness :
  exists e i,
    findClosest [segment "web.stdout.5" 1; segment "web.stdout.0" 1; segment "web.stdout.2" 1]
      1 0 "web" "stdout" = Returns (ok (e, i, 0)) /\
    i = 2.
Proof.
  destruct (findClosest_smallest_index_at_least
              [segment "web.stdout.5" 1; segment "web.stdout.0" 1; segment "web.stdout.2" 1]
              1 "web" "stdout"
              [{| idx := 5; entry := segment "web.stdout.5" 1 |};
               {| idx := 0; entry := segment "web.stdout.0" 1 |};
               {| idx := 2; entry := segment "web.stdout.2" 1 |}]
              eq_refl ltac:(discriminate))
    as (e & i & Hfc & _ & _ & _).
  exists e, i. split; [exact Hfc|].
  assert (H : Returns (ok (e, i, 0))
              = findClosest [segment "web.stdout.5" 1; segment "web.stdout.0" 1;
                             segment "web.stdout.2" 1] 1 0 "web" "stdout")
    by (symmetry; exact Hfc).
  vm_compute in H. now injection H.
Defined.

(** ** Where the walk of [findClosest] lands, in bytes *)

Lemma prefixSize_all (a : list indexTuple) : prefixSize a (len a) = totalSize a.
Proof. unfold prefixSize, len. now rewrite Nat2Z.id, firstn_all. Qed.

Section Landing.

Variable indexes : list indexTuple.
Hypothesis sized : wellSized indexes.

(** Walking back from segment [i], the walk lands [-offset] bytes before
    the end of that segment, counted over the segments of the array, or at
    the very beginning when they hold fewer. *)
Lemma findClosest_loop_lands_back :
  forall fuel offset i offset' i',
    Int64.in_range offset -> offset < 0 -> 0 <= i < len indexes ->
    findClosest_loop fuel indexes offset i = Returns (offset', i') ->
    prefixSize indexes i' + offset' = Z.max 0 (prefixSize indexes (i + 1) + offset).
Proof.
  pose proof sized as Hsized. unfold wellSized in Hsized. rewrite Forall_forall in Hsized.
  induction fuel as [|fuel IH]; intros offset i offset' i' Hrange Hneg Hi;
    destruct (index_in_range indexes i Hi) as [t Ht];
    pose proof (Hsized t (index_In _ _ _ Ht)) as Hs;
    pose proof (prefixSize_succ _ _ _ Ht) as Hsucc;
    pose proof (prefixSize_bounds indexes i sized) as Hpre;
    assert (Hadd : Int64.add (Size (entry t)) offset = Size (entry t) + offset)
      by (apply wrap_in_range;
          unfold Int64.in_range, Int64.min_int64, Int64.max_int64 in *; lia);
    simpl; unfold findClosest_step; rewrite Ht, Hadd;
    replace (offset =? 0) with false by (symmetry; apply Z.eqb_neq; lia);
    replace (offset <? 0) with true by (symmetry; apply Z.ltb_lt; lia);
    rewrite Z.geb_leb;
    (destruct (0 <=? Size (entry t) + offset) eqn:E;
     [ apply Z.leb_le in E; intros H; injection H as <- <-; lia
     | apply Z.leb_gt in E;
       destruct (i =? 0) eqn:Ei;
       [ apply Z.eqb_eq in Ei; subst i; rewrite prefixSize_zero in *;
         intros H; injection H as <- <-; rewrite prefixSize_zero; lia
       | apply Z.eqb_neq in Ei ] ]);
    try discriminate.
  intros H. apply IH in H.
  - replace (i - 1 + 1) with i in H by lia. lia.
  - unfold Int64.in_range, Int64.min_int64, Int64.max_int64 in *. lia.
  - lia.
  - lia.
Qed.

(** Walking forward from segment [i], the walk lands [offset] bytes after
    the start of that segment, or at the end of the last segment when the
    array holds fewer. *)
Lemma findClosest_loop_lands_forward :
  forall fuel offset i offset' i',
    Int64.in_range offset -> 0 <= offset -> 0 <= i < len indexes ->
    findClosest_loop fuel indexes offset i = Returns (offset', i') ->
    prefixSize indexes i' + offset'
    = Z.min (totalSize indexes) (prefixSize indexes i + offset).
Proof.
  pose proof sized as Hsized. unfold wellSized in Hsized. rewrite Forall_forall in Hsized.
  induction fuel as [|fuel IH]; intros offset i offset' i' Hrange Hpos Hi;
    destruct (index_in_range indexes i Hi) as [t Ht];
    pose proof (Hsized t (index_In _ _ _ Ht)) as Hs;
    pose proof (prefixSize_succ _ _ _ Ht) as Hsucc;
    pose proof (prefixSize_bounds indexes i sized) as Hpre;
    pose proof (prefixSize_bounds indexes (i + 1) sized) as Hpre1;
    simpl; unfold findClosest_step; rewrite Ht;
    (destruct (offset =? 0) eqn:E0;
     [ apply Z.eqb_eq in E0; intros H; injection H as <- <-; lia
     | apply Z.eqb_neq in E0 ]);
    replace (offset <? 0) with false by (symmetry; apply Z.ltb_ge; lia);
    (destruct (offset <=? Size (entry t)) eqn:E;
     [ apply Z.leb_le in E; intros H; injection H as <- <-; lia
     | apply Z.leb_gt in E;
       destruct (i =? len indexes - 1) eqn:Ei;
       [ apply Z.eqb_eq in Ei;
         replace (i + 1) with (len indexes) in * by lia;
         rewrite prefixSize_all in *;
         intros H; injection H as <- <-; lia
       | apply Z.eqb_neq in Ei ] ]);
    try discriminate.
  assert (Hsub : Int64.sub offset (Size (entry t)) = offset - Size (entry t))
    by (apply wrap_in_range;
        unfold Int64.in_range, Int64.min_int64, Int64.max_int64 in *; lia).
  rewrite Hsub. intros H. apply IH in H.
  - lia.
  - unfold Int64.in_range, Int64.min_int64, Int64.max_int64 in *. lia.
  - lia.
  - lia.
Qed.

End Landing.

(** X3.  Over segments with sizes a file can have, the position
    [findClosest] returns is a byte count over the present segments laid
    end to end in index order.  A negative [desiredOffset] lands
    [|desiredOffset|] bytes before the end of the segment the search
    selected, or at the start of the first segment when fewer bytes come
    before; a non-negative one lands [desiredOffset] bytes after the start
    of the selected segment, or at the end of the last segment when fewer
    bytes follow.  In particular, when [desiredIdx] is above every index, a
    request of [k] bytes from the end lands at byte [max 0 (total - k)] of
    the whole. *)
Theorem findClosest_lands (entries : list AllocFileInfo) (desiredIdx desiredOffset : Z)
    (task logType : string) (indexes : list indexTuple) :
  logIndexes entries task logType = ok indexes ->
  indexes <> [] ->
  wellSized indexes ->
  Int64.in_range desiredOffset ->
  exists p i' t openOffset,
    startsAt (Sort.Sort indexes) desiredIdx p /\
    findClosest entries desiredIdx desiredOffset task logType
    = Returns (ok (entry t, idx t, openOffset)) /\
    index (Sort.Sort indexes) i' = Some t /\
    (desiredOffset < 0 ->
     prefixSize (Sort.Sort indexes) i' + openOffset
     = Z.max 0 (prefixSize (Sort.Sort indexes) (p + 1) + desiredOffset)) /\
    (0 <= desiredOffset ->
     prefixSize (Sort.Sort indexes) i' + openOffset
     = Z.min (totalSize indexes) (prefixSize (Sort.Sort indexes) p + desiredOffset)) /\
    ((forall u, In u indexes -> idx u < desiredIdx) -> desiredOffset < 0 ->
     prefixSize (Sort.Sort indexes) i' + openOffset
     = Z.max 0 (totalSize indexes + desiredOffset)).
Proof.
  intros Hidx Hne Hsized Hrange.
  assert (Hsized' : wellSized (Sort.Sort indexes)).
  { apply (wellSized_Permutation indexes); [symmetry; apply Sort_Permutation | exact Hsized]. }
  assert (Htot : totalSize (Sort.Sort indexes) = totalSize indexes)
    by apply totalSize_Permutation, Sort_Permutation.
  destruct (findClosest_unfold entries task logType indexes desiredIdx desiredOffset Hidx Hne)
    as (p & o & i' & t & Hstart & Hloop & Ht & Hfc).
  exists p, i', t, o. split; [exact Hstart|]. split; [exact Hfc|]. split; [exact Ht|].
  destruct Hstart as (Hp & _ & Hat).
  assert (Hback : desiredOffset < 0 ->
                  prefixSize (Sort.Sort indexes) i' + o
                  = Z.max 0 (prefixSize (Sort.Sort indexes) (p + 1) + desiredOffset)).
  { intros Hneg. eapply findClosest_loop_lands_back; eauto. }
  split; [exact Hback|]. split.
  - intros Hpos. rewrite <- Htot. eapply findClosest_loop_lands_forward; eauto.
  - intros Hall Hneg. rewrite (Hback Hneg).
    destruct Hat as [(tp & Htp & Hge) | (Hplast & _)].
    + apply index_In in Htp. apply (proj1 (Sort_In indexes tp)) in Htp.
      specialize (Hall tp Htp). lia.
    + replace (p + 1) with (len (Sort.Sort indexes)) by lia.
      now rewrite prefixSize_all, Htot.
Qed.

(** X3, a run of the theorem: 80 bytes from the end of 100 + 50 bytes is
    byte 70 of the whole. *)
Lemma findClosest_lands_witness :
  exists p i' t openOffset,
    findClosest [segment "web.stdout.0" 100; segment "web.stdout.2" 50]
      Int64.max_int64 (-80) "web" "stdout"
    = Returns (ok (entry t, idx t, openOffset)) /\
    startsAt (Sort.Sort [{| idx := 0; entry := segment "web.stdout.0" 100 |};
                         {| idx := 2; entry := segment "web.stdout.2" 50 |}])
      Int64.max_int64 p /\
    index (Sort.Sort [{| idx := 0; entry := segment "web.stdout.0" 100 |};
                      {| idx := 2; entry := segment "web.stdout.2" 50 |}]) i' = Some t /\
    ((forall u, In u [{| idx := 0; entry := segment "web.stdout.0" 100 |};
                      {| idx := 2; entry := segment "web.stdout.2" 50 |}] ->
                idx u < Int64.max_int64) ->
     prefixSize (Sort.Sort [{| idx := 0; entry := segment "web.stdout.0" 100 |};
                            {| idx := 2; entry := segment "web.stdout.2" 50 |}]) i'
     + openOffset = 70).
Proof.
  destruct (findClosest_lands
              [segment "web.stdout.0" 100; segment "web.stdout.2" 50]
              Int64.max_int64 (-80) "web" "stdout"
              [{| idx := 0; entry := segment "web.stdout.0" 100 |};
               {| idx := 2; entry := segment "web.stdout.2" 50 |}])
    as (p & i' & t & o & Hstart & Hfc & Ht & _ & _ & Hend).
  - reflexivity.
  - discriminate.
  - unfold wellSized. repeat apply Forall_cons; [| | apply Forall_nil];
      simpl; rewrite max_int64_value; lia.
  - unfold Int64.in_range. rewrite max_int64_value, min_int64_value. lia.
  - exists p, i', t, o. split; [exact Hfc|]. split; [exact Hstart|]. split; [exact Ht|].
    intros Hall. rewrite (Hend Hall); [reflexivity | lia].
Defined.

(** ** Transport errors *)

(** X5.  [parseFramerErr] is idempotent, maps the sentinel [EPIPE] to
    itself, and returns either nil, [EPIPE] or the error it was given: it
    never produces another error. *)
Theorem parseFramerErr_idempotent (err : option error) :
  parseFramerErr (parseFramerErr err) = parseFramerErr err /\
  (parseFramerErr err = None <-> err = None) /\
  (parseFramerErr err = Some EPIPE \/ parseFramerErr err = err).
Proof.
  destruct err as [e|]; [|repeat split; auto].
  assert (Hcases : parseFramerErr (Some e) = Some EPIPE \/ parseFramerErr (Some e) = Some e).
  { unfold parseFramerErr. cbv zeta.
    destruct (Strings.Contains (Error e) (Error ErrClosedPipe)); [now left|].
    destruct (Strings.Contains (Error e) (Error EPIPE)
              || Strings.Contains (Error e) (Error ECONNRESET)); [now left|].
    destruct (Strings.Contains (Error e) "forcibly closed"); [now left | now right]. }
  split; [|split; [|exact Hcases]].
  - destruct Hcases as [H | H]; rewrite H; [reflexivity | exact H].
  - split; [|discriminate]. destruct Hcases as [H | H]; rewrite H; discriminate.
Qed.

(** ** The tailer's limit *)

Lemma delivered_set_read (st : tailer) (o : Z) (r : fileReader) :
  delivered (set_read st o r) = delivered st.
Proof. reflexivity. Qed.

(** What a pass adds to the bytes delivered: nothing, or the bytes it
    read. *)
Lemma streamFile_pass_delivered (path : string) (limit : Z) (st : tailer)
    (inp : tailerInput) (n : Z) (readErr : option error) (reader : fileReader) :
  Read (t_reader st) (bufSize limit) (in_read inp) = (n, readErr, reader) ->
  forall s,
    match streamFile_pass path limit st inp with
    | Returned s' _ | Looping s' => s' = s
    end ->
    delivered s = delivered st \/ delivered s = delivered st + n.
Proof.
  intros HR s. unfold streamFile_pass. rewrite HR.
  simpl t_lastEvent. simpl t_offset.
  set (sends := negb (n =? 0) || negb (String.eqb (t_lastEvent st) "")).
  set (st1 := set_read st (Int64.add (t_offset st) n) reader).
  set (fr := {| f_path := path; f_event := t_lastEvent st; f_size := n;
                f_offset := Int64.add (t_offset st) n |}).
  assert (H1 : delivered st1 = delivered st) by reflexivity.
  assert (H2 : delivered (add_sent st1 fr) = delivered st + n)
    by (rewrite delivered_add_sent; simpl; lia).
  set (st2 := if sends then add_sent st1 fr else st1).
  assert (Hst2 : delivered st2 = delivered st \/ delivered st2 = delivered st + n).
  { unfold st2. destruct sends; auto. }
  assert (Hclear : forall ev,
             delivered (if negb (String.eqb ev "") then set_lastEvent st2 "" else st2)
             = delivered st2).
  { intros ev. destruct (negb (String.eqb ev "")); reflexivity. }
  destruct (match readErr with
            | Some e => negb (error_eqb e EOF)
            | None => false
            end).
  { intros <-. left. exact H1. }
  destruct (if sends then in_send inp else None).
  { intros <-. exact Hst2. }
  set (st3 := if negb (String.eqb (t_lastEvent st2) "") then set_lastEvent st2 "" else st2).
  assert (Hst3 : delivered st3 = delivered st2) by apply Hclear.
  destruct readErr as [e|]; [|intros <-; rewrite Hst3; exact Hst2].
  destruct (if t_changes st3 then None else in_watch inp).
  { intros <-. rewrite Hst3. exact Hst2. }
  unfold streamFile_select.
  destruct (in_select inp) as [|send|close reopen| | | |err];
    try (intros <-; change (delivered (set_changes st3)) with (delivered st3);
         rewrite Hst3; exact Hst2).
  - intros <-. rewrite delivered_add_sent.
    change (delivered (set_changes st3)) with (delivered st3). simpl f_size.
    rewrite Hst3. destruct Hst2 as [-> | ->]; [left | right]; lia.
  - destruct close.
    { intros <-. change (delivered (set_changes st3)) with (delivered st3).
      rewrite Hst3. exact Hst2. }
    destruct (reopen (t_offset (close_file (set_changes st3)))) as [file|err].
    + destruct (limit <=? 0).
      { intros <-. change (delivered st3 = delivered st \/ delivered st3 = delivered st + n).
        rewrite Hst3. exact Hst2. }
      destruct (t_reader (set_file (close_file (set_changes st3)) file));
        intros <-;
        change (delivered st3 = delivered st \/ delivered st3 = delivered st + n);
        rewrite Hst3; exact Hst2.
    + intros <-. change (delivered st3 = delivered st \/ delivered st3 = delivered st + n).
      rewrite Hst3. exact Hst2.
Qed.

(** X6.  With a positive limit, and a file whose reads honour the reader
    contract, [streamFile] never hands the framer more than [limit] payload
    bytes in total: not while it loops, not when it returns, and not across
    truncations. *)
Theorem streamFile_respects_limit (path : string) (limit offset : Z) (file : handle)
    (inputs : list tailerInput) :
  0 < limit -> Int64.in_range limit -> Forall readsWithin inputs ->
  match streamFile_loop path limit (streamFile_open offset limit file) inputs with
  | Returned s _ | Looping s => 0 <= delivered s <= limit
  end.
Proof.
  intros Hpos Hrange Hreads.
  assert (Hgen : forall st,
             limited limit st ->
             match streamFile_loop path limit st inputs with
             | Returned s _ | Looping s => 0 <= delivered s <= limit
             end).
  { induction Hreads as [|inp rest Hinp _ IH]; intros st Hlim.
    - simpl. destruct Hlim as (h & N & _ & HN & Hsum). lia.
    - simpl. destruct (streamFile_pass path limit st inp) as [s e|s] eqn:Hp.
      + destruct (Read (t_reader st) (bufSize limit) (in_read inp))
          as [[n readErr] reader] eqn:HR.
        destruct (Read_limited limit st inp _ _ _ _ Hrange Hinp (bufSize_pos limit) Hlim HR)
          as (h & N & _ & HN & Hn & Hsum).
        pose proof (streamFile_pass_delivered path limit st inp n readErr reader HR s) as Hd.
        rewrite Hp in Hd. specialize (Hd eq_refl).
        destruct Hlim as (h0 & N0 & _ & HN0 & Hsum0). lia.
      + apply IH. eapply streamFile_pass_limited; eauto. }
  apply Hgen. now apply streamFile_open_limited.
Qed.

(** X6, a run of the theorem: limit 10, two passes of four bytes, then a
    pass that can read only the two bytes left. *)
Lemma streamFile_respects_limit_witness :
  match streamFile_loop "alloc/logs/web.stdout.0" 10
          (streamFile_open 0 10 1%nat) [readsFour; readsFour; readsFour; readsFour] with
  | Returned s _ | Looping s => 0 <= delivered s <= 10
  end.
Proof.
  apply (streamFile_respects_limit "alloc/logs/web.stdout.0" 10 0 1%nat
           [readsFour; readsFour; readsFour; readsFour]).
  - lia.
  - unfold Int64.in_range. rewrite min_int64_value, max_int64_value. lia.
  - repeat (apply Forall_cons; [intros k Hk; simpl; lia|]). apply Forall_nil.
Defined.

(** ** What the log driver reads *)

Lemma findClosest_In (entries : list AllocFileInfo) (d off : Z) (task logType : string)
    (indexes : list indexTuple) (e : AllocFileInfo) (i o : Z) :
  logIndexes entries task logType = ok indexes ->
  findClosest entries d off task logType = Returns (ok (e, i, o)) ->
  In {| idx := i; entry := e |} indexes.
Proof.
  intros Hidx Hfc.
  destruct (findClosest_ok_inv _ _ _ _ _ _ Hfc) as (indexes' & Hidx' & Hne).
  rewrite Hidx in Hidx'. injection Hidx' as <-.
  destruct (findClosest_unfold entries task logType indexes d off Hidx Hne)
    as (p & off' & i' & t & _ & _ & Ht & Hfc').
  rewrite Hfc in Hfc'. injection Hfc' as -> -> ->.
  apply Sort_In. apply index_In in Ht. now destruct t.
Qed.

Lemma findClosest_readsSegment (entries : list AllocFileInfo) (d off : Z)
    (task logType : string) (e : AllocFileInfo) (i o : Z) (cancel : eofCancel) :
  findClosest entries d off task logType = Returns (ok (e, i, o)) ->
  readsSegment entries task logType i
    {| c_offset := o; c_path := joinLogPath (Name e); c_limit := 0; c_eofCancel := cancel |}.
Proof.
  intros Hfc. destruct (findClosest_ok_inv _ _ _ _ _ _ Hfc) as (indexes & Hidx & Hne).
  pose proof (findClosest_In _ _ _ _ _ _ _ _ _ Hidx Hfc) as Hin.
  pose proof (logIndexes_ok _ _ _ _ Hidx) as Hall. rewrite Forall_forall in Hall.
  destruct (Hall _ Hin) as (He & Hdir & suffix & Hname & Hatoi & _). simpl in *.
  exists e, suffix. repeat split; assumption.
Qed.

Lemma logsImpl_pass_reads (follow : bool) (task logType : string) (d : driver)
    (env : segmentEnv) (p : segmentPass) (i : Z) (call : streamCall) :
  logsImpl_pass follow task logType d env = Returns p ->
  passCall p = Some (i, call) ->
  exists entries, fs_List env = ok entries /\ readsSegment entries task logType i call.
Proof.
  unfold logsImpl_pass, logsImpl_segment.
  destruct (fs_List env) as [entries|err];
    [|intros H; injection H as <-; discriminate].
  destruct (logsImpl_maxIndex follow entries task logType) as [[m|err]| |];
    try discriminate; [|intros H; injection H as <-; discriminate].
  destruct (findClosest entries (nextIdx d) (offset d) task logType)
    as [[[[e j] o]|err]| |] eqn:Hfc;
    try discriminate; [|intros H; injection H as <-; discriminate].
  intros Hp Hcall. exists entries. split; [reflexivity|].
  destruct (terminalPolicy follow j m) as [| |n];
    [injection Hp as <-; discriminate | |];
    (destruct (ctx_done env);
     [ injection Hp as <-; injection Hcall as <- <-;
       eapply findClosest_readsSegment; eauto |]);
    (destruct (streamFile_result env) as [err|];
     [ destruct (IsNotExist err);
       [ injection Hp as <-; injection Hcall as <- <-;
         eapply findClosest_readsSegment; eauto |];
       destruct (error_eqb err EPIPE);
       injection Hp as <-; injection Hcall as <- <-;
       eapply findClosest_readsSegment; eauto |]).
  - injection Hp as <-. injection Hcall as <- <-. eapply findClosest_readsSegment; eauto.
  - destruct (framer_exited env);
      injection Hp as <-; injection Hcall as <- <-;
      eapply findClosest_readsSegment; eauto.
Qed.

(** X7.  Whatever the listings and the outcomes of the calls, the calls of
    [streamFile] that [logsImpl] makes line up with the passes of the
    segment loop, one call per listing at most: the k-th call is made in
    the k-th pass, on a file that is, in the listing of that very pass, a
    regular file named [<task>.<logType>.<index>], read from the log
    directory without a limit. *)
Theorem logsImpl_reads_only_segments (follow : bool) (offset : Z)
    (origin task logType : string) (envs : list segmentEnv)
    (visits : list visit) (fin : driverEnd) :
  logsImpl follow offset origin task logType envs = Returns (visits, fin) ->
  (List.length visits <= List.length envs)%nat /\
  Forall2 (onListing follow task logType) visits (firstn (List.length visits) envs) /\
  (forall k v,
      nth_error visits k = Some v ->
      exists env, nth_error envs k = Some env /\ onListing follow task logType v env).
Proof.
  intros H.
  assert (Hall : Forall2 (onListing follow task logType) visits
                   (firstn (List.length visits) envs)).
  { revert H. unfold logsImpl. destruct (logsImpl_init offset origin) as [d|err].
    - revert d visits fin.
      induction envs as [|env rest IH]; intros d visits fin H; simpl in H.
      + injection H as <- _. constructor.
      + destruct (logsImpl_pass follow task logType d env) as [p| |] eqn:Hp;
          try discriminate.
        assert (Hhead : forall i call,
                   passCall p = Some (i, call) ->
                   onListing follow task logType
                     {| v_from := nextIdx d; v_idx := i; v_call := call |} env).
        { intros i call Hc. split.
          - exists d, p. split; [reflexivity | split; [exact Hp | exact Hc]].
          - exact (logsImpl_pass_reads _ _ _ _ _ _ _ _ Hp Hc). }
        destruct p as [err [[i call]|]|i call|i call d'].
        * injection H as <- _. simpl. constructor; [apply Hhead; reflexivity | constructor].
        * injection H as <- _. constructor.
        * destruct (logsImpl_loop follow task logType d rest) as [[vs e]| |] eqn:Hl;
            try discriminate.
          injection H as <- _. simpl.
          constructor; [apply Hhead; reflexivity | exact (IH d vs e Hl)].
        * destruct (logsImpl_loop follow task logType d' rest) as [[vs e]| |] eqn:Hl;
            try discriminate.
          injection H as <- _. simpl.
          constructor; [apply Hhead; reflexivity | exact (IH d' vs e Hl)].
    - intros H. injection H as <- _. constructor. }
  assert (Hlen : (List.length visits <= List.length envs)%nat).
  { apply Forall2_length in Hall. rewrite length_firstn in Hall. lia. }
  split; [exact Hlen|]. split; [exact Hall|].
  intros k v Hk.
  assert (Hkl : (k < List.length visits)%nat) by (apply nth_error_Some; congruence).
  destruct (nth_error envs k) as [env|] eqn:Hek.
  - exists env. split; [reflexivity|].
    assert (Hfk : nth_error (firstn (List.length visits) envs) k = Some env)
      by (rewrite nth_error_firstn; apply Nat.ltb_lt in Hkl; now rewrite Hkl).
    clear Hlen Hkl Hek H. revert k Hk Hfk.
    induction Hall as [|v' env' vs es Hve _ IH]; intros k Hk Hfk.
    + destruct k; discriminate.
    + destruct k as [|k]; simpl in Hk, Hfk.
      * injection Hk as <-. injection Hfk as <-. exact Hve.
      * exact (IH k Hk Hfk).
  - apply nth_error_None in Hek. lia.
Qed.

(** X7, a run of the theorem: following two listings from the start, the
    second without segment 0; the second call is on a file of the second
    listing. *)
Lemma logsImpl_reads_only_segments_witness :
  exists visits fin v,
    logsImpl true 0 "start" "web" "stdout"
      [{| fs_List := ok [segment "web.stdout.0" 100; segment "web.stdout.1" 50];
          streamFile_result := None; ctx_done := false; framer_exited := false |};
       {| fs_List := ok [segment "web.stdout.1" 50; segment "web.stdout.2" 10];
          streamFile_result := Some EPIPE; ctx_done := false; framer_exited := false |}]
    = Returns (visits, fin) /\
    nth_error visits 1 = Some v /\
    onListing true "web" "stdout" v
      {| fs_List := ok [segment "web.stdout.1" 50; segment "web.stdout.2" 10];
         streamFile_result := Some EPIPE; ctx_done := false; framer_exited := false |}.
Proof.
  eexists. eexists. eexists. split; [reflexivity|].
  split; [reflexivity|].
  destruct (logsImpl_reads_only_segments true 0 "start" "web" "stdout"
              [{| fs_List := ok [segment "web.stdout.0" 100; segment "web.stdout.1" 50];
                  streamFile_result := None; ctx_done := false; framer_exited := false |};
               {| fs_List := ok [segment "web.stdout.1" 50; segment "web.stdout.2" 10];
                  streamFile_result := Some EPIPE; ctx_done := false;
                  framer_exited := false |}]
              _ _ eq_refl) as (_ & _ & Hnth).
  destruct (Hnth 1%nat _ eq_refl) as (env & Henv & Hon).
  injection Henv as <-. exact Hon.
Defined.

(** X8.  When not following, a pass of the segment loop never ends the
    stream without either an error or a call of [streamFile]: the selected
    index is never above [maxIndex], both being read off the same listing,
    so the branch that returns with nothing more to read is not taken. *)
Theorem logsImpl_not_following_never_stops (task logType : string) (d : driver)
    (env : segmentEnv) :
  match logsImpl_pass false task logType d env with
  | Returns (Return None None) => False
  | _ => True
  end.
Proof.
  unfold logsImpl_pass, logsImpl_segment.
  destruct (fs_List env) as [entries|err]; [|exact I].
  destruct (logsImpl_maxIndex false entries task logType) as [[m|err]| |] eqn:Hmax;
    try exact I.
  destruct (findClosest entries (nextIdx d) (offset d) task logType)
    as [[[[e j] o]|err]| |] eqn:Hfc; try exact I.
  destruct (terminalPolicy false j m) as [| |n] eqn:Hpol.
  - exfalso.
    destruct (findClosest_ok_inv _ _ _ _ _ _ Hfc) as (indexes & Hidx & Hne).
    pose proof (findClosest_In _ _ _ _ _ _ _ _ _ Hidx Hfc) as Hin.
    destruct (logsImpl_maxIndex_largest entries task logType indexes m Hidx Hmax)
      as (Hle & _).
    specialize (Hle _ Hin). simpl in Hle.
    unfold terminalPolicy in Hpol. simpl negb in Hpol. simpl andb in Hpol.
    destruct (j >? m) eqn:E.
    + rewrite Z.gtb_ltb in E. apply Z.ltb_lt in E. lia.
    + destruct (j =? m); discriminate.
  - destruct (ctx_done env); [exact I|].
    destruct (streamFile_result env) as [err|]; [|exact I].
    destruct (IsNotExist err); [exact I|]. destruct (error_eqb err EPIPE); exact I.
  - destruct (ctx_done env); [exact I|].
    destruct (streamFile_result env) as [err|].
    + destruct (IsNotExist err); [exact I|]. destruct (error_eqb err EPIPE); exact I.
    + destruct (framer_exited env); exact I.
Qed.

(** ** The wait for the next segment and the pass that follows it *)

Lemma anyAtLeast_spec (indexes : list indexTuple) (nextIndex : Z) :
  anyAtLeast indexes nextIndex = true <-> exists u, In u indexes /\ nextIndex <= idx u.
Proof.
  induction indexes as [|t rest IH]; simpl.
  - split; [discriminate | intros (u & [] & _)].
  - destruct (idx t >=? nextIndex) eqn:E; rewrite Z.geb_leb in E.
    + apply Z.leb_le in E. split; [|reflexivity]. intros _. exists t. auto.
    + apply Z.leb_gt in E. rewrite IH. split.
      * intros (u & Hu & Hle). exists u. auto.
      * intros (u & [<- | Hu] & Hle); [lia | eauto].
Qed.

Lemma findClosest_at_least (entries : list AllocFileInfo) (d : Z) (task logType : string)
    (indexes : list indexTuple) :
  logIndexes entries task logType = ok indexes -> indexes <> [] ->
  exists e i,
    findClosest entries d 0 task logType = Returns (ok (e, i, 0)) /\
    In {| idx := i; entry := e |} indexes /\
    ((exists u, In u indexes /\ d <= idx u) -> d <= i).
Proof.
  intros Hidx Hne.
  destruct (findClosest_unfold entries task logType indexes d 0 Hidx Hne)
    as (p & o & i' & t & (Hp & _) & Hloop & _ & Hfc).
  rewrite findClosest_loop_zero in Hloop by exact Hp. injection Hloop as <- <-.
  exists (entry t), (idx t). split; [exact Hfc|].
  destruct (findClosest_forward entries d 0 task logType indexes (entry t) (idx t) 0
              Hidx (or_introl eq_refl) Hfc) as (Hin & Hsome & _).
  auto.
Qed.

(** X9.  The scan of [blockUntilNextLog] and the next pass of the segment
    loop agree on a listing: when the scan signals that a segment with index
    at least [nextIndex] exists, [findClosest] asked for [nextIndex] at
    offset 0 selects a segment whose index is at least [nextIndex]; when the
    scan keeps waiting, any segment [findClosest] selects has a smaller
    index; and a listing whose names [logIndexes] rejects gives both the
    same error. *)
Theorem blockUntilNextLog_scan_agrees (entries : list AllocFileInfo)
    (task logType : string) (nextIndex : Z) :
  (blockUntilNextLog_scan (ok entries) task logType nextIndex = Some None ->
   exists e i,
     findClosest entries nextIndex 0 task logType = Returns (ok (e, i, 0)) /\
     nextIndex <= i) /\
  (blockUntilNextLog_scan (ok entries) task logType nextIndex = None ->
   forall e i o,
     findClosest entries nextIndex 0 task logType = Returns (ok (e, i, o)) ->
     i < nextIndex) /\
  (forall err,
      blockUntilNextLog_scan (ok entries) task logType nextIndex = Some (Some err) ->
      findClosest entries nextIndex 0 task logType = Returns (fail err)).
Proof.
  unfold blockUntilNextLog_scan.
  destruct (logIndexes entries task logType) as [indexes|err0] eqn:Hidx.
  - destruct (anyAtLeast indexes nextIndex) eqn:Hany.
    + split; [|split; [discriminate | intros err H; discriminate]].
      intros _. apply anyAtLeast_spec in Hany. destruct Hany as (u & Hu & Hle).
      assert (Hne : indexes <> []) by (intros ->; contradiction).
      destruct (findClosest_at_least entries nextIndex task logType
                  indexes Hidx Hne) as (e & i & Hfc & _ & Hsome).
      exists e, i. split; [exact Hfc|]. apply Hsome. eauto.
    + split; [discriminate|]. split; [|intros err H; discriminate].
      intros _ e i o Hfc.
      pose proof (findClosest_In _ _ _ _ _ _ _ _ _ Hidx Hfc) as Hin.
      destruct (Z_lt_le_dec i nextIndex) as [Hlt | Hge]; [exact Hlt|].
      assert (Hex : anyAtLeast indexes nextIndex = true)
        by (apply anyAtLeast_spec; eexists; split; [exact Hin | exact Hge]).
      congruence.
  - split; [discriminate|]. split; [discriminate|].
    intros err H. injection H as <-. unfold findClosest. now rewrite Hidx.
Qed.

(** ** The resources endpoint *)

Lemma getMatches_loop_spec :
  forall n iter matches,
    Resources.getMatches_loop n iter matches
    = (matches ++ keptIDs (firstn n iter), skipn n iter).
Proof.
  unfold keptIDs.
  induction n as [|n IH]; intros iter matches; simpl.
  - now rewrite app_nil_r.
  - destruct iter as [|raw rest]; simpl.
    + now rewrite app_nil_r.
    + destruct (String.eqb (Resources.getID raw) "") eqn:E; simpl; rewrite IH.
      * reflexivity.
      * now rewrite <- app_assoc.
Qed.

Lemma getMatches_eq (iter : list Resources.object) (context prefix : string) :
  Resources.getMatches iter context prefix
  = (keptIDs (firstn 20 iter), (20 <? List.length iter)%nat).
Proof.
  unfold Resources.getMatches. rewrite getMatches_loop_spec. cbv zeta. simpl app.
  f_equal.
  destruct (skipn 20 iter) as [|x l] eqn:Hs.
  - simpl. symmetry. apply Nat.ltb_ge. now apply skipn_all_iff.
  - simpl. symmetry. apply Nat.ltb_lt.
    destruct (Nat.le_gt_cases (List.length iter) 20) as [Hle | Hgt]; [|exact Hgt].
    apply skipn_all_iff in Hle. congruence.
Qed.

Lemma keptIDs_firstn (n : nat) (iter : list Resources.object) :
  (List.length (keptIDs (firstn n iter)) <= n)%nat /\
  Forall (fun id => id <> EmptyString) (keptIDs (firstn n iter)).
Proof.
  unfold keptIDs. split.
  - eapply Nat.le_trans; [apply filter_length_le|].
    rewrite length_map. apply firstn_le_length.
  - apply Forall_forall. intros id Hin. apply filter_In in Hin as [_ Hne].
    apply negb_true_iff, String.eqb_neq in Hne. exact Hne.
Qed.

(** X10.  [getMatches] looks at the first 20 objects of the iterator and
    returns their non-empty IDs in order, so at most 20 and none empty; the
    truncation flag is set exactly when the iterator holds more than 20
    objects, whatever their IDs. *)
Theorem getMatches_first_twenty (iter : list Resources.object) (context prefix : string) :
  Resources.getMatches iter context prefix
  = (keptIDs (firstn 20 iter), (20 <? List.length iter)%nat) /\
  (List.length (fst (Resources.getMatches iter context prefix)) <= 20)%nat /\
  Forall (fun id => id <> EmptyString) (fst (Resources.getMatches iter context prefix)).
Proof.
  split; [apply getMatches_eq|].
  rewrite getMatches_eq. cbn [fst]. apply keptIDs_firstn.
Qed.

(** X11.  The closure [run] of [Resources.List] fails with "invalid
    context", leaving both maps empty, for any context other than job,
    eval, alloc and node.  When it succeeds the reply holds exactly one
    key, the context, in both maps: at most 20 non-empty IDs, and the
    index of the context's table. *)
Theorem List_run_reply (args : Resources.ResourcesRequest) (state : Resources.StateStore) :
  (Resources.Context args <> "job" -> Resources.Context args <> "eval" ->
   Resources.Context args <> "alloc" -> Resources.Context args <> "node" ->
   snd (Resources.List_run args state) = Some (Errorf "invalid context") /\
   forall k, Resources.Matches (fst (Resources.List_run args state)) k = None /\
             Resources.Truncations (fst (Resources.List_run args state)) k = None) /\
  (snd (Resources.List_run args state) = None ->
   (exists ids isTrunc,
       Resources.Matches (fst (Resources.List_run args state)) (Resources.Context args)
       = Some ids /\
       (List.length ids <= 20)%nat /\ Forall (fun id => id <> EmptyString) ids /\
       Resources.Truncations (fst (Resources.List_run args state)) (Resources.Context args)
       = Some isTrunc) /\
   Resources.Index state (Resources.Context args)
   = ok (Resources.ReplyIndex (fst (Resources.List_run args state))) /\
   forall k, k <> Resources.Context args ->
             Resources.Matches (fst (Resources.List_run args state)) k = None /\
             Resources.Truncations (fst (Resources.List_run args state)) k = None).
Proof.
  split.
  - intros H1 H2 H3 H4. unfold Resources.List_run.
    apply String.eqb_neq in H1, H2, H3, H4. rewrite H1, H2, H3, H4. simpl. auto.
  - unfold Resources.List_run.
    set (lookup := if String.eqb (Resources.Context args) "job"
                   then Some (Resources.JobsByIDPrefix state (Resources.Prefix args))
                   else if String.eqb (Resources.Context args) "eval"
                   then Some (Resources.EvalsByIDPrefix state (Resources.Prefix args))
                   else if String.eqb (Resources.Context args) "alloc"
                   then Some (Resources.AllocsByIDPrefix state (Resources.Prefix args))
                   else if String.eqb (Resources.Context args) "node"
                   then Some (Resources.NodesByIDPrefix state (Resources.Prefix args))
                   else None).
    destruct lookup as [[iter|err]|]; try (simpl; discriminate).
    rewrite (getMatches_eq iter (Resources.Context args) (Resources.Prefix args)).
    destruct (keptIDs_firstn 20 iter) as [Hlen Hne].
    set (ids := keptIDs (firstn 20 iter)) in *.
    set (isTrunc := (20 <? List.length iter)%nat).
    destruct (Resources.Index state (Resources.Context args)) as [index|err];
      [|simpl; discriminate].
    intros _. simpl fst. simpl Resources.Matches. simpl Resources.Truncations.
    simpl Resources.ReplyIndex. unfold Resources.put.
    split; [|split; [reflexivity|]].
    + exists ids, isTrunc. rewrite String.eqb_refl. auto.
    + intros k Hk. apply String.eqb_neq in Hk. rewrite Hk. auto.
Qed.

(** X11, a run of the theorem: three jobs, one of them with an empty ID. *)
Lemma List_run_reply_witness :
  Resources.Matches
    (fst (Resources.List_run {| Resources.Context := "job"; Resources.Prefix := "w" |}
            threeJobs)) "job" = Some ["web"; "web-2"] /\
  Resources.Matches
    (fst (Resources.List_run {| Resources.Context := "job"; Resources.Prefix := "w" |}
            threeJobs)) "node" = None.
Proof.
  destruct (List_run_reply {| Resources.Context := "job"; Resources.Prefix := "w" |} threeJobs)
    as (_ & Hok).
  destruct (Hok eq_refl) as (_ & _ & Hother).
  split; [reflexivity|]. apply Hother. discriminate.
Defined.

(** ** The offsets the tailer reports *)

Lemma chained_app (prev : Z) (l : list frame) (fr : frame) :
  chained prev l ->
  f_offset fr
  = Int64.add (if String.eqb (f_event fr) truncateEvent then 0 else endOffset prev l)
      (f_size fr) ->
  chained prev (l ++ [fr]).
Proof.
  revert prev. induction l as [|x l IH]; intros prev Hc Hfr; simpl in *.
  - auto.
  - destruct Hc as [Hx Hc]. split; [exact Hx|]. now apply IH.
Qed.

Lemma endOffset_app (prev : Z) (l : list frame) (fr : frame) :
  endOffset prev (l ++ [fr]) = f_offset fr.
Proof. revert prev. induction l as [|x l IH]; intros prev; simpl; auto. Qed.

Lemma add_zero_in_range (z : Z) : Int64.in_range z -> Int64.add z 0 = z.
Proof. intros H. unfold Int64.add. rewrite Z.add_0_r. now apply wrap_in_range. Qed.

Lemma streamFile_select_inStep (path : string) (limit start : Z) (st : tailer)
    (c : fileChange) :
  inStep start st -> t_lastEvent st = "" ->
  match streamFile_select path limit (set_changes st) c with
  | Returned s _ => chained start (t_sent s)
  | Looping s => inStep start s
  end.
Proof.
  intros (Hc & Hr & Hev) Hclear.
  assert (Hoff : t_offset st = endOffset start (t_sent st)).
  { destruct Hev as [[_ H] | [H _]]; [exact H | rewrite Hclear in H; discriminate]. }
  assert (Hzero : Int64.in_range 0)
    by (unfold Int64.in_range; rewrite min_int64_value, max_int64_value; lia).
  unfold streamFile_select.
  destruct c as [|send|close reopen| | | |err]; try exact Hc.
  - split; [exact Hc|]. split; [exact Hr|]. left. auto.
  - simpl t_sent. apply chained_app; [exact Hc|]. simpl.
    rewrite <- Hoff. symmetry. now apply add_zero_in_range.
  - destruct close; [exact Hc|].
    destruct (reopen (t_offset (close_file (set_changes st)))) as [file|err]; [|exact Hc].
    destruct (limit <=? 0).
    + split; [exact Hc|]. split; [exact Hzero|]. right. split; reflexivity.
    + destruct (t_reader (set_file (close_file (set_changes st)) file));
        [exact Hc|].
      split; [exact Hc|]. split; [exact Hzero|]. right. split; reflexivity.
Qed.

Lemma streamFile_pass_inStep (path : string) (limit start : Z) (st : tailer)
    (inp : tailerInput) :
  inStep start st ->
  match streamFile_pass path limit st inp with
  | Returned s _ => chained start (t_sent s)
  | Looping s => inStep start s
  end.
Proof.
  intros (Hc & Hr & Hev). unfold streamFile_pass.
  destruct (Read (t_reader st) (bufSize limit) (in_read inp)) as [[n readErr] reader].
  simpl t_lastEvent. simpl t_offset.
  set (o := Int64.add (t_offset st) n).
  assert (Ho : Int64.in_range o) by apply wrap_range.
  set (st1 := set_read st o reader).
  set (fr := {| f_path := path; f_event := t_lastEvent st; f_size := n; f_offset := o |}).
  assert (Hfr : chained start (t_sent st ++ [fr])).
  { apply chained_app; [exact Hc|]. simpl. unfold o.
    destruct Hev as [[-> ->] | [-> ->]]; reflexivity. }
  destruct (match readErr with
            | Some e => negb (error_eqb e EOF)
            | None => false
            end); [exact Hc|].
  destruct (negb (n =? 0) || negb (String.eqb (t_lastEvent st) "")) eqn:Hs.
  - (* a frame is sent *)
    destruct (in_send inp); [exact Hfr|].
    assert (Hst3 : inStep start
                     (if negb (String.eqb (t_lastEvent (add_sent st1 fr)) "")
                      then set_lastEvent (add_sent st1 fr) "" else add_sent st1 fr) /\
                   t_lastEvent
                     (if negb (String.eqb (t_lastEvent (add_sent st1 fr)) "")
                      then set_lastEvent (add_sent st1 fr) "" else add_sent st1 fr) = "").
    { simpl t_lastEvent. destruct (negb (String.eqb (t_lastEvent st) "")) eqn:He.
      - split; [|reflexivity].
        split; [exact Hfr|]. split; [exact Ho|]. left. split; [reflexivity|].
        simpl. now rewrite endOffset_app.
      - apply negb_false_iff, String.eqb_eq in He. split; [|exact He].
        split; [exact Hfr|]. split; [exact Ho|]. left. split; [exact He|].
        simpl. now rewrite endOffset_app. }
    revert Hst3.
    generalize (if negb (String.eqb (t_lastEvent (add_sent st1 fr)) "")
                then set_lastEvent (add_sent st1 fr) "" else add_sent st1 fr).
    intros st3 [Hst3 Hclear].
    destruct readErr as [e|]; [|exact Hst3].
    destruct (if t_changes st3 then None else in_watch inp);
      [exact (proj1 Hst3)|].
    apply streamFile_select_inStep; assumption.
  - (* nothing is sent: no byte read, no event pending *)
    apply orb_false_iff in Hs as [Hn He].
    apply negb_false_iff, Z.eqb_eq in Hn. apply negb_false_iff, String.eqb_eq in He.
    assert (Hoo : o = t_offset st) by (unfold o; rewrite Hn; now apply add_zero_in_range).
    assert (Hst1 : inStep start st1).
    { split; [exact Hc|]. split; [exact Ho|].
      destruct Hev as [[_ Hoff] | [Htr _]]; [|rewrite He in Htr; discriminate].
      left. split; [exact He|]. simpl. rewrite Hoo. exact Hoff. }
    simpl t_lastEvent. rewrite He. simpl String.eqb. simpl negb. cbv iota.
    destruct readErr as [e|]; [|exact Hst1].
    destruct (if t_changes st1 then None else in_watch inp);
      [exact (proj1 Hst1)|].
    apply streamFile_select_inStep; [exact Hst1 | exact He].
Qed.

(** X12.  The offsets [streamFile] reports to the framer follow one
    another on every run: each frame carries the offset of the frame before
    it (the starting offset for the first) plus its own payload length, the
    "file deleted" frame repeats the offset reached, and a frame tagged
    "file truncated" counts its payload from zero.  While the tailer loops
    its own offset is that of the last frame, or zero while a truncation is
    pending. *)
Theorem streamFile_offsets_chained (path : string) (limit offset : Z) (file : handle)
    (inputs : list tailerInput) :
  Int64.in_range offset ->
  match streamFile_loop path limit (streamFile_open offset limit file) inputs with
  | Returned s _ => chained offset (t_sent s)
  | Looping s => inStep offset s
  end.
Proof.
  intros Hrange.
  assert (Hgen : forall st,
             inStep offset st ->
             match streamFile_loop path limit st inputs with
             | Returned s _ => chained offset (t_sent s)
             | Looping s => inStep offset s
             end).
  { induction inputs as [|inp rest IH]; intros st Hst; simpl; [exact Hst|].
    pose proof (streamFile_pass_inStep path limit offset st inp Hst) as Hp.
    destruct (streamFile_pass path limit st inp) as [s e|s]; [exact Hp | now apply IH]. }
  apply Hgen. unfold inStep, streamFile_open. simpl.
  split; [exact I|]. split; [exact Hrange|]. left. auto.
Qed.

(** X12, a run of the theorem: eight bytes in two frames from offset 100,
    then a truncation. *)
Lemma streamFile_offsets_chained_witness :
  match streamFile_loop "alloc/logs/web.stdout.0" 0
          (streamFile_open 100 0 1%nat) [readsFour; readsFour; seesTruncation] with
  | Returned s _ => chained 100 (t_sent s)
  | Looping s => inStep 100 s
  end.
Proof.
  apply (streamFile_offsets_chained "alloc/logs/web.stdout.0" 0 100 1%nat
           [readsFour; readsFour; seesTruncation]).
  unfold Int64.in_range. rewrite min_int64_value, max_int64_value. lia.
Defined.

(** ** From the handlers to the driver *)

(** X13.  A logs request that [logs] lets through reaches [logsImpl] with a
    non-empty task, log type stdout or stderr, and an origin that is
    "start" or "end", the empty origin having become "start": the
    [switch origin] of [logsImpl] then sets [nextIdx] to 0, or to
    [MaxInt64] with the offset negated, and its invalid-origin branch is
    not reached; the task has started. *)
Theorem logs_starts_logsImpl (c : client) (req : FsLogsRequest) (call : logsCall) :
  logs c (ok req) = Started call ->
  lc_task call = lr_Task req /\ lc_task call <> EmptyString /\
  (lc_logType call = "stdout" \/ lc_logType call = "stderr") /\
  (lr_Origin req = "" -> lc_origin call = "start") /\
  (exists alloc,
      GetClientAlloc c (lr_AllocID req) = ok alloc /\
      LookupTask alloc (lc_task call) = true /\
      TaskStates alloc (lc_task call) = Some true) /\
  ((lc_origin call = "start" /\
    logsImpl_init (lc_offset call) (lc_origin call)
    = ok {| nextIdx := 0; offset := lr_Offset req |}) \/
   (lc_origin call = "end" /\
    logsImpl_init (lc_offset call) (lc_origin call)
    = ok {| nextIdx := Int64.max_int64; offset := Int64.mul (lr_Offset req) (-1) |})).
Proof.
  unfold logs.
  destruct (ResolveToken c (lr_AuthToken req)) as [aclObj|err]; [|discriminate].
  destruct (match aclObj with
            | Some a =>
                let readfs := AllowNsOp a (lr_Namespace req) NamespaceCapabilityReadFS in
                let logs := AllowNsOp a (lr_Namespace req) NamespaceCapabilityReadLogs in
                negb readfs && negb logs
            | None => false
            end); [discriminate|].
  destruct (String.eqb (lr_AllocID req) ""); [discriminate|].
  destruct (String.eqb (lr_Task req) "") eqn:Htask; [discriminate|].
  apply String.eqb_neq in Htask.
  destruct (String.eqb (lr_LogType req) "stdout") eqn:Hout;
    destruct (String.eqb (lr_LogType req) "stderr") eqn:Herr;
    simpl orb; simpl negb; cbv iota; try discriminate;
    (assert (Htype : lr_LogType req = "stdout" \/ lr_LogType req = "stderr")
      by (first [ left; now apply String.eqb_eq | right; now apply String.eqb_eq ]));
    clear Hout Herr;
    (destruct (String.eqb (lr_Origin req) "start") eqn:Es;
     [ apply String.eqb_eq in Es
     | destruct (String.eqb (lr_Origin req) "end") eqn:Ee;
       [ apply String.eqb_eq in Ee
       | destruct (String.eqb (lr_Origin req) "") eqn:E0;
         [ apply String.eqb_eq in E0 | simpl orb; cbv iota; discriminate ] ] ]);
    simpl orb; cbv iota;
    (destruct (GetAllocFS c (lr_AllocID req)) as [fs|err]; [|discriminate]);
    (destruct (GetClientAlloc c (lr_AllocID req)) as [alloc|err]; [|discriminate]);
    (destruct (negb (hasTaskGroup alloc)); [discriminate|]);
    (destruct (LookupTask alloc (lr_Task req)) eqn:Hlook; simpl negb; cbv iota;
     [|discriminate]);
    (destruct (TaskStates alloc (lr_Task req)) as [[|]|] eqn:Hstate; try discriminate);
    intros H; injection H as <-; simpl;
    (split; [reflexivity|]); (split; [exact Htask|]); (split; [exact Htype|]);
    (split; [intros Hempty; congruence|]);
    (split; [exists alloc; auto|]);
    try (rewrite Es; left; split; reflexivity);
    try (rewrite Ee; right; split; reflexivity);
    try (left; split; reflexivity).
Qed.

(** X13, a run of the theorem: a request with the empty origin. *)
Lemma logs_starts_logsImpl_witness :
  exists call,
    logs (openClient None 100)
      (ok {| lr_AllocID := "a1"; lr_Task := "web"; lr_LogType := "stderr"; lr_Offset := 5;
             lr_Origin := ""; lr_Follow := true; lr_PlainText := false;
             lr_AuthToken := ""; lr_Namespace := "default" |}) = Started call /\
    lc_origin call = "start".
Proof.
  eexists. split; [reflexivity|].
  destruct (logs_starts_logsImpl (openClient None 100)
              {| lr_AllocID := "a1"; lr_Task := "web"; lr_LogType := "stderr"; lr_Offset := 5;
                 lr_Origin := ""; lr_Follow := true; lr_PlainText := false;
                 lr_AuthToken := ""; lr_Namespace := "default" |}
              _ eq_refl) as (_ & _ & _ & Horigin & _).
  apply Horigin. reflexivity.
Defined.

(** ** The non-streaming endpoints *)

(** X14.  [List] and [Stat] make the same permission check before they
    touch the allocation: with an ACL resolved for the token that does not
    grant [read-fs] on the namespace, both return the permission-denied
    error whatever the allocation and the path are; with the capability
    granted, or no ACL, each returns what the allocation's file system
    answers, and the error of [GetAllocFS] when the allocation has none. *)
Theorem List_Stat_permission (n : FS.node) (args : FS.request) (aclObj : option ACL) :
  FS.ResolveToken n (FS.AuthToken args) = ok aclObj ->
  (forall a,
      aclObj = Some a ->
      AllowNsOp a (FS.Namespace args) NamespaceCapabilityReadFS = false ->
      FS.List n args = fail ErrPermissionDenied /\
      FS.Stat n args = fail ErrPermissionDenied) /\
  (aclObj = None \/
   (exists a, aclObj = Some a /\
              AllowNsOp a (FS.Namespace args) NamespaceCapabilityReadFS = true) ->
   match FS.GetAllocFS n (FS.AllocID args) with
   | ok fs =>
       FS.List n args = FS.fs_List fs (FS.Path args) /\
       FS.Stat n args = FS.fs_Stat fs (FS.Path args)
   | fail err => FS.List n args = fail err /\ FS.Stat n args = fail err
   end).
Proof.
  intros Hres. split.
  - intros a -> Hcap. unfold FS.List, FS.Stat. now rewrite Hres, Hcap.
  - intros Hallowed. unfold FS.List, FS.Stat. rewrite Hres.
    assert (Hcheck : match aclObj with
                     | Some a =>
                         negb (AllowNsOp a (FS.Namespace args) NamespaceCapabilityReadFS)
                     | None => false
                     end = false).
    { destruct Hallowed as [-> | (a & -> & ->)]; reflexivity. }
    rewrite Hcheck.
    destruct (FS.GetAllocFS n (FS.AllocID args)) as [fs|err]; [|auto].
    destruct (FS.fs_List fs (FS.Path args)), (FS.fs_Stat fs (FS.Path args)); auto.
Qed.

(** X14, a run of the theorem: a token with [read-logs] only may neither
    list nor stat. *)
Lemma List_Stat_permission_witness :
  FS.List (fsNode (Some logsOnly))
    {| FS.AllocID := "a1"; FS.Path := "/"; FS.AuthToken := "t"; FS.Namespace := "default" |}
  = fail ErrPermissionDenied /\
  FS.Stat (fsNode (Some logsOnly))
    {| FS.AllocID := "a1"; FS.Path := "/"; FS.AuthToken := "t"; FS.Namespace := "default" |}
  = fail ErrPermissionDenied.
Proof.
  destruct (List_Stat_permission (fsNode (Some logsOnly))
              {| FS.AllocID := "a1"; FS.Path := "/"; FS.AuthToken := "t";
                 FS.Namespace := "default" |}
              (Some logsOnly) eq_refl) as (Hdenied & _).
  apply (Hdenied logsOnly); reflexivity.
Defined.

(** ** Reading a quiet log directory to its end *)

Lemma countAtLeast_drops (a : list indexTuple) (k i : Z) (t : indexTuple) :
  k <= i -> In t a -> idx t = i ->
  (countAtLeast a (i + 1) < countAtLeast a k)%nat.
Proof.
  intros Hk Hin Hi. unfold countAtLeast.
  induction a as [|u a IH]; [contradiction|]. simpl.
  assert (Hmono : (List.length (filter (fun v => idx v >=? i + 1) a)
                   <= List.length (filter (fun v => idx v >=? k) a))%nat).
  { clear - Hk. induction a as [|v a IH]; simpl; [lia|].
    destruct (idx v >=? i + 1) eqn:E1; destruct (idx v >=? k) eqn:E2; simpl; lia. }
  destruct Hin as [-> | Hin].
  - replace (idx t >=? i + 1) with false
      by (symmetry; rewrite Z.geb_leb; apply Z.leb_gt; lia).
    replace (idx t >=? k) with true by (symmetry; rewrite Z.geb_leb; apply Z.leb_le; lia).
    simpl. lia.
  - specialize (IH Hin).
    destruct (idx u >=? i + 1) eqn:E1; destruct (idx u >=? k) eqn:E2; simpl; lia.
Qed.

Lemma ascending_cons (x : Z) (l : list Z) :
  ascending l -> (forall y, In y l -> x < y) -> ascending (x :: l).
Proof.
  intros Hl Hx. destruct l as [|y l]; simpl; [exact I|].
  split; [apply Hx; now left | exact Hl].
Qed.

(** A pass over a quiet directory, not following, from signed offset 0:
    it streams the segment [findClosest] selects from its start, and either
    that is the segment with the largest index and [logsImpl] returns nil,
    or the loop goes on from the index after it. *)
Lemma logsImpl_pass_quiet (entries : list AllocFileInfo) (task logType : string)
    (indexes : list indexTuple) (d : driver) :
  logIndexes entries task logType = ok indexes -> indexes <> [] -> offset d = 0 ->
  exists m e i,
    (forall u, In u indexes -> idx u <= m) /\
    (exists u, In u indexes /\ idx u = m) /\
    In {| idx := i; entry := e |} indexes /\
    ((exists u, In u indexes /\ nextIdx d <= idx u) -> nextIdx d <= i) /\
    ((forall u, In u indexes -> idx u < nextIdx d) -> m <= i) /\
    ((i = m /\
      logsImpl_pass false task logType d (quiet entries)
      = Returns (Return None
                   (Some (i, {| c_offset := 0; c_path := joinLogPath (Name e);
                                c_limit := 0; c_eofCancel := ClosedChan |})))) \/
     (i < m /\
      logsImpl_pass false task logType d (quiet entries)
      = Returns (Advance i
                   {| c_offset := 0; c_path := joinLogPath (Name e); c_limit := 0;
                      c_eofCancel := NextLogChan (i + 1) |}
                   {| nextIdx := i + 1; offset := 0 |}))).
Proof.
  intros Hidx Hne Hoff.
  destruct (findClosest_at_least entries Int64.max_int64 task logType indexes Hidx Hne)
    as (e0 & m & Hfc0 & _ & _).
  assert (Hmax : logsImpl_maxIndex false entries task logType = Returns (ok m)).
  { unfold logsImpl_maxIndex. simpl negb. cbv iota zeta. now rewrite Hfc0. }
  destruct (logsImpl_maxIndex_largest entries task logType indexes m Hidx Hmax)
    as (Hle & um & Hum & Humm).
  destruct (findClosest_at_least entries (nextIdx d) task logType indexes Hidx Hne)
    as (e & i & Hfc & Hin & Hsome).
  exists m, e, i. split; [exact Hle|]. split; [eauto|].
  split; [exact Hin|]. split; [exact Hsome|].
  split.
  { intros Hbelow.
    destruct (findClosest_forward entries (nextIdx d) 0 task logType indexes e i 0
                Hidx (or_introl eq_refl) Hfc) as (_ & _ & Hnone).
    rewrite <- Humm. apply Hnone; assumption. }
  pose proof (Hle _ Hin) as Him. simpl in Him.
  pose proof (logIndexes_ok _ _ _ _ Hidx) as Hall. rewrite Forall_forall in Hall.
  destruct (Hall _ Hum) as (_ & _ & sfx & _ & _ & _ & Hrm).
  destruct (Hall _ Hin) as (_ & _ & sfx' & _ & _ & _ & Hri). simpl in Hri.
  unfold logsImpl_pass, logsImpl_segment, quiet. simpl fs_List. cbv iota. rewrite Hmax, Hoff, Hfc.
  unfold terminalPolicy. simpl negb. simpl andb.
  replace (i >? m) with false by (symmetry; rewrite Z.gtb_ltb; apply Z.ltb_ge; lia).
  destruct (i =? m) eqn:E.
  - apply Z.eqb_eq in E. left. split; [exact E | reflexivity].
  - apply Z.eqb_neq in E. right. split; [lia|].
    assert (Hinc : Int64.add i 1 = i + 1).
    { apply wrap_in_range. unfold Int64.in_range in *. lia. }
    simpl. now rewrite Hinc.
Qed.

Lemma logsImpl_loop_quiet (entries : list AllocFileInfo) (task logType : string)
    (indexes : list indexTuple) :
  logIndexes entries task logType = ok indexes -> indexes <> [] ->
  forall n d,
    offset d = 0 ->
    (1 <= n)%nat -> (countAtLeast indexes (nextIdx d) <= n)%nat ->
    exists visits m,
      logsImpl_loop false task logType d (repeat (quiet entries) n)
      = Returns (visits, Exited None) /\
      visits <> [] /\
      ascending (map v_idx visits) /\
      List.last (map v_idx visits) 0 = m /\
      (forall u, In u indexes -> idx u <= m) /\
      Forall (fun v => (exists u, In u indexes /\ idx u = v_idx v) /\
                       c_offset (v_call v) = 0) visits /\
      ((exists u, In u indexes /\ nextIdx d <= idx u) ->
       forall v, In v visits -> nextIdx d <= v_idx v).
Proof.
  intros Hidx Hne. induction n as [|n IH]; intros d Hoff Hn Hcount; [lia|].
  destruct (logsImpl_pass_quiet entries task logType indexes d Hidx Hne Hoff)
    as (m & e & i & Hle & (um & Hum & Humm) & Hin & Hsome & Hnone
        & [[Him Hpass] | [Him Hpass]]).
  - exists [{| v_from := nextIdx d; v_idx := i;
               v_call := {| c_offset := 0; c_path := joinLogPath (Name e); c_limit := 0;
                            c_eofCancel := ClosedChan |} |}], m.
    simpl repeat. simpl logsImpl_loop. rewrite Hpass.
    split; [reflexivity|]. split; [discriminate|]. split; [exact I|].
    split; [exact Him|]. split; [exact Hle|]. split.
    + constructor; [|constructor]. split; [|reflexivity].
      exists {| idx := i; entry := e |}. auto.
    + intros Hex v [<- | []]. simpl. auto.
  - assert (Hmore : exists u, In u indexes /\ i + 1 <= idx u).
    { exists um. split; [exact Hum | lia]. }
    assert (Hsomei : nextIdx d <= i).
    { destruct (Z_lt_le_dec m (nextIdx d)) as [Hlt | Hge].
      - assert (m <= i); [|lia].
        apply Hnone. intros u Hu. specialize (Hle u Hu). lia.
      - apply Hsome. exists um. split; [exact Hum | lia]. }
    assert (Hdrop : (countAtLeast indexes (i + 1) < countAtLeast indexes (nextIdx d))%nat).
    { apply (countAtLeast_drops indexes (nextIdx d) i {| idx := i; entry := e |});
        [exact Hsomei | exact Hin | reflexivity]. }
    assert (Hpos : (1 <= countAtLeast indexes (i + 1))%nat).
    { destruct Hmore as (u & Hu & Hui). unfold countAtLeast.
      assert (Hf : In u (filter (fun v => idx v >=? i + 1) indexes)).
      { apply filter_In. split; [exact Hu|]. rewrite Z.geb_leb. now apply Z.leb_le. }
      destruct (filter (fun v => idx v >=? i + 1) indexes); [contradiction | simpl; lia]. }
    destruct (IH {| nextIdx := i + 1; offset := 0 |} eq_refl ltac:(lia) ltac:(simpl; lia))
      as (vs & m' & Hloop & Hvs & Hasc & Hlast & Hle' & Hall & Hfrom).
    exists ({| v_from := nextIdx d; v_idx := i;
               v_call := {| c_offset := 0; c_path := joinLogPath (Name e); c_limit := 0;
                            c_eofCancel := NextLogChan (i + 1) |} |} :: vs), m'.
    simpl repeat. simpl logsImpl_loop. rewrite Hpass, Hloop.
    split; [reflexivity|]. split; [discriminate|]. split.
    + simpl map. apply ascending_cons; [exact Hasc|].
      intros y Hy. apply in_map_iff in Hy as (v & <- & Hv).
      specialize (Hfrom Hmore v Hv). simpl in Hfrom. lia.
    + split.
      * simpl map. destruct vs as [|v0 vs']; [congruence|]. exact Hlast.
      * split; [exact Hle'|]. split.
        -- constructor; [|exact Hall]. split; [|reflexivity].
           exists {| idx := i; entry := e |}. auto.
        -- intros _ v [<- | Hv]; [simpl; exact Hsomei|].
           specialize (Hfrom Hmore v Hv). simpl in Hfrom. lia.
Qed.

(** X15.  Reading without following, from the start, a log directory that
    does not change while every segment streams to its end: [logsImpl]
    streams segments from offset 0 in strictly increasing index order, so
    none twice, ends with the segment of the largest index, and returns
    nil, within as many passes as there are segments. *)
Theorem logsImpl_reads_to_the_end (entries : list AllocFileInfo) (task logType : string)
    (indexes : list indexTuple) (n : nat) :
  logIndexes entries task logType = ok indexes ->
  indexes <> [] ->
  (List.length indexes <= n)%nat ->
  exists visits m,
    logsImpl false 0 "start" task logType (repeat (quiet entries) n)
    = Returns (visits, Exited None) /\
    visits <> [] /\
    ascending (map v_idx visits) /\
    List.last (map v_idx visits) 0 = m /\
    (forall u, In u indexes -> idx u <= m) /\
    Forall (fun v => (exists u, In u indexes /\ idx u = v_idx v) /\
                     c_offset (v_call v) = 0) visits.
Proof.
  intros Hidx Hne Hn.
  assert (Hlen : (1 <= List.length indexes)%nat).
  { destruct indexes; [congruence | simpl; lia]. }
  destruct (logsImpl_loop_quiet entries task logType indexes Hidx Hne n
              {| nextIdx := 0; offset := 0 |} eq_refl ltac:(lia))
    as (visits & m & Hloop & Hvs & Hasc & Hlast & Hle & Hall & _).
  { unfold countAtLeast. eapply Nat.le_trans; [apply filter_length_le | exact Hn]. }
  exists visits, m. unfold logsImpl, logsImpl_init. simpl String.eqb. cbv iota.
  auto 10.
Qed.

(** X15, a run of the theorem: three segments listed out of order. *)
Lemma logsImpl_reads_to_the_end_witness :
  exists visits,
    logsImpl false 0 "start" "web" "stdout"
      (repeat (quiet [segment "web.stdout.2" 5; segment "web.stdout.0" 7;
                      segment "web.stdout.1" 9]) 3)
    = Returns (visits, Exited None) /\
    map v_idx visits = [0; 1; 2].
Proof.
  destruct (logsImpl_reads_to_the_end
              [segment "web.stdout.2" 5; segment "web.stdout.0" 7; segment "web.stdout.1" 9]
              "web" "stdout"
              [{| idx := 2; entry := segment "web.stdout.2" 5 |};
               {| idx := 0; entry := segment "web.stdout.0" 7 |};
               {| idx := 1; entry := segment "web.stdout.1" 9 |}] 3
              eq_refl ltac:(discriminate) ltac:(simpl; lia))
    as (visits & m & Hrun & _).
  exists visits. split; [exact Hrun|].
  assert (H : Returns (visits, Exited None)
              = logsImpl false 0 "start" "web" "stdout"
                  (repeat (quiet [segment "web.stdout.2" 5; segment "web.stdout.0" 7;
                                  segment "web.stdout.1" 9]) 3))
    by (symmetry; exact Hrun).
  vm_compute in H. injection H as ->. reflexivity.
Defined.
